(** * Zero Friction Brain: note indexing and cross-linking engine

    A shallow embedding of the plugin's identifier allocator, keyword
    prefilter, classifier-response parsers and link patching, with the
    properties of the specification stated and proved over it.

    Conventions of the embedding.
    - A JavaScript string is a Rocq [string]: the UTF-8 bytes of the text.
      The texts searched for and cut at below (["---"], the section header,
      ["[["], the line feed, ["$"]) are sequences of whole characters, so
      cutting and searching on bytes agrees with cutting and searching on
      UTF-16 code units for well-formed text.
    - An integer-valued JavaScript number (a counter, an array length) is a
      [Z].  A relevance score is a [Q]: the exact value of the parsed
      double.  Scores are compared, and the order of finite doubles is the
      order of their values; the one computation on a score, the figure
      printed in a link, is made in the arithmetic of doubles.
    - [String.prototype.toLowerCase] is a parameter of the prefilter: the
      case mapping of Unicode is a table that the source does not hold, and
      the properties are proved whatever the mapping is.
    - A [Map] whose iteration order is observed is an association list in
      insertion order; a [Map] only read with [get] and written with [set]
      is a [gmap].
    - Values have their declared TypeScript types, except in the gateway's
      parsers, which test the types of parsed JSON at run time: there a
      value is a [json].
    - An awaited call to the classifier or to the confirmation modal is an
      argument: the value the call resolves to.  The document store is a
      [gmap] from path to text. *)

From Stdlib Require Import ZArith QArith Qround Lia Lqa Ascii String Sorting.Sorted.
From stdpp Require Import gmap strings list pretty sorting.

Local Open Scope Z_scope.

(** Let [simpl] compute the concatenation of texts. *)
#[local] Arguments String.append !_ _ : simpl nomatch.

(** ** JavaScript string primitives *)

Module Js.

(** The line feed, written ["\n"] in the source. *)
Definition nl : string := String (ascii_of_nat 10) "".

(** [Number.prototype.toString] on an integer below [10 ^ 21] in absolute
    value, as the counters and the times are: the decimal numeral. *)
Definition toString (n : Z) : string := pretty n.

(** [String.fromCharCode] on a code below 128. *)
Definition fromCharCode (c : Z) : string := String (ascii_of_N (Z.to_N c)) "".

(** [Array.prototype.join]. *)
Fixpoint join (sep : string) (l : list string) : string :=
  match l with
  | [] => ""
  | [x] => x
  | x :: rest => x +:+ sep +:+ join sep rest
  end.

(** [s.startsWith(p)]. *)
Fixpoint startsWith (s p : string) {struct p} : bool :=
  match p, s with
  | EmptyString, _ => true
  | String _ _, EmptyString => false
  | String c p', String d s' => if decide (c = d) then startsWith s' p' else false
  end.

(** [s.includes(t)]: [t] occurs somewhere in [s]. *)
Fixpoint includes (s t : string) : bool :=
  startsWith s t ||
  match s with
  | EmptyString => false
  | String _ s' => includes s' t
  end.

(** Drop the first [n] characters: [s.slice(n)]. *)
Fixpoint drop (n : nat) (s : string) : string :=
  match n, s with
  | O, _ => s
  | S _, EmptyString => ""
  | S n', String _ s' => drop n' s'
  end.

(** Keep the first [n] characters: [s.slice(0, n)]. *)
Fixpoint take (n : nat) (s : string) : string :=
  match n, s with
  | O, _ => ""
  | S _, EmptyString => ""
  | S n', String c s' => String c (take n' s')
  end.

(** [n] copies of the character [c]. *)
Fixpoint replicate (n : nat) (c : ascii) : string :=
  match n with
  | O => ""
  | S n' => String c (replicate n' c)
  end.

(** [s.padStart(width, "0")] with a one-character filler. *)
Definition padStart (width : nat) (fill : ascii) (s : string) : string :=
  replicate (width - String.length s) fill +:+ s.

Definition isDigit (c : ascii) : bool :=
  let n := nat_of_ascii c in (48 <=? n)%nat && (n <=? 57)%nat.

Definition digitValue (c : ascii) : Z := Z.of_nat (nat_of_ascii c) - 48.

Fixpoint allDigits (s : string) : bool :=
  match s with
  | EmptyString => true
  | String c s' => isDigit c && allDigits s'
  end.

(** The digits read so far are worth [acc]; stop at the first character
    that is not a decimal digit. *)
Fixpoint parseDigits (acc : Z) (s : string) : Z :=
  match s with
  | EmptyString => acc
  | String c s' => if isDigit c then parseDigits (acc * 10 + digitValue c) s' else acc
  end.

(** [parseInt(s, 10)] on a text that starts with a digit; [None] is NaN.
    The only call site passes three digits captured by a regular
    expression, so the skipping of blanks and of a sign is not modelled. *)
Definition parseInt (s : string) : option Z :=
  match s with
  | String c _ => if isDigit c then Some (parseDigits 0 s) else None
  | EmptyString => None
  end.

(** *** Doubles *)

(** The integer nearest to [n / d], for [0 ≤ n] and [0 < d]; of two
    nearest integers the even one. *)
Definition roundHalfEven (n d : Z) : Z :=
  let f := n / d in
  match 2 * (n mod d) ?= d with
  | Lt => f
  | Gt => f + 1
  | Eq => if Z.even f then f else f + 1
  end.

(** The integer part of the binary logarithm of [n / d], for [0 < n] and
    [0 < d]. *)
Definition floorLog2 (n d : Z) : Z :=
  let l := Z.log2 n - Z.log2 d in
  let below := if 0 <=? l then n <? d * 2 ^ l else n * 2 ^ (- l) <? d in
  if below then l - 1 else l.

(** The double nearest to a rational, ties to even: the rounding of
    IEEE 754 binary64, with its subnormals.  [None] is the infinity of
    the sign of the rational.  A double is its own nearest double. *)
Definition roundToDouble (q : Q) : option Q :=
  if Qnum q =? 0 then Some 0%Q
  else
    let n := Z.abs (Qnum q) in
    let d := Z.pos (Qden q) in
    let e := Z.max (floorLog2 n d - 52) (- 1074) in
    let m := if 0 <=? e then roundHalfEven n (d * 2 ^ e)
             else roundHalfEven (n * 2 ^ (- e)) d in
    if (0 <=? e) && (2 ^ 1024 <=? m * 2 ^ e) then None
    else
      let magnitude := if 0 <=? e then inject_Z (m * 2 ^ e)
                       else Qred (m # Z.to_pos (2 ^ (- e))) in
      Some (if Qnum q <? 0 then Qopp magnitude else magnitude).

(** [Math.round] on a double: halves go up. *)
Definition mathRound (x : Q) : Z := Qfloor (x + (1 # 2)).

(** The text without the zeros at its head. *)
Fixpoint stripZeros (reversed : string) : string :=
  match reversed with
  | String "0" rest => stripZeros rest
  | _ => reversed
  end.

(** The characters of [s] in reverse order, put before [acc]. *)
Fixpoint reverse (acc s : string) : string :=
  match s with
  | EmptyString => acc
  | String c s' => reverse (String c acc) s'
  end.

(** The decimal with the fewest digits that reads back as the double [v],
    for an integer [v] of [digits] digits: with [k] digits, the two
    multiples of [10 ^ (digits - k)] around [v] are tried, and of two that
    read back as [v] the nearer one is taken, the even one when they are as
    near.  Seventeen digits always suffice. *)
Fixpoint shortestDecimal (fuel : nat) (k digits v : Z) : Z :=
  match fuel with
  | O => v
  | S fuel' =>
    let p := 10 ^ (digits - k) in
    let s := v / p in
    let lo := s * p in
    let hi := lo + p in
    let reads c :=
      match roundToDouble (inject_Z c) with
      | Some x => Qeq_bool x (inject_Z v)
      | None => false
      end in
    match reads lo, reads hi with
    | true, true =>
      match v - lo ?= hi - v with
      | Lt => lo
      | Gt => hi
      | Eq => if Z.even s then lo else hi
      end
    | true, false => lo
    | false, true => hi
    | false, false => shortestDecimal fuel' (k + 1) digits v
    end
  end.

(** [Number.prototype.toString] on a double that is an integer: the
    decimal numeral below [10 ^ 21]; from there on the shortest digits, a
    point after the first one when there are more, and the exponent. *)
Definition integerToString (n : Z) : string :=
  if Z.abs n <? 10 ^ 21 then toString n
  else
    let v := Z.abs n in
    let digits := Z.of_nat (String.length (toString v)) in
    let text := toString (shortestDecimal 17 1 digits v) in
    let exponent := Z.of_nat (String.length text) - 1 in
    let significant := reverse "" (stripZeros (reverse "" text)) in
    let mantissa :=
      match significant with
      | String first EmptyString => significant
      | String first rest => String first (String "." rest)
      | EmptyString => significant
      end in
    (if n <? 0 then "-" else "") +:+ mantissa +:+ "e+" +:+ toString exponent.

(** The number of places of [s] where [t] starts. *)
Fixpoint occurrences (s t : string) : nat :=
  (if startsWith s t then 1 else 0) +
  match s with
  | EmptyString => 0
  | String _ s' => occurrences s' t
  end.

(** A stable sort, as [Array.prototype.sort] is; [before a b] says that the
    comparator's value on [(a, b)] is not positive, so that [a] may stay in
    front of [b].  A stable sort of a list under a consistent comparator has
    one possible result, whatever the engine's algorithm. *)
Section Sort.
Context {A : Type} (before : A → A → bool).

Fixpoint insertSorted (x : A) (l : list A) : list A :=
  match l with
  | [] => [x]
  | y :: l' => if before x y then x :: y :: l' else y :: insertSorted x l'
  end.

Fixpoint sort (l : list A) : list A :=
  match l with
  | [] => []
  | x :: l' => insertSorted x (sort l')
  end.
End Sort.

End Js.

(** ** Types shared by the modules ([types.ts]) *)

(** [NoteIndex]: the metadata kept for one note. *)
Record NoteIndex := {
  ni_path : string;
  ni_title : string;
  ni_keywords : list string;
  ni_project : option string;
  ni_type : option string
}.

(** [RelatedNote]: one result of a related-note search. *)
Record RelatedNote := {
  rn_note : NoteIndex;
  rn_relevance : Q;
  rn_matchedKeywords : list string;
  rn_reason : string;
  rn_connectionType : string
}.

(** The value the gateway's [findRelatedNotes] resolves to, at its declared
    type: [{ index; relevance; reason?; type? }]. *)
Record AiResult := {
  ai_index : Q;
  ai_relevance : Q;
  ai_reason : option string;
  ai_type : option string
}.

(** The settings the engine reads; [DEFAULT_SETTINGS] gives their defaults. *)
Record ZeroFrictionSettings := {
  zettelFolder : string;
  zkIdType : string;
  zkMergeThreshold : Q
}.

Definition DEFAULT_SETTINGS : ZeroFrictionSettings := {|
  zettelFolder := "10 Zettelkasten";
  zkIdType := "date-sequence";
  zkMergeThreshold := 8 # 10
|}.

(** ** The related-note finder ([RelatedNoteFinder]) *)

Module Finder.

(** [this.index]: a [Map] from path to record, in insertion order. *)
Abbreviation Index := (list (string * NoteIndex)).

(** [getZettelIndex]: the Zettel notes, in the order of the index. *)
Definition getZettelIndex (index : Index) : Index :=
  filter (λ e, ni_type e.2 = Some "zettel") index.

(** [new Set(xs)]: the distinct elements, each at its first occurrence. *)
Fixpoint newSet (xs : list string) : list string :=
  match xs with
  | [] => []
  | x :: rest => x :: filter (λ y, y ≠ x) (newSet rest)
  end.

(** The test of the inner loop, on a lowered note keyword and one search
    keyword. *)
Definition keywordMatches (lowerKeyword searchKeyword : string) : bool :=
  bool_decide (lowerKeyword = searchKeyword)
  || Js.includes lowerKeyword searchKeyword
  || Js.includes searchKeyword lowerKeyword.

(** [String.prototype.toLowerCase] maps every cased letter of Unicode,
    by a table and rules that are not part of the source: the prefilter
    takes it as a parameter, and nothing is assumed of it. *)
Section CaseMapping.
Context (toLowerCase : string → string).

(** The inner loop with its [break]: does some search keyword match? *)
Definition matchesSome (keywordSet : list string) (noteKeyword : string) : bool :=
  existsb (keywordMatches (toLowerCase noteKeyword)) keywordSet.

Record Candidate := {
  cand_note : NoteIndex;
  cand_matchedKeywords : list string
}.

(** [excludePath && path === excludePath]: an absent or empty
    [excludePath] excludes nothing. *)
Definition isExcluded (excludePath : option string) (path : string) : bool :=
  match excludePath with
  | Some p => negb (bool_decide (p = "")) && bool_decide (path = p)
  | None => false
  end.

(** The [for ... of] loop over the index, pushing candidates. *)
Fixpoint collectCandidates (keywordSet : list string) (excludePath : option string)
    (index : Index) : list Candidate :=
  match index with
  | [] => []
  | (path, note) :: rest =>
    let more := collectCandidates keywordSet excludePath rest in
    if isExcluded excludePath path then more
    else if bool_decide (ni_keywords note = []) then more
    else
      let matchedKeywords := List.filter (matchesSome keywordSet) (ni_keywords note) in
      if bool_decide (matchedKeywords = []) then more
      else {| cand_note := note; cand_matchedKeywords := matchedKeywords |} :: more
  end.

(** The comparator [(a, b) => b.matchedKeywords.length -
    a.matchedKeywords.length] is not positive. *)
Definition moreMatchesFirst (a b : Candidate) : bool :=
  Z.of_nat (length (cand_matchedKeywords b))
  - Z.of_nat (length (cand_matchedKeywords a)) <=? 0.

Definition filterZettelsByKeywords (keywords : list string) (zettelIndex : Index)
    (excludePath : option string) : list Candidate :=
  let keywordSet := newSet (map toLowerCase keywords) in
  let candidates := collectCandidates keywordSet excludePath zettelIndex in
  take 10 (Js.sort moreMatchesFirst candidates).

(** [filterByKeywords] has the same body, over the whole index. *)
Definition filterByKeywords (index : Index) (keywords : list string)
    (excludePath : option string) : list Candidate :=
  let keywordSet := newSet (map toLowerCase keywords) in
  let candidates := collectCandidates keywordSet excludePath index in
  take 10 (Js.sort moreMatchesFirst candidates).

(** [candidates[i]] for a number [i]: an element when [i] is an integer in
    range, [undefined] (here [None]) otherwise. *)
Definition arrayGet {A} (l : list A) (i : Q) : option A :=
  let r := Qred i in
  if (Qden r =? 1)%positive && (0 <=? Qnum r) then l !! Z.to_nat (Qnum r) else None.

Definition inRange (n : nat) (i : Q) : bool :=
  Qle_bool 0 i && negb (Qle_bool (inject_Z (Z.of_nat n)) i).

(** [x || ""] on an optional text. *)
Definition orEmpty (x : option string) : string :=
  match x with
  | Some s => s
  | None => ""
  end.

(** The loop that turns the gateway's entries into [RelatedNote]s.  [None]
    is the [TypeError] raised by [candidate.note] when [candidates[i]] is
    [undefined], which needs an index in range that is not an integer. *)
Fixpoint mapAiResults (candidates : list Candidate) (aiResults : list AiResult)
  : option (list RelatedNote) :=
  match aiResults with
  | [] => Some []
  | result :: rest =>
    if inRange (length candidates) (ai_index result) then
      match arrayGet candidates (ai_index result) with
      | Some candidate =>
        match mapAiResults candidates rest with
        | Some results =>
          Some ({| rn_note := cand_note candidate;
                   rn_relevance := ai_relevance result;
                   rn_matchedKeywords := cand_matchedKeywords candidate;
                   rn_reason := orEmpty (ai_reason result);
                   rn_connectionType := orEmpty (ai_type result) |} :: results)
        | None => None
        end
      | None => None
      end
    else mapAiResults candidates rest
  end.

(** [findRelatedZettels]; [aiResults] is what the awaited gateway call
    returns for the candidates (it is not made on the early returns). *)
Definition findRelatedZettels (index : Index) (keywords : list string)
    (excludePath : option string) (aiResults : list AiResult)
  : option (list RelatedNote) :=
  if bool_decide (keywords = []) then Some []
  else
    let zettelIndex := getZettelIndex index in
    if bool_decide (zettelIndex = []) then Some []
    else
      let candidates := filterZettelsByKeywords keywords zettelIndex excludePath in
      if bool_decide (candidates = []) then Some []
      else mapAiResults candidates aiResults.

(** [findRelated]; [keywords] is what the awaited [extractKeywords] call
    returns for the content. *)
Definition findRelated (index : Index) (keywords : list string)
    (excludePath : option string) (aiResults : list AiResult)
  : option (list RelatedNote) :=
  if bool_decide (keywords = []) then Some []
  else
    let candidates := filterByKeywords index keywords excludePath in
    if bool_decide (candidates = []) then Some []
    else mapAiResults candidates aiResults.

End CaseMapping.

End Finder.

(** ** The identifier allocator (plugin class) *)

Module Allocator.

(** The two counters of the plugin object. *)
Record Counters := {
  zkDailyCounter : gmap string Z;
  zkLuhmannCounter : Z
}.

(** Their values when the plugin object is made. *)
Definition initialCounters : Counters :=
  {| zkDailyCounter := ∅; zkLuhmannCounter := 0 |}.

(** One reading of the clock: [Date.now()] and [new Date().toISOString()]. *)
Record Clock := {
  now : Z;
  isoString : string
}.

Fixpoint hasSlash (s : string) : bool :=
  match s with
  | EmptyString => false
  | String c s' => bool_decide (c = "/"%char) || hasSlash s'
  end.

(** [path.split("/").pop() || ""]: the text after the last slash. *)
Fixpoint fileNameOf (path : string) : string :=
  match path with
  | EmptyString => ""
  | String c s' => if hasSlash path then fileNameOf s' else path
  end.

(** [fileName.match(/^(\d{8})-(\d{3})/)]: the two captures. *)
Definition dateSeqMatch (fileName : string) : option (string * string) :=
  let date := Js.take 8 fileName in
  if (String.length date =? 8)%nat && Js.allDigits date then
    match Js.drop 8 fileName with
    | String "-" rest =>
      let seq := Js.take 3 rest in
      if (String.length seq =? 3)%nat && Js.allDigits seq then Some (date, seq)
      else None
    | _ => None
    end
  else None.

(** [this.zkDailyCounter.get(date) || 0]. *)
Definition dailyCount (counters : Counters) (date : string) : Z :=
  default 0 (zkDailyCounter counters !! date).

(** The body of the loop of [initializeZKCounters] for one path of the
    Zettel index, whose size is [size]. *)
Definition seedFromPath (size : Z) (counters : Counters) (path : string) : Counters :=
  let fileName := fileNameOf path in
  let daily :=
    match dateSeqMatch fileName with
    | Some (date, digits) =>
      match Js.parseInt digits with
      | Some seq =>
        if dailyCount counters date <? seq
        then <[date := seq]> (zkDailyCounter counters)
        else zkDailyCounter counters
      | None => zkDailyCounter counters
      end
    | None => zkDailyCounter counters
    end in
  {| zkDailyCounter := daily;
     zkLuhmannCounter := Z.max (zkLuhmannCounter counters) size |}.

Definition initializeZKCounters (index : Finder.Index) (counters : Counters) : Counters :=
  let zettelIndex := Finder.getZettelIndex index in
  foldl (seedFromPath (Z.of_nat (length zettelIndex))) counters (map fst zettelIndex).

(** [s.replace(/-/g, "")]. *)
Fixpoint removeDashes (s : string) : string :=
  match s with
  | EmptyString => ""
  | String c s' => if bool_decide (c = "-"%char) then removeDashes s' else String c (removeDashes s')
  end.

(** [new Date().toISOString().slice(0, 10).replace(/-/g, "")]. *)
Definition today (clock : Clock) : string := removeDashes (Js.take 10 (isoString clock)).

(** The loop of [toLuhmannId]; [result.push(x)] appends, and the fuel
    bounds the number of iterations ([remaining] decreases at each one). *)
Fixpoint luhmannLoop (fuel : nat) (remaining level : Z) (result : list string)
  : list string :=
  match fuel with
  | O => result
  | S fuel' =>
    if 0 <? remaining then
      if level mod 2 =? 0 then
        let digit := (remaining - 1) mod 9 + 1 in
        luhmannLoop fuel' ((remaining - 1) / 9) (level + 1)
          (result ++ [Js.toString digit])
      else
        let charIndex := (remaining - 1) mod 26 in
        luhmannLoop fuel' ((remaining - 1) / 26) (level + 1)
          (result ++ [Js.fromCharCode (97 + charIndex)])
    else result
  end.

Definition toLuhmannId (num : Z) : string :=
  if num <=? 0 then "1"
  else Js.join "" (rev (luhmannLoop (Z.to_nat num) num 0 [])).

(** [generateZKId]: the identifier and the counters after the call. *)
Definition generateZKId (settings : ZeroFrictionSettings) (clock : Clock)
    (counters : Counters) : string * Counters :=
  let idType := zkIdType settings in
  if bool_decide (idType = "timestamp") then (Js.toString (now clock), counters)
  else if bool_decide (idType = "date-sequence") then
    let today := today clock in
    let count := dailyCount counters today + 1 in
    (today +:+ "-" +:+ Js.padStart 3 "0" (Js.toString count),
     {| zkDailyCounter := <[today := count]> (zkDailyCounter counters);
        zkLuhmannCounter := zkLuhmannCounter counters |})
  else if bool_decide (idType = "luhmann") then
    let counter := zkLuhmannCounter counters + 1 in
    (toLuhmannId counter,
     {| zkDailyCounter := zkDailyCounter counters; zkLuhmannCounter := counter |})
  else (Js.toString (now clock), counters).

(** The file name given to a new Zettel by [createZKNotes] is
    [`${zkId} ${sanitizedTitle}.md`], and no scheme puts a space in an
    identifier: the identifier of a Zettel file is the text before the
    first space of its name. *)
Fixpoint beforeSpace (s : string) : string :=
  match s with
  | EmptyString => ""
  | String c s' => if bool_decide (c = " "%char) then "" else String c (beforeSpace s')
  end.

(** The identifiers present in the index for Zettel-kind notes. *)
Definition zettelIds (index : Finder.Index) : list string :=
  map (λ e, beforeSpace (fileNameOf e.1)) (Finder.getZettelIndex index).

End Allocator.

(** ** The classifier gateway's response parsers ([GeminiClient]) *)

Module Gateway.

(** A value produced by [JSON.parse]; the fields of an object are listed
    with each name once. *)
#[warnings="-register-all"]
Inductive json :=
| JNull
| JBool (b : bool)
| JNum (q : Q)
| JStr (s : string)
| JArr (items : list json)
| JObj (fields : list (string * json)).

(** A JavaScript value read off such data: [None] is [undefined]. *)
Abbreviation jsval := (option json).

(** What [text.match(...)] followed by [JSON.parse] comes to. *)
Inductive Parsed :=
| NoJson                (* the pattern does not match the text *)
| BadJson               (* [JSON.parse] throws *)
| Json (value : json).

Fixpoint lookupField (name : string) (fields : list (string * json)) : jsval :=
  match fields with
  | [] => None
  | (k, v) :: rest => if decide (k = name) then Some v else lookupField name rest
  end.

(** [item.name].  Reading a property of [null] raises a [TypeError], here
    the outer [None]; a property of these names read off a number, a text,
    a boolean or an array is [undefined]. *)
Definition getProp (item : json) (name : string) : option jsval :=
  match item with
  | JNull => None
  | JObj fields => Some (lookupField name fields)
  | _ => Some None
  end.

Definition isObject (item : json) : bool :=
  match item with
  | JNull | JArr _ | JObj _ => true
  | _ => false
  end.

(** Truthiness; a number read by [JSON.parse] is never NaN. *)
Definition truthy (v : jsval) : bool :=
  match v with
  | None | Some JNull => false
  | Some (JBool b) => b
  | Some (JNum q) => negb (Qeq_bool q 0)
  | Some (JStr s) => negb (bool_decide (s = ""))
  | Some (JArr _) | Some (JObj _) => true
  end.

(** [a || b]. *)
Definition orElse (a b : jsval) : jsval := if truthy a then a else b.

(** [a ?? b]. *)
Definition nullish (a b : jsval) : jsval :=
  match a with
  | None | Some JNull => b
  | _ => a
  end.

(** An entry that passed the type guard of [parseRelatedNotesResponse]. *)
Record Scored := {
  sc_index : Q;
  sc_relevance : Q;
  sc_reason : jsval;
  sc_type : jsval
}.

(** The first [filter], with its type guard: entries that are objects with
    a numeric [index] and a numeric [relevance]; [None] when the guard
    raises. *)
Fixpoint keepScored (items : list json) : option (list Scored) :=
  match items with
  | [] => Some []
  | item :: rest =>
    if isObject item then
      match getProp item "index", getProp item "relevance",
            getProp item "reason", getProp item "type" with
      | Some i, Some r, Some reason, Some ty =>
        match keepScored rest with
        | Some kept =>
          match i, r with
          | Some (JNum index), Some (JNum relevance) =>
            Some ({| sc_index := index; sc_relevance := relevance;
                     sc_reason := reason; sc_type := ty |} :: kept)
          | _, _ => Some kept
          end
        | None => None
        end
      | _, _, _, _ => None
      end
    else keepScored rest
  end.

(** The comparator [(a, b) => b.relevance - a.relevance] is not positive. *)
Definition higherFirst (a b : Scored) : bool :=
  Qle_bool (sc_relevance b - sc_relevance a) 0.

(** The last [map]: [reason] and [type] default to the empty text. *)
Definition withDefaults (item : Scored) : Scored :=
  {| sc_index := sc_index item;
     sc_relevance := sc_relevance item;
     sc_reason := orElse (sc_reason item) (Some (JStr ""));
     sc_type := orElse (sc_type item) (Some (JStr "")) |}.

Definition parseRelatedNotesResponse (response : Parsed) : list Scored :=
  match response with
  | NoJson => []
  | BadJson => []
  | Json (JArr items) =>
    match keepScored items with
    | Some scored =>
      map withDefaults
        (take 5
           (Js.sort higherFirst
              (List.filter (λ item, Qle_bool (1 # 2) (sc_relevance item)) scored)))
    | None => []
    end
  | Json _ => []
  end.

(** [validateTargetType]. *)
Definition validTypes : list string := ["project"; "library"; "archive"].

Definition validateTargetType (targetType : jsval) : string :=
  match targetType with
  | Some (JStr s) => if bool_decide (s ∈ validTypes) then s else "library"
  | _ => "library"
  end.

Record ClassifyResult := {
  cr_targetType : string;
  cr_projectName : jsval;
  cr_isNewProject : jsval;
  cr_title : jsval;
  cr_summary : jsval;
  cr_nextAction : jsval
}.

(** [parseProjectResponse]; [None] is the [Error] it throws.  A value that
    is not an object cannot come out of a text matched by [/\{[\s\S]*\}/],
    but is treated as the code would treat it. *)
Definition parseProjectResponse (response : Parsed) : option ClassifyResult :=
  match response with
  | NoJson => None
  | BadJson => None
  | Json parsed =>
    match getProp parsed "targetType", getProp parsed "projectName",
          getProp parsed "isNewProject", getProp parsed "title",
          getProp parsed "summary", getProp parsed "nextAction" with
    | Some targetType, Some projectName, Some isNewProject,
      Some title, Some summary, Some nextAction =>
      Some {| cr_targetType := validateTargetType targetType;
              cr_projectName := orElse projectName None;
              cr_isNewProject := nullish isNewProject (Some (JBool false));
              cr_title := orElse title (Some (JStr "Untitled"));
              cr_summary := orElse summary (Some (JStr ""));
              cr_nextAction := orElse nextAction (Some JNull) |}
    | _, _, _, _, _, _ => None
    end
  end.

(** [classifyProject] resolves to the parse of the model's answer. *)
Definition classifyProject (response : Parsed) : option ClassifyResult :=
  parseProjectResponse response.

Record SplitSection := {
  ss_title : jsval;
  ss_content : jsval;
  ss_targetType : string;
  ss_project : jsval;
  ss_isNewProject : jsval;
  ss_keywords : list json;
  ss_isAtomic : jsval
}.

(** The callback of [parsed.map] in [parseSplitResponse]; [None] when it
    raises. *)
Definition toSplitSection (item : json) : option SplitSection :=
  match getProp item "title", getProp item "content", getProp item "targetType",
        getProp item "projectName", getProp item "isNewProject",
        getProp item "keywords", getProp item "isAtomic" with
  | Some title, Some content, Some targetType, Some projectName,
    Some isNewProject, Some keywords, Some isAtomic =>
    Some {| ss_title := orElse title (Some (JStr "Untitled"));
            ss_content := orElse content (Some (JStr ""));
            ss_targetType := validateTargetType targetType;
            ss_project := orElse projectName None;
            ss_isNewProject := nullish isNewProject (Some (JBool false));
            ss_keywords := match keywords with Some (JArr ks) => ks | _ => [] end;
            ss_isAtomic := nullish isAtomic (Some (JBool false)) |}
  | _, _, _, _, _, _, _ => None
  end.

Fixpoint mapSplit (items : list json) : option (list SplitSection) :=
  match items with
  | [] => Some []
  | item :: rest =>
    match toSplitSection item, mapSplit rest with
    | Some section, Some sections => Some (section :: sections)
    | _, _ => None
    end
  end.

Definition parseSplitResponse (response : Parsed) : list SplitSection :=
  match response with
  | NoJson => []
  | BadJson => []
  | Json (JArr items) =>
    match mapSplit items with
    | Some sections => sections
    | None => []
    end
  | Json _ => []
  end.

(** [splitContent] resolves to the parse of the model's answer. *)
Definition splitContent (response : Parsed) : list SplitSection :=
  parseSplitResponse response.

End Gateway.

(** ** The merge and link engine (plugin class) *)

Module Engine.

Import Js.

(** An Obsidian [TFile]: its path and its name without the extension. *)
Record TFile := {
  path : string;
  basename : string
}.

(** The document store: the text of each file, by path. *)
Abbreviation Vault := (gmap string string).

Record ZKCandidate := {
  title : string;
  body : string;
  keywords : list string;
  importance : option string;
  relatedConcepts : option (list string)
}.

(** The text of a new Zettel, as the template of [createZKNotes] lays it
    out; [created] is [new Date().toISOString()]. *)
Definition zkNoteContent (sourceBasename created : string) (candidate : ZKCandidate)
  : string :=
  "---" +:+ nl +:+
  "type: zettel" +:+ nl +:+
  "source: " +:+ String (ascii_of_nat 34) "" +:+ "[[" +:+ sourceBasename +:+ "]]"
    +:+ String (ascii_of_nat 34) "" +:+ nl +:+
  "keywords: [" +:+ join ", " (keywords candidate) +:+ "]" +:+ nl +:+
  "created: " +:+ created +:+ nl +:+
  "---" +:+ nl +:+
  nl +:+
  "# " +:+ title candidate +:+ nl +:+
  nl +:+
  "## 핵심 아이디어" +:+ nl +:+
  body candidate +:+ nl +:+
  nl +:+
  "## 왜 중요한가?" +:+ nl +:+
  Finder.orEmpty (importance candidate) +:+ nl +:+
  nl +:+
  "## 맥락" +:+ nl +:+
  "- **원본**: [[" +:+ sourceBasename +:+ "]]" +:+ nl +:+
  "- **관련 개념**: " +:+
    match relatedConcepts candidate with
    | Some concepts => join ", " concepts
    | None => ""
    end +:+ nl +:+
  nl +:+
  "---" +:+ nl +:+
  "## 연결된 노트" +:+ nl +:+
  "- [[" +:+ sourceBasename +:+ "]] (원본)" +:+ nl.

(** *** The pattern [/(---\n## 연결된 노트\n[\s\S]*?)(\n---|\n*$)/] *)

(** The fixed text the first group starts with. *)
Definition sectionHeader : string := "---" +:+ nl +:+ "## 연결된 노트" +:+ nl.

(** The first alternative of the second group. *)
Definition sectionEnd : string := nl +:+ "---".

Fixpoint allNewlines (s : string) : bool :=
  match s with
  | EmptyString => true
  | String c s' => bool_decide (c = ascii_of_nat 10) && allNewlines s'
  end.

(** One match: the text before it, the two groups, the text after it. *)
Record Match := {
  m_before : string;
  m_group1 : string;
  m_group2 : string;
  m_after : string
}.

(** After the header, [[\s\S]*?] takes as few characters as possible
    before the second group matches: either [sectionEnd] comes next, or
    only line feeds are left up to the end of the text.  The result is the
    text taken, the second group and the text after the match. *)
Fixpoint lazyBody (rest : string) : string * string * string :=
  if startsWith rest sectionEnd then ("", sectionEnd, drop (String.length sectionEnd) rest)
  else if allNewlines rest then ("", rest, "")
  else
    match rest with
    | EmptyString => ("", "", "")
    | String c rest' =>
      let '(taken, group2, after) := lazyBody rest' in (String c taken, group2, after)
    end.

(** The leftmost match: the pattern matches at a position exactly when the
    header is there, since the lazy part can always run to the end of the
    text. *)
Fixpoint matchLinkedSection (content : string) : option Match :=
  if startsWith content sectionHeader then
    let '(taken, group2, after) := lazyBody (drop (String.length sectionHeader) content) in
    Some {| m_before := ""; m_group1 := sectionHeader +:+ taken;
            m_group2 := group2; m_after := after |}
  else
    match content with
    | EmptyString => None
    | String c content' =>
      match matchLinkedSection content' with
      | Some m =>
        Some {| m_before := String c (m_before m); m_group1 := m_group1 m;
                m_group2 := m_group2 m; m_after := m_after m |}
      | None => None
      end
    end.

(** The [n]th capture, for [n] from 1; the pattern has two groups and both
    take part in every match. *)
Definition capture (m : Match) (n : Z) : string :=
  if n =? 1 then m_group1 m else m_group2 m.

Definition captureCount : Z := 2.

(** The replacement text of [String.prototype.replace] for a replacement
    given as a string (ECMAScript [GetSubstitution]): [$$], [$&], [$`],
    [$'], [$n] and [$nn] are patterns, any other [$] stands for itself.
    The pattern has no named group, so [$<] is not a pattern. *)
Fixpoint getSubstitution (m : Match) (template : string) : string :=
  match template with
  | EmptyString => ""
  | String c rest =>
    if bool_decide (c = "$"%char) then
      match rest with
      | EmptyString => "$"
      | String d rest' =>
        if bool_decide (d = "$"%char) then "$" +:+ getSubstitution m rest'
        else if bool_decide (d = "&"%char) then
          (m_group1 m +:+ m_group2 m) +:+ getSubstitution m rest'
        else if bool_decide (d = "`"%char) then m_before m +:+ getSubstitution m rest'
        else if bool_decide (d = "'"%char) then m_after m +:+ getSubstitution m rest'
        else if isDigit d then
          let oneDigit :=
            if (1 <=? digitValue d) && (digitValue d <=? captureCount)
            then capture m (digitValue d) +:+ getSubstitution m rest'
            else String c (String d (getSubstitution m rest')) in
          match rest' with
          | EmptyString => oneDigit
          | String e rest'' =>
            let index := 10 * digitValue d + digitValue e in
            if isDigit e && (index <=? captureCount) then
              if 1 <=? index then capture m index +:+ getSubstitution m rest''
              else String c (String d (String e (getSubstitution m rest'')))
            else oneDigit
          end
        else String c (getSubstitution m rest)
      end
    else String c (getSubstitution m rest)
  end.

(** [content.replace(linkedSectionRegex, template)]: the first match is
    replaced; without a match the text is returned as it is. *)
Definition replaceLinkedSection (content template : string) : string :=
  match matchLinkedSection content with
  | Some m => m_before m +:+ getSubstitution m template +:+ m_after m
  | None => content
  end.

(** [s.endsWith(t)]. *)
Definition endsWith (s t : string) : bool :=
  bool_decide (drop (String.length s - String.length t) s = t)
  && (String.length t <=? String.length s)%nat.

(** [fileName.replace(/\.md$/, "")]. *)
Definition stripMd (fileName : string) : string :=
  if endsWith fileName ".md" then take (String.length fileName - 3) fileName
  else fileName.

(** [`${Math.round(relevance * 100)}`], the figure printed in a link: the
    product is the product of doubles, rounded to a double, or an infinity
    when it is too large for one. *)
Definition percent (relevance : Q) : string :=
  let infinity := if Qnum relevance <? 0 then "-Infinity" else "Infinity" in
  match roundToDouble relevance with
  | Some x =>
    match roundToDouble (x * 100) with
    | Some product => integerToString (mathRound product)
    | None => infinity
    end
  | None => infinity
  end.

(** The second line of a link, present when the reason is not empty. *)
Definition reasonLine (reason : string) : string :=
  if bool_decide (reason = "") then "" else nl +:+ "  → " +:+ reason.

(** One line of [addZKRelatedLinks]: the link to a related note. *)
Definition relatedLink (r : RelatedNote) : string :=
  let linkName := stripMd (Allocator.fileNameOf (ni_path (rn_note r))) in
  "- [[" +:+ linkName +:+ "]] (" +:+ percent (rn_relevance r) +:+ "%)"
    +:+ reasonLine (rn_reason r).

(** The text after the insertion of [links] in the linked-notes section,
    or of a new section at the end when there is none. *)
Definition insertLinks (content links : string) : string :=
  match matchLinkedSection content with
  | Some _ => replaceLinkedSection content ("$1" +:+ nl +:+ links +:+ "$2")
  | None => content +:+ nl +:+ "---" +:+ nl +:+ "## 연결된 노트" +:+ nl +:+ links +:+ nl
  end.

(** [addZKRelatedLinks]; [None] when reading the file fails. *)
Definition addZKRelatedLinks (vault : Vault) (file : TFile)
    (relatedNotes : list RelatedNote) : option Vault :=
  if bool_decide (relatedNotes = []) then Some vault
  else
    match vault !! path file with
    | Some content =>
      let links := join nl (map relatedLink relatedNotes) in
      Some (<[path file := insertLinks content links]> vault)
    | None => None
    end.

(** The link to the new note that is put in a related note. *)
Definition backLink (newNote : TFile) (related : RelatedNote) : string :=
  "- [[" +:+ basename newNote +:+ "]] (" +:+ percent (rn_relevance related)
    +:+ "%)" +:+ reasonLine (rn_reason related).

(** The body of the loop of [addBacklinksToZettels] for one related note. *)
Definition addBacklink (newNote : TFile) (vault : Vault) (related : RelatedNote) : Vault :=
  match vault !! ni_path (rn_note related) with
  | None => vault
  | Some content =>
    if includes content ("[[" +:+ basename newNote +:+ "]]") then vault
    else <[ni_path (rn_note related) := insertLinks content (backLink newNote related)]> vault
  end.

Definition addBacklinksToZettels (vault : Vault) (newNote : TFile)
    (relatedNotes : list RelatedNote) : Vault :=
  foldl (addBacklink newNote) vault relatedNotes.

(** Step 4 of the create path: both link steps, run when the second search
    found something. *)
Definition linkNewZettel (vault : Vault) (newFile : TFile)
    (relatedZettels : list RelatedNote) : option Vault :=
  if bool_decide (relatedZettels = []) then Some vault
  else
    match addZKRelatedLinks vault newFile relatedZettels with
    | Some vault' => Some (addBacklinksToZettels vault' newFile relatedZettels)
    | None => None
    end.

(** *** The merge decision of [createZKNotes] *)

(** [similarNotes.find(n => n.relevance >= this.settings.zkMergeThreshold)]. *)
Definition highSimilarNote (settings : ZeroFrictionSettings)
    (similarNotes : list RelatedNote) : option RelatedNote :=
  List.find (λ n, Qle_bool (zkMergeThreshold settings) (rn_relevance n)) similarNotes.

(** What the loop does with one candidate before any file is written. *)
Inductive Decision :=
| MergeInto (target : RelatedNote)     (* modal shown, answered yes *)
| CreateAfterAsking (seen : RelatedNote) (* modal shown, answered no *)
| CreateDirectly.                      (* no modal *)

(** The head of the loop body; [answer] is what the confirmation modal
    resolves to when it is shown. *)
Definition decide_merge (settings : ZeroFrictionSettings)
    (similarNotes : list RelatedNote) (answer : RelatedNote → bool) : Decision :=
  match highSimilarNote settings similarNotes with
  | Some n => if answer n then MergeInto n else CreateAfterAsking n
  | None => CreateDirectly
  end.

(** The modal is shown. *)
Definition asksUser (d : Decision) : bool :=
  match d with
  | MergeInto _ | CreateAfterAsking _ => true
  | CreateDirectly => false
  end.

End Engine.

(** ** Keeping the finder's index ([buildIndex], [indexNote], [updateIndex],
    [removeFromIndex]) *)
Module IndexStore.

Import Finder Engine.

(** [Map.prototype.set]: the value of a key that is there is replaced in
    place, a new key goes to the end. *)
Fixpoint mapSet (key : string) (value : NoteIndex) (index : Index) : Index :=
  match index with
  | [] => [(key, value)]
  | (k, v) :: rest =>
    if decide (k = key) then (key, value) :: rest
    else (k, v) :: mapSet key value rest
  end.

(** [Map.prototype.delete]. *)
Definition mapDelete (key : string) (index : Index) : Index :=
  filter (λ e, e.1 ≠ key) index.

(** The [keywords] field of a front matter: a list, or one text. *)
Inductive KeywordsField :=
| KeywordList (keywords : list string)
| OneKeyword (keyword : string).

(** The fields of the front matter that [indexNote] reads into the fields
    of [NoteIndex] above, each absent or of the type the code gives it. *)
Record Frontmatter := {
  fm_keywords : option KeywordsField;
  fm_title : option string;
  fm_project : option string;
  fm_type : option string
}.

(** [indexNote]; [frontmatter] is [cache?.frontmatter], absent when the
    file has no cache entry or no front matter. *)
Definition indexNote (file : TFile) (frontmatter : option Frontmatter) : NoteIndex :=
  let keywords :=
    match frontmatter ≫= fm_keywords with
    | Some (KeywordList keywords) => keywords
    | Some (OneKeyword keyword) => if bool_decide (keyword = "") then [] else [keyword]
    | None => []
    end in
  let title :=
    match frontmatter ≫= fm_title with
    | Some title => if bool_decide (title = "") then basename file else title
    | None => basename file
    end in
  {| ni_path := path file;
     ni_title := title;
     ni_keywords := keywords;
     ni_project := frontmatter ≫= fm_project;
     ni_type := frontmatter ≫= fm_type |}.

(** [updateIndex]: [indexNote] never returns [null]. *)
Definition updateIndex (file : TFile) (frontmatter : option Frontmatter)
    (index : Index) : Index :=
  mapSet (path file) (indexNote file frontmatter) index.

Definition removeFromIndex (path : string) (index : Index) : Index :=
  mapDelete path index.

(** [buildIndex] over the Markdown files of the vault, each with its front
    matter. *)
Definition buildIndex (files : list (TFile * option Frontmatter)) : Index :=
  foldl (λ index entry, mapSet (path entry.1) (indexNote entry.1 entry.2) index)
    [] files.

End IndexStore.

(** ** The keywords of a merged note ([mergeToExistingZK]) *)
Module Merge.

(** [[...new Set([...existingKeywords, ...candidate.keywords])]] in
    [mergeToExistingZK]. *)
Definition mergedKeywords (existingKeywords candidateKeywords : list string)
  : list string :=
  Finder.newSet (existingKeywords ++ candidateKeywords).

End Merge.

(** ** Successive allocations ([createZKNotes]) *)
Module Session.

Import Allocator.

(** The identifiers of successive calls of [generateZKId], one for each
    reading of the clock, and the counters after the last call. *)
Fixpoint generateMany (settings : ZeroFrictionSettings) (clocks : list Clock)
    (counters : Counters) : list string * Counters :=
  match clocks with
  | [] => ([], counters)
  | clock :: later =>
    let '(id, counters') := generateZKId settings clock counters in
    let '(ids, final) := generateMany settings later counters' in
    (id :: ids, final)
  end.

End Session.

(** ** The client's retry loop ([GeminiClient], [api/gemini.ts]) *)
Module Client.

Import Js.

Definition DEFAULT_DELAY_MS : Q := 1000.
Definition MAX_RETRIES : Z := 3.
Definition INITIAL_BACKOFF_MS : Z := 2000.

(** What is thrown: an [Error] with its message, or any other value. *)
Inductive Thrown :=
| ErrorObject (message : string)
| OtherValue.

(** What an awaited call comes to. *)
Inductive Outcome (T : Type) :=
| Resolved (value : T)
| Rejected (error : Thrown).
Arguments Resolved {T} value.
Arguments Rejected {T} error.

(** The two fields of [GeminiClient] the loop reads and writes.  The delay
    is a double; from the default the code only reaches 1000, 1500, 2250,
    3375 and 5000, on which the product by 1.5 is exact. *)
Record GeminiClient := {
  lastRequestTime : Z;
  minDelayMs : Q
}.

(** What the client does, in order: a timer of so many milliseconds, or a
    call of the API. *)
Inductive Event :=
| Delay (ms : Q)
| ApiCall (attempt : Z).

(** [Math.min] on two numbers. *)
Definition mathMin (a b : Q) : Q := if Qle_bool a b then a else b.

(** [waitForRateLimit]; [now] and [later] are the two readings of
    [Date.now()]. *)
Definition waitForRateLimit (now later : Z) (client : GeminiClient)
  : list Event * GeminiClient :=
  let timeSinceLastRequest := now - lastRequestTime client in
  (if Qle_bool (minDelayMs client) (inject_Z timeSinceLastRequest) then []
   else [Delay (minDelayMs client - inject_Z timeSinceLastRequest)],
   {| lastRequestTime := later; minDelayMs := minDelayMs client |}).

Definition isRateLimitError (error : Thrown) : bool :=
  match error with
  | ErrorObject message =>
    includes message "429" || includes message "RESOURCE_EXHAUSTED"
    || includes message "quota"
  | OtherValue => false
  end.

(** [Math.min(this.minDelayMs * 1.5, 5000)]. *)
Definition raisedDelay (minDelay : Q) : Q := mathMin (minDelay * (3 # 2)) 5000.

(** The body of the [for] loop for the values of [attempt] still to come;
    [apiCall attempt] is what the call made in that round comes to.  When
    no value is left the loop is over and the last statement throws. *)
Fixpoint attemptLoop {T} (apiCall : Z → Outcome T) (retries : Z)
    (attempts : list Z) (minDelay : Q) : Outcome T * Q * list Event :=
  match attempts with
  | [] => (Rejected (ErrorObject "Max retries exceeded"), minDelay, [])
  | attempt :: later =>
    match apiCall attempt with
    | Resolved value => (Resolved value, minDelay, [ApiCall attempt])
    | Rejected error =>
      if isRateLimitError error && (attempt <? retries) then
        let backoffMs := INITIAL_BACKOFF_MS * 2 ^ attempt in
        let '(outcome, minDelay', events) :=
          attemptLoop apiCall retries later (raisedDelay minDelay) in
        (outcome, minDelay', ApiCall attempt :: Delay (inject_Z backoffMs) :: events)
      else (Rejected error, minDelay, [ApiCall attempt])
    end
  end.

(** [callWithRetry]: [attempt] runs from 0 to [retries]. *)
Definition callWithRetry {T} (now later : Z) (apiCall : Z → Outcome T)
    (retries : Z) (client : GeminiClient)
  : Outcome T * GeminiClient * list Event :=
  let '(waited, client') := waitForRateLimit now later client in
  let '(outcome, minDelay, events) :=
    attemptLoop apiCall retries (seqZ 0 (retries + 1)) (minDelayMs client') in
  (outcome,
   {| lastRequestTime := lastRequestTime client'; minDelayMs := minDelay |},
   waited ++ events).

End Client.

(** ** File names ([sanitizeFileName], in [main.ts] and in [core/moc.ts]) *)
Module Names.

(** A JavaScript string as its UTF-16 code units: the two patterns have no
    [u] flag and [slice] counts code units, so that this function is
    modelled on them and not on the bytes of the text. *)
Abbreviation Units := (list Z).

(** The class of the first pattern: backslash, slash, colon, star,
    question mark, double quote, the angle brackets, bar, question mark
    again, hash and the square brackets. *)
Definition forbidden : list Z :=
  [92; 47; 58; 42; 63; 34; 60; 62; 124; 63; 35; 91; 93].

Definition isForbidden (u : Z) : bool := bool_decide (u ∈ forbidden).

(** The class [\s], which is also what [trim] removes: the white space and
    the line ends of ECMAScript. *)
Definition isWhiteSpace (u : Z) : bool :=
  bool_decide (u ∈ [9; 10; 11; 12; 13; 32; 160; 5760; 8232; 8233; 8239; 8287;
                    12288; 65279])
  || ((8192 <=? u) && (u <=? 8202)).

Definition underscore : Z := 95.
Definition space : Z := 32.

(** The first [replace]: every unit of the class becomes an underscore. *)
Definition replaceForbidden (name : Units) : Units :=
  map (λ u, if isForbidden u then underscore else u) name.

(** The second [replace], of [/\s+/g] by a space: of a run of white space
    only a space for its last unit is left. *)
Fixpoint collapseWhiteSpace (name : Units) : Units :=
  match name with
  | [] => []
  | u :: rest =>
    if isWhiteSpace u then
      match rest with
      | v :: _ => if isWhiteSpace v then collapseWhiteSpace rest
                  else space :: collapseWhiteSpace rest
      | [] => [space]
      end
    else u :: collapseWhiteSpace rest
  end.

Fixpoint trimStart (name : Units) : Units :=
  match name with
  | [] => []
  | u :: rest => if isWhiteSpace u then trimStart rest else name
  end.

Fixpoint trimEnd (name : Units) : Units :=
  match name with
  | [] => []
  | u :: rest =>
    match trimEnd rest with
    | [] => if isWhiteSpace u then [] else [u]
    | kept => u :: kept
    end
  end.

(** [.trim()]. *)
Definition trim (name : Units) : Units := trimEnd (trimStart name).

(** [.slice(0, maxLength)]; a negative bound counts from the end. *)
Definition sliceFromStart (maxLength : Z) (name : Units) : Units :=
  if 0 <=? maxLength then take (Z.to_nat maxLength) name
  else take (length name - Z.to_nat (- maxLength)) name.

Definition sanitizeFileName (name : Units) (maxLength : Z) : Units :=
  sliceFromStart maxLength (trim (collapseWhiteSpace (replaceForbidden name))).

End Names.


(** ** Scenarios of the specification *)

Module Scenarios.

(** [toLowerCase] on a text of ASCII characters, which the keywords of the
    scenarios are: the letters A to Z are mapped to a to z and every other
    character of ASCII is kept. *)
Definition lowerAscii (c : ascii) : ascii :=
  let n := nat_of_ascii c in
  if (65 <=? n)%nat && (n <=? 90)%nat then ascii_of_nat (n + 32) else c.

Fixpoint toLowerCaseAscii (s : string) : string :=
  match s with
  | EmptyString => ""
  | String c s' => String (lowerAscii c) (toLowerCaseAscii s')
  end.

Definition zettelAt (path title : string) (keywords : list string)
  : string * NoteIndex :=
  (path, {| ni_path := path; ni_title := title; ni_keywords := keywords;
            ni_project := None; ni_type := Some "zettel" |}).

Definition plainAt (path title : string) (keywords : list string)
  : string * NoteIndex :=
  (path, {| ni_path := path; ni_title := title; ni_keywords := keywords;
            ni_project := None; ni_type := None |}).

(** An index with the Zettel notes 20260102-001 to 20260102-005, a Zettel
    of the day before and a note that is no Zettel. *)
Definition reseedIndex : Finder.Index := [
  zettelAt "10 Zettelkasten/20260102-003 Heat maps.md" "Heat maps" ["map"];
  plainAt "02 Library/20260102-009 Reading list.md" "Reading list" ["books"];
  zettelAt "10 Zettelkasten/20260102-001 Sensor drift.md" "Sensor drift" ["sensor"];
  zettelAt "10 Zettelkasten/20260101-007 Old idea.md" "Old idea" ["idea"];
  zettelAt "10 Zettelkasten/20260102-005 Cold start.md" "Cold start" ["start"];
  zettelAt "10 Zettelkasten/20260102-002 Calibration.md" "Calibration" ["sensor"];
  zettelAt "10 Zettelkasten/20260102-004 Sampling.md" "Sampling" ["rate"]
].

(** Ten in the morning (UTC) of 2 January 2026. *)
Definition morning : Allocator.Clock :=
  {| Allocator.now := 1767348000000;
     Allocator.isoString := "2026-01-02T10:00:00.000Z" |}.

Definition withScheme (scheme : string) : ZeroFrictionSettings :=
  {| zettelFolder := zettelFolder DEFAULT_SETTINGS;
     zkIdType := scheme;
     zkMergeThreshold := zkMergeThreshold DEFAULT_SETTINGS |}.

(** Three Zettel notes were made under the Luhmann scheme, named 1, 2 and
    3, and the second one was deleted since. *)
Definition gapIndex : Finder.Index := [
  zettelAt "10 Zettelkasten/1 Alpha.md" "Alpha" ["alpha"];
  zettelAt "10 Zettelkasten/3 Gamma.md" "Gamma" ["gamma"]
].

(** Three notes, two of which share the keyword sensor. *)
Definition sensorIndex : Finder.Index := [
  plainAt "02 Library/Thermometer.md" "Thermometer" ["sensor"; "heat"];
  plainAt "02 Library/Bread.md" "Bread" ["baking"];
  plainAt "02 Library/Lidar.md" "Lidar" ["Sensor"]
].

(** A candidate whose title holds a dollar sign followed by a digit, and
    the file the create path writes for it under the date-sequence scheme
    ([sanitizeFileName] keeps the dollar sign). *)
Definition dollarCandidate : Engine.ZKCandidate :=
  {| Engine.title := "The $1 bet";
     Engine.body := "A small stake buys attention.";
     Engine.keywords := ["incentive"];
     Engine.importance := Some "It explains commitment devices.";
     Engine.relatedConcepts := Some ["commitment"] |}.

Definition dollarNote : Engine.TFile :=
  {| Engine.path := "10 Zettelkasten/20260102-001 The $1 bet.md";
     Engine.basename := "20260102-001 The $1 bet" |}.

(** An older Zettel, found related to the new one by the second search. *)
Definition oldCandidate : Engine.ZKCandidate :=
  {| Engine.title := "Old idea";
     Engine.body := "Incentives shape habits.";
     Engine.keywords := ["incentive"];
     Engine.importance := None;
     Engine.relatedConcepts := None |}.

Definition oldIdea : NoteIndex :=
  {| ni_path := "10 Zettelkasten/20260101-007 Old idea.md";
     ni_title := "Old idea"; ni_keywords := ["incentive"];
     ni_project := None; ni_type := Some "zettel" |}.

Definition foundOldIdea : RelatedNote :=
  {| rn_note := oldIdea; rn_relevance := 85 # 100;
     rn_matchedKeywords := ["incentive"];
     rn_reason := "same topic"; rn_connectionType := "" |}.

(** The store once the new Zettel is written and before the link steps:
    both documents are as the template of [createZKNotes] lays them out. *)
Definition dollarVault : Engine.Vault :=
  <[Engine.path dollarNote :=
      Engine.zkNoteContent "Journal" "2026-01-02T10:00:00.000Z" dollarCandidate]>
    (<[ni_path oldIdea :=
         Engine.zkNoteContent "Journal" "2026-01-01T09:00:00.000Z" oldCandidate]> ∅).

(** The same new Zettel under a title without a dollar sign. *)
Definition plainCandidate : Engine.ZKCandidate :=
  {| Engine.title := "The small bet";
     Engine.body := "A small stake buys attention.";
     Engine.keywords := ["incentive"];
     Engine.importance := Some "It explains commitment devices.";
     Engine.relatedConcepts := Some ["commitment"] |}.

Definition plainNote : Engine.TFile :=
  {| Engine.path := "10 Zettelkasten/20260102-001 The small bet.md";
     Engine.basename := "20260102-001 The small bet" |}.

Definition plainVault : Engine.Vault :=
  <[Engine.path plainNote :=
      Engine.zkNoteContent "Journal" "2026-01-02T10:00:00.000Z" plainCandidate]>
    (<[ni_path oldIdea :=
         Engine.zkNoteContent "Journal" "2026-01-01T09:00:00.000Z" oldCandidate]> ∅).

End Scenarios.

(** ** The vocabulary of the statements *)

Module Statements.

Import Js Gateway Finder Allocator Engine.

(** Every entry kept by the type guard comes from an item whose [index]
    and [relevance] are numbers. *)
Definition fromNumbered (items : list json) (e : Scored) : Prop :=
  ∃ item, item ∈ items
    ∧ getProp item "index" = Some (Some (JNum (sc_index e)))
    ∧ getProp item "relevance" = Some (Some (JNum (sc_relevance e))).

(** One of the two texts occurs in the other. *)
Definition occursEitherWay (a b : string) : Prop :=
  (∃ x y, a = x +:+ b +:+ y) ∨ (∃ x y, b = x +:+ a +:+ y).

(** What is known of a candidate: its note is an entry of the index under a
    path other than the excluded one, the note has keywords, and the matched
    keywords are a non-empty choice of them, each matching a query keyword:
    one text occurs in the other once both are mapped by [toLowerCase]. *)
Definition goodCandidate (toLowerCase : string → string)
    (index : Index) (keywords : list string)
    (excludePath : option string) (c : Candidate) : Prop :=
  (∃ path, (path, cand_note c) ∈ index ∧ Some path ≠ excludePath)
  ∧ ni_keywords (cand_note c) ≠ []
  ∧ cand_matchedKeywords c ≠ []
  ∧ Forall (λ k, k ∈ ni_keywords (cand_note c)
                 ∧ ∃ q, q ∈ keywords
                        ∧ occursEitherWay (toLowerCase k) (toLowerCase q))
      (cand_matchedKeywords c).

(** No dash in the text. *)
Fixpoint dashFree (s : string) : bool :=
  match s with
  | EmptyString => true
  | String c s' => negb (bool_decide (c = "-"%char)) && dashFree s'
  end.

(** The claim of the specification on the allocator: after seeding from
    the index, an identifier returned under any of the three schemes is not
    among the identifiers of the Zettel notes of the index. *)
Definition neverReissues : Prop :=
  ∀ (scheme : string) (clock : Clock) (index : Finder.Index),
    scheme ∈ ["timestamp"; "date-sequence"; "luhmann"] →
    (generateZKId (Scenarios.withScheme scheme) clock
       (initializeZKCounters index initialCounters)).1 ∉ zettelIds index.

(** No dollar sign in the text. *)
Fixpoint dollarFree (s : string) : bool :=
  match s with
  | EmptyString => true
  | String c s' => negb (bool_decide (c = "$"%char)) && dollarFree s'
  end.

(** The link text searched for by the guard of [addBacklinksToZettels]. *)
Definition wikiLink (name : string) : string := "[[" +:+ name +:+ "]]".

(** The name under which [addZKRelatedLinks] links to a related note. *)
Definition linkNameOf (r : RelatedNote) : string :=
  stripMd (Allocator.fileNameOf (ni_path (rn_note r))).

(** The related note's document, when there is one, links to the new note. *)
Definition linksBack (newNote : TFile) (vault : Vault) (r : RelatedNote) : Prop :=
  from_option (λ doc, includes doc (wikiLink (basename newNote)) = true) True
    (vault !! ni_path (rn_note r)).

End Statements.

(** ** Further notions used in the statements *)
Module InsertStatements.

Import Js Engine.

(** The text closes a linked-notes section: a line feed and three dashes
    come next, or only line feeds are left. *)
Definition closesSection (after : string) : Prop :=
  startsWith after sectionEnd = true ∨ allNewlines after = true.

(** [result] is [content] with [inserted] put at the end of its first
    linked-notes section: no header starts in [content] before the one
    that follows [before], and [body] is the shortest text after that
    header that is followed by the close of a section. *)
Definition insertedInFirstSection (content inserted result : string) : Prop :=
  ∃ before body after,
    content = before +:+ sectionHeader +:+ body +:+ after
    ∧ result = before +:+ sectionHeader +:+ body +:+ inserted +:+ after
    ∧ (∀ x y, content = x +:+ sectionHeader +:+ y →
              (String.length before ≤ String.length x)%nat)
    ∧ closesSection after
    ∧ (∀ b1 b2, body = b1 +:+ b2 → b2 ≠ "" → ¬ closesSection (b2 +:+ after)).

End InsertStatements.

Module SessionStatements.

(** The counter, and every value it takes in so many calls, is an integer
    from 0 to [2 ^ 53]: there the code's addition of 1, made on doubles, is
    exact. *)
Definition exactCounter (counter : Z) (calls : nat) : Prop :=
  0 ≤ counter ∧ counter + Z.of_nat calls ≤ 2 ^ 53.

End SessionStatements.

Module MoreStatements.
Import Finder.

(** The number is an integer. *)
Definition isWhole (i : Q) : bool := (Qden (Qred i) =? 1)%positive.

(** The place in the array that an integer index reads. *)
Definition placeOf (i : Q) : nat := Z.to_nat (Qnum (Qred i)).

(** The record made of a candidate and of an entry of the classifier. *)
Definition relatedOf (candidate : Candidate) (result : AiResult) : RelatedNote :=
  {| rn_note := cand_note candidate;
     rn_relevance := ai_relevance result;
     rn_matchedKeywords := cand_matchedKeywords candidate;
     rn_reason := orEmpty (ai_reason result);
     rn_connectionType := orEmpty (ai_type result) |}.

End MoreStatements.

Module MoreGatewayStatements.

Import Gateway.

(** The item is [null]. *)
Definition isNull (item : json) : bool :=
  match item with
  | JNull => true
  | _ => false
  end.

End MoreGatewayStatements.

Module IndexStatements.
Import Finder.

(** Each path is the key of one entry, and each entry is stored under the
    path it records. *)
Definition keyedByPath (index : Index) : Prop :=
  NoDup (map fst index) ∧ Forall (λ e, ni_path e.2 = e.1) index.

End IndexStatements.

Module ClientStatements.
Import Client.

(** The call of that round was rejected with a rate limit error. *)
Definition rateLimited {T} (outcome : Outcome T) : bool :=
  match outcome with
  | Resolved _ => false
  | Rejected error => isRateLimitError error
  end.

(** A round that ends in a retry: the call, then the timer. *)
Definition retriedRound (attempt : Z) : list Event :=
  [ApiCall attempt; Delay (inject_Z (INITIAL_BACKOFF_MS * 2 ^ attempt))].

(** The events of a run that makes its last call in round [last]. *)
Definition roundsUpTo (first last : Z) : list Event :=
  flat_map retriedRound (seqZ first (last - first)) ++ [ApiCall last].

End ClientStatements.

Module NameStatements.
Import Names.

(** No unit of white space follows another. *)
Fixpoint singleSpaced (name : Units) : bool :=
  match name with
  | [] => true
  | u :: rest =>
    match rest with
    | v :: _ => negb (isWhiteSpace u && isWhiteSpace v)
    | [] => true
    end && singleSpaced rest
  end.

(** No forbidden unit, and no white space other than the space. *)
Definition plainUnit (u : Z) : Prop :=
  isForbidden u = false ∧ (isWhiteSpace u = true → u = space).

(** White space neither at the start nor at the end. *)
Definition trimmed (name : Units) : Prop :=
  (∀ u, head name = Some u → isWhiteSpace u = false)
  ∧ (∀ u, last name = Some u → isWhiteSpace u = false).

End NameStatements.

(** * Properties *)

(** ** Facts on the string primitives *)

Module JsFacts.

Import Js.

Lemma app_nil_r (s : string) : s +:+ "" = s.
Proof. induction s as [|c s IH]; simpl; congruence. Qed.

Lemma app_assoc (a b c : string) : (a +:+ b) +:+ c = a +:+ b +:+ c.
Proof. induction a as [|x a IH]; simpl; congruence. Qed.

Lemma length_app (a b : string) :
  String.length (a +:+ b) = (String.length a + String.length b)%nat.
Proof. induction a as [|x a IH]; simpl; congruence. Qed.

Lemma startsWith_app (p r : string) : startsWith (p +:+ r) p = true.
Proof.
  induction p as [|c p IH]; simpl; [done|].
  destruct (decide (c = c)); [done|congruence].
Qed.

Lemma startsWith_inv (s p : string) :
  startsWith s p = true → ∃ r, s = p +:+ r.
Proof.
  revert s. induction p as [|c p IH]; intros s H.
  - by exists s.
  - destruct s as [|d s]; simpl in H; [done|].
    destruct (decide (c = d)) as [->|]; [|done].
    destruct (IH _ H) as [r ->]. by exists r.
Qed.

Lemma startsWith_drop (s p : string) :
  startsWith s p = true → s = p +:+ drop (String.length p) s.
Proof.
  revert s. induction p as [|c p IH]; intros s H; simpl.
  - done.
  - destruct s as [|d s]; simpl in H; [done|].
    destruct (decide (c = d)) as [->|]; [|done].
    simpl. f_equal. by apply IH.
Qed.

Lemma includes_intro (a t b : string) : includes (a +:+ t +:+ b) t = true.
Proof.
  induction a as [|c a IH].
  - simpl. destruct (t +:+ b) eqn:E; simpl; rewrite <- E, startsWith_app; done.
  - simpl. rewrite IH. by rewrite orb_true_r.
Qed.

Lemma includes_inv (s t : string) :
  includes s t = true → ∃ a b, s = a +:+ t +:+ b.
Proof.
  induction s as [|c s IH]; simpl; intros H.
  - rewrite orb_false_r in H. apply startsWith_inv in H as [r ->]. by exists "", r.
  - apply orb_true_iff in H as [H|H].
    + apply startsWith_inv in H as [r ->]. by exists "", r.
    + destruct (IH H) as (a & b & ->). by exists (String c a), b.
Qed.

Lemma includes_app_l (s t x : string) :
  includes s t = true → includes (x +:+ s) t = true.
Proof.
  intros (a & b & ->)%includes_inv. rewrite <- app_assoc. apply includes_intro.
Qed.

Lemma includes_app_r (s t x : string) :
  includes s t = true → includes (s +:+ x) t = true.
Proof.
  intros (a & b & ->)%includes_inv. rewrite !app_assoc. apply includes_intro.
Qed.

(** Joining with the empty separator is concatenation. *)
Lemma join_empty_cons (x : string) (l : list string) :
  join "" (x :: l) = x +:+ join "" l.
Proof. destruct l; simpl; [by rewrite app_nil_r | done]. Qed.

Lemma join_chars_inj (l l' : list string) :
  Forall (λ s, String.length s = 1%nat) l →
  Forall (λ s, String.length s = 1%nat) l' →
  join "" l = join "" l' → l = l'.
Proof.
  intros Hl. revert l'. induction Hl as [|x l Hx Hl IH]; intros l' Hl' E.
  - destruct Hl' as [|y l' Hy _]; [done|].
    rewrite join_empty_cons in E. destruct y; simpl in *; done.
  - destruct Hl' as [|y l' Hy Hl'].
    + rewrite join_empty_cons in E. destruct x; simpl in *; done.
    + rewrite !join_empty_cons in E.
      destruct x as [|c [|]]; simpl in Hx; try done.
      destruct y as [|d [|]]; simpl in Hy; try done.
      simpl in E. injection E as -> E. f_equal. by apply IH.
Qed.

End JsFacts.

(** ** The Luhmann-style encoding *)

Module LuhmannFacts.

Import Js Allocator.

Lemma luhmannLoop_acc (fuel : nat) (remaining level : Z) (acc : list string) :
  luhmannLoop fuel remaining level acc = acc ++ luhmannLoop fuel remaining level [].
Proof.
  revert remaining level acc.
  induction fuel as [|fuel IH]; intros remaining level acc; simpl.
  - by rewrite app_nil_r.
  - destruct (0 <? remaining); [|by rewrite app_nil_r].
    destruct (level mod 2 =? 0).
    + rewrite IH, (IH _ _ [_]). by rewrite app_assoc.
    + rewrite IH, (IH _ _ [_]). by rewrite app_assoc.
Qed.

(** The symbols of one level, and the rest of the counter. *)
Lemma luhmannLoop_step (fuel : nat) (remaining level : Z) :
  0 < remaining →
  luhmannLoop (S fuel) remaining level [] =
    if level mod 2 =? 0
    then toString ((remaining - 1) mod 9 + 1)
           :: luhmannLoop fuel ((remaining - 1) / 9) (level + 1) []
    else fromCharCode (97 + (remaining - 1) mod 26)
           :: luhmannLoop fuel ((remaining - 1) / 26) (level + 1) [].
Proof.
  intros H. simpl. destruct (Z.ltb_spec 0 remaining); [|lia].
  destruct (level mod 2 =? 0); by rewrite luhmannLoop_acc.
Qed.

Lemma luhmannLoop_done (fuel : nat) (remaining level : Z) :
  remaining ≤ 0 → luhmannLoop fuel remaining level [] = [].
Proof.
  intros H. destruct fuel; simpl; [done|]. by destruct (Z.ltb_spec 0 remaining); [lia|].
Qed.

(** The loop ends within the fuel it is given: more fuel changes nothing. *)
Lemma luhmannLoop_fuel (f1 f2 : nat) (remaining level : Z) :
  remaining ≤ Z.of_nat f1 → remaining ≤ Z.of_nat f2 →
  luhmannLoop f1 remaining level [] = luhmannLoop f2 remaining level [].
Proof.
  revert f2 remaining level.
  induction f1 as [|f1 IH]; intros f2 remaining level H1 H2.
  - by rewrite !luhmannLoop_done by lia.
  - destruct (Z.le_gt_cases remaining 0) as [Hle|Hgt].
    { by rewrite !luhmannLoop_done. }
    destruct f2 as [|f2]; [lia|].
    rewrite !luhmannLoop_step by lia.
    assert ((remaining - 1) / 9 ≤ remaining - 1).
    { apply Z.div_le_upper_bound; lia. }
    assert ((remaining - 1) / 26 ≤ remaining - 1).
    { apply Z.div_le_upper_bound; lia. }
    destruct (level mod 2 =? 0); f_equal; apply IH; lia.
Qed.

Lemma toString_digit_length (d : Z) :
  1 ≤ d ≤ 9 → String.length (toString d) = 1%nat.
Proof.
  intros H.
  assert (d = 1 ∨ d = 2 ∨ d = 3 ∨ d = 4 ∨ d = 5 ∨ d = 6 ∨ d = 7 ∨ d = 8 ∨ d = 9)
    as Hd by lia.
  destruct Hd as [->|[->|[->|[->|[->|[->|[->|[->| ->]]]]]]]]; reflexivity.
Qed.

Lemma luhmannLoop_chars (fuel : nat) (remaining level : Z) :
  Forall (λ s, String.length s = 1%nat) (luhmannLoop fuel remaining level []).
Proof.
  revert remaining level. induction fuel as [|fuel IH]; intros remaining level.
  - constructor.
  - destruct (Z.le_gt_cases remaining 0) as [Hle|Hgt].
    { rewrite luhmannLoop_done by done. constructor. }
    rewrite luhmannLoop_step by lia.
    destruct (level mod 2 =? 0); constructor; try apply IH.
    + apply toString_digit_length.
      pose proof (Z.mod_pos_bound (remaining - 1) 9). lia.
    + reflexivity.
Qed.

Lemma fromCharCode_letter_inj (i j : Z) :
  0 ≤ i < 26 → 0 ≤ j < 26 →
  fromCharCode (97 + i) = fromCharCode (97 + j) → i = j.
Proof.
  intros Hi Hj E. unfold fromCharCode in E. injection E as E.
  apply (f_equal N_of_ascii) in E.
  rewrite !N_ascii_embedding in E by lia. lia.
Qed.

(** The symbols emitted determine the counter. *)
Lemma luhmannLoop_inj (fuel : nat) (r r' level : Z) :
  0 ≤ r ≤ Z.of_nat fuel → 0 ≤ r' ≤ Z.of_nat fuel →
  luhmannLoop fuel r level [] = luhmannLoop fuel r' level [] → r = r'.
Proof.
  revert r r' level. induction fuel as [|fuel IH]; intros r r' level Hr Hr' E.
  - lia.
  - destruct (Z.le_gt_cases r 0) as [Hle|Hgt];
      destruct (Z.le_gt_cases r' 0) as [Hle'|Hgt']; [lia|..].
    + rewrite luhmannLoop_done, luhmannLoop_step in E by lia.
      by destruct (level mod 2 =? 0).
    + rewrite luhmannLoop_step, (luhmannLoop_done _ r') in E by lia.
      by destruct (level mod 2 =? 0).
    + rewrite !luhmannLoop_step in E by lia.
      assert (0 ≤ (r - 1) / 9 ≤ r - 1 ∧ 0 ≤ (r' - 1) / 9 ≤ r' - 1) as [??].
      { split; (split; [apply Z.div_pos | apply Z.div_le_upper_bound]; lia). }
      assert (0 ≤ (r - 1) / 26 ≤ r - 1 ∧ 0 ≤ (r' - 1) / 26 ≤ r' - 1) as [??].
      { split; (split; [apply Z.div_pos | apply Z.div_le_upper_bound]; lia). }
      pose proof (f_equal (hd "") E) as Ehd. pose proof (f_equal tail E) as Etl.
      clear E. destruct (level mod 2 =? 0); cbn [hd tail] in Ehd, Etl.
      * apply (inj pretty) in Ehd. apply IH in Etl; [|lia..].
        pose proof (Z.div_mod (r - 1) 9). pose proof (Z.div_mod (r' - 1) 9). lia.
      * apply fromCharCode_letter_inj in Ehd; [|by apply Z.mod_pos_bound..].
        apply IH in Etl; [|lia..].
        pose proof (Z.div_mod (r - 1) 26). pose proof (Z.div_mod (r' - 1) 26). lia.
Qed.

(** A counter of 0 or less is given the identifier ["1"]. *)
Lemma toLuhmannId_nonpositive (num : Z) : num ≤ 0 → toLuhmannId num = "1".
Proof. intros H. unfold toLuhmannId. by destruct (Z.leb_spec num 0); [|lia]. Qed.

Lemma toLuhmannId_nonpositive_witness : -3 ≤ 0 ∧ toLuhmannId (-3) = "1".
Proof. split; [lia|]. apply (toLuhmannId_nonpositive (-3)). lia. Defined.

Lemma toLuhmannId_eq_inv (n m : Z) :
  1 ≤ n → 1 ≤ m → toLuhmannId n = toLuhmannId m → n = m.
Proof.
  intros Hn Hm. unfold toLuhmannId.
  destruct (Z.leb_spec n 0); [lia|]. destruct (Z.leb_spec m 0); [lia|].
  intros E.
  apply JsFacts.join_chars_inj in E;
    [|apply Forall_rev, luhmannLoop_chars..].
  apply (f_equal (@rev string)) in E. rewrite !rev_involutive in E.
  rewrite (luhmannLoop_fuel _ (Z.to_nat (Z.max n m)) n),
          (luhmannLoop_fuel _ (Z.to_nat (Z.max n m)) m) in E by lia.
  apply luhmannLoop_inj in E; lia.
Qed.

(** C2: on counters from 1 up, [toLuhmannId] gives the same identifier
    exactly for the same counter: equal counters give equal identifiers
    (the function is deterministic), and different counters give different
    identifiers (it is injective). *)
Theorem toLuhmannId_injective (n m : Z) :
  1 ≤ n → 1 ≤ m → (toLuhmannId n = toLuhmannId m ↔ n = m).
Proof.
  intros Hn Hm. split; [by apply toLuhmannId_eq_inv|by intros ->].
Qed.

Lemma toLuhmannId_injective_witness :
  1 ≤ 2 ∧ 1 ≤ 10 ∧ (toLuhmannId 2 = toLuhmannId 10 ↔ 2 = 10).
Proof.
  split; [lia|]. split; [lia|]. apply (toLuhmannId_injective 2 10); lia.
Defined.

End LuhmannFacts.

(** ** Facts on the stable sort *)

Module SortFacts.

Section Sort.
Context {A : Type} (before : A → A → bool).

(** The comparator orders any two elements one way or the other. *)
Hypothesis before_total : ∀ x y, before x y = false → before y x = true.

Let R (a b : A) : Prop := before a b = true.

Lemma insertSorted_Permutation (x : A) (l : list A) :
  Js.insertSorted before x l ≡ₚ x :: l.
Proof.
  induction l as [|y l IH]; simpl; [done|].
  destruct (before x y); [done|]. rewrite IH. apply Permutation_swap.
Qed.

Lemma sort_Permutation (l : list A) : Js.sort before l ≡ₚ l.
Proof.
  induction l as [|x l IH]; simpl; [done|].
  by rewrite insertSorted_Permutation, IH.
Qed.

Lemma insertSorted_HdRel (a x : A) (l : list A) :
  R a x → HdRel R a l → HdRel R a (Js.insertSorted before x l).
Proof.
  intros Hax Hl. destruct l as [|y l]; simpl; [by constructor|].
  destruct (before x y); constructor; [done|by inversion Hl].
Qed.

Lemma insertSorted_Sorted (x : A) (l : list A) :
  Sorted R l → Sorted R (Js.insertSorted before x l).
Proof.
  induction 1 as [|y l Hl IH Hy]; simpl.
  - repeat constructor.
  - destruct (before x y) eqn:E.
    + repeat constructor; done.
    + constructor; [done|]. apply insertSorted_HdRel; [|done].
      by apply before_total.
Qed.

Lemma sort_Sorted (l : list A) : Sorted R (Js.sort before l).
Proof.
  induction l as [|x l IH]; simpl; [constructor|].
  by apply insertSorted_Sorted.
Qed.
End Sort.

Lemma Sorted_take {A} (R : A → A → Prop) (n : nat) (l : list A) :
  Sorted R l → Sorted R (take n l).
Proof.
  intros H. revert n. induction H as [|x l Hl IH Hx]; intros [|n]; simpl;
    try constructor; [apply IH|].
  destruct Hx; destruct n; simpl; constructor; done.
Qed.

Lemma Sorted_map {A B} (f : A → B) (R : B → B → Prop) (l : list A) :
  Sorted (λ a b, R (f a) (f b)) l → Sorted R (map f l).
Proof.
  induction 1 as [|x l Hl IH Hx]; simpl; constructor; [done|].
  destruct Hx; simpl; constructor; done.
Qed.

Lemma Sorted_weaken {A} (R R' : A → A → Prop) (l : list A) :
  (∀ a b, R a b → R' a b) → Sorted R l → Sorted R' l.
Proof.
  intros HR. induction 1 as [|x l Hl IH Hx]; constructor; [done|].
  destruct Hx; constructor; auto.
Qed.

End SortFacts.

(** ** The gateway's parsers *)

Module GatewayFacts.

Import Gateway Statements.

Lemma keepScored_numbered (items : list json) (scored : list Scored) :
  keepScored items = Some scored → Forall (fromNumbered items) scored.
Proof.
  revert scored. induction items as [|item items IH]; intros scored H; simpl in H.
  - injection H as <-. constructor.
  - assert (∀ kept, Forall (fromNumbered items) kept →
                    Forall (fromNumbered (item :: items)) kept) as Hup.
    { intros kept Hk. eapply Forall_impl; [exact Hk|]. intros e (it & ? & ? & ?).
      exists it. split; [by right|done]. }
    destruct (isObject item).
    + destruct (getProp item "index") as [i|] eqn:Ei; [|done].
      destruct (getProp item "relevance") as [r|] eqn:Er; [|done].
      destruct (getProp item "reason") as [reason|]; [|done].
      destruct (getProp item "type") as [ty|]; [|done].
      destruct (keepScored items) as [kept|]; [|done].
      specialize (IH kept eq_refl).
      destruct i as [[| |index| | |]|]; try (injection H as <-; by apply Hup).
      destruct r as [[| |relevance| | |]|]; try (injection H as <-; by apply Hup).
      injection H as <-. constructor; [|by apply Hup].
      exists item. split; [by left|done].
    + by apply Hup, IH.
Qed.

Lemma higherFirst_total (a b : Scored) :
  higherFirst a b = false → higherFirst b a = true.
Proof.
  unfold higherFirst. intros H. apply Qle_bool_iff.
  destruct (Qle_bool (sc_relevance b - sc_relevance a) 0) eqn:E; [done|].
  assert (¬ (sc_relevance b - sc_relevance a <= 0)%Q) as Hn.
  { intros Hle. apply Qle_bool_iff in Hle. congruence. }
  apply Qnot_le_lt in Hn. apply Qlt_le_weak in Hn.
  unfold Qminus in *. lra.
Qed.

(** C7: whatever the classifier answers, the parsed relatedness result has
    at most 5 entries, every entry has relevance at least 0.5, the entries
    are in descending order of relevance, and every entry comes from an item
    of the answer whose [index] and [relevance] are numbers (the other
    items are dropped). *)
Theorem parseRelatedNotesResponse_ranked (response : Parsed) :
  let out := parseRelatedNotesResponse response in
  (length out ≤ 5)%nat
  ∧ Forall (λ e, (1 # 2 <= sc_relevance e)%Q) out
  ∧ Sorted (λ a b, (sc_relevance b <= sc_relevance a)%Q) out
  ∧ Forall (λ e, ∃ items, response = Json (JArr items) ∧ fromNumbered items e) out.
Proof.
  assert (∀ P Q, (0 ≤ 5)%nat ∧ Forall P (@nil Scored) ∧ Sorted Q (@nil Scored)
                 ∧ Forall (λ e, ∃ items, response = Json (JArr items)
                                  ∧ fromNumbered items e) []) as Hnil.
  { intros. repeat split; try constructor. lia. }
  destruct response as [| |[| | | |items|]]; simpl; try apply Hnil.
  destruct (keepScored items) as [scored|] eqn:Ek; [|apply Hnil].
  pose proof (keepScored_numbered _ _ Ek) as Hnum.
  set (kept := List.filter (λ item, Qle_bool (1 # 2) (sc_relevance item)) scored).
  assert (Forall (λ e, (1 # 2 <= sc_relevance e)%Q ∧ fromNumbered items e) kept) as Hkept.
  { apply List.Forall_forall. intros e [Hin Hq]%filter_In. split.
    - by apply Qle_bool_iff.
    - rewrite List.Forall_forall in Hnum. by apply Hnum. }
  assert (Forall (λ e, (1 # 2 <= sc_relevance e)%Q ∧ fromNumbered items e)
            (take 5 (Js.sort higherFirst kept))) as Htop.
  { apply Forall_take. by rewrite SortFacts.sort_Permutation. }
  repeat split.
  - rewrite length_map, length_take. lia.
  - apply List.Forall_map. eapply Forall_impl; [exact Htop|]. by intros e [? _].
  - apply SortFacts.Sorted_map, SortFacts.Sorted_take.
    eapply SortFacts.Sorted_weaken; [|apply (SortFacts.sort_Sorted higherFirst)].
    + intros a b Hab. simpl. unfold higherFirst in Hab.
      apply Qle_bool_iff in Hab. lra.
    + apply higherFirst_total.
  - apply List.Forall_map. eapply Forall_impl; [exact Htop|].
    intros e [_ ?]. by exists items.
Qed.

Lemma validateTargetType_valid (v : jsval) : validateTargetType v ∈ validTypes.
Proof.
  unfold validateTargetType.
  destruct v as [[| | |s| |]|]; try (unfold validTypes; set_solver).
  case_bool_decide; [done|unfold validTypes; set_solver].
Qed.

(** A value is kept when it is one of the three texts, and replaced by
    ["library"] otherwise. *)
Lemma validateTargetType_cases (v : jsval) :
  (v = Some (JStr (validateTargetType v)))
  ∨ ((∀ s, s ∈ validTypes → v ≠ Some (JStr s)) ∧ validateTargetType v = "library").
Proof.
  unfold validateTargetType.
  destruct v as [[| | |s| |]|]; try (right; split; [intros; discriminate|done]).
  case_bool_decide as Hs; [by left|].
  right. split; [|done]. intros s' Hs' [= ->]. done.
Qed.

Lemma mapSplit_valid (items : list json) (sections : list SplitSection) :
  mapSplit items = Some sections →
  Forall (λ section, ss_targetType section ∈ validTypes) sections.
Proof.
  revert sections. induction items as [|item items IH]; intros sections H; simpl in H.
  - injection H as <-. constructor.
  - destruct (toSplitSection item) as [section|] eqn:Es; [|done].
    destruct (mapSplit items) as [rest|]; [|done].
    injection H as <-. constructor; [|by apply IH].
    unfold toSplitSection in Es.
    repeat match type of Es with
           | context [match getProp ?i ?n with _ => _ end] =>
               destruct (getProp i n); [|discriminate]
           end.
    injection Es as <-. simpl. apply validateTargetType_valid.
Qed.

(** C10: the target type of every result of [classifyProject] and of every
    section of [splitContent] is one of ["project"], ["library"] and
    ["archive"]; [validateTargetType] keeps a value that is one of the
    three and gives ["library"] for anything else. *)
Theorem targetType_always_valid (response : Parsed) (v : jsval) :
  from_option (λ result, cr_targetType result ∈ validTypes) True
    (classifyProject response)
  ∧ Forall (λ section, ss_targetType section ∈ validTypes) (splitContent response)
  ∧ validateTargetType v ∈ validTypes
  ∧ (v = Some (JStr (validateTargetType v))
     ∨ ((∀ s, s ∈ validTypes → v ≠ Some (JStr s))
        ∧ validateTargetType v = "library")).
Proof.
  split; [|split; [|split]].
  - unfold classifyProject, parseProjectResponse.
    destruct response as [| |parsed]; simpl; try done.
    repeat match goal with
           | |- context [match getProp ?i ?n with _ => _ end] =>
               destruct (getProp i n); [|done]
           end.
    simpl. apply validateTargetType_valid.
  - unfold splitContent, parseSplitResponse.
    destruct response as [| |[| | | |items|]]; try constructor.
    destruct (mapSplit items) as [sections|] eqn:E; [|constructor].
    by eapply mapSplit_valid.
  - apply validateTargetType_valid.
  - apply validateTargetType_cases.
Qed.

End GatewayFacts.

(** ** The mapping of the gateway's entries to records *)

Module MappingFacts.

Import Finder.

Lemma inRange_false_iff (n : nat) (i : Q) :
  inRange n i = false ↔ (i < 0 ∨ inject_Z (Z.of_nat n) <= i)%Q.
Proof.
  unfold inRange. rewrite andb_false_iff, negb_false_iff, Qle_bool_iff.
  split; intros [H|H]; auto.
  - left. apply Qnot_le_lt. intros Hle. apply Qle_bool_iff in Hle. congruence.
  - left. destruct (Qle_bool 0 i) eqn:E; [|done].
    apply Qle_bool_iff in E. lra.
Qed.

(** An entry out of range is skipped, whatever comes after it. *)
Lemma mapAiResults_skip (candidates : list Candidate) (result : AiResult)
    (rest : list AiResult) :
  inRange (length candidates) (ai_index result) = false →
  mapAiResults candidates (result :: rest) = mapAiResults candidates rest.
Proof. intros H. simpl. by rewrite H. Qed.

Lemma mapAiResults_in_range (candidates : list Candidate) (aiResults : list AiResult) :
  mapAiResults candidates aiResults =
  mapAiResults candidates
    (List.filter (λ r, inRange (length candidates) (ai_index r)) aiResults).
Proof.
  induction aiResults as [|r rs IH]; [done|]. simpl.
  destruct (inRange (length candidates) (ai_index r)) eqn:E; [|done].
  simpl. rewrite E. by rewrite <- IH.
Qed.

Lemma mapAiResults_out_of_range (candidates : list Candidate) (aiResults : list AiResult) :
  mapAiResults candidates
    (List.filter (λ r, negb (inRange (length candidates) (ai_index r))) aiResults)
  = Some [].
Proof.
  induction aiResults as [|r rs IH]; [done|]. simpl.
  destruct (inRange (length candidates) (ai_index r)) eqn:E; simpl; [done|].
  by rewrite E.
Qed.

(** For instance, an index in range that is not an integer finds no candidate, and
    reading [note] off [undefined] raises: the mapping step fails. *)
Lemma mapAiResults_fractional_index_raises (c1 c2 c3 : Candidate)
    (relevance : Q) (reason type : option string) (rest : list AiResult) :
  mapAiResults [c1; c2; c3]
    ({| ai_index := 3 # 2; ai_relevance := relevance;
        ai_reason := reason; ai_type := type |} :: rest) = None.
Proof. reflexivity. Qed.

(** C9: in [findRelatedZettels] and in [findRelated], the entries of the
    classifier whose index is negative or at least the number of candidates
    are dropped without an error: the search gives what it gives on the
    entries in range alone, and the empty list, not an error, on entries
    that are all out of range; so for an index of 7 against three
    candidates. *)
Theorem out_of_range_entries_dropped (toLowerCase : string → string)
    (index : Index) (keywords : list string)
    (excludePath : option string) (aiResults : list AiResult)
    (c1 c2 c3 : Candidate) (relevance : Q) (reason type : option string) :
  let zettels :=
    filterZettelsByKeywords toLowerCase keywords (getZettelIndex index)
      excludePath in
  let notes := filterByKeywords toLowerCase index keywords excludePath in
  let within (candidates : list Candidate) (r : AiResult) :=
    inRange (length candidates) (ai_index r) in
  let outside (candidates : list Candidate) (r : AiResult) :=
    negb (inRange (length candidates) (ai_index r)) in
  findRelatedZettels toLowerCase index keywords excludePath aiResults
    = findRelatedZettels toLowerCase index keywords excludePath
        (List.filter (within zettels) aiResults)
  ∧ findRelatedZettels toLowerCase index keywords excludePath
      (List.filter (outside zettels) aiResults)
    = Some []
  ∧ findRelated toLowerCase index keywords excludePath aiResults
    = findRelated toLowerCase index keywords excludePath
        (List.filter (within notes) aiResults)
  ∧ findRelated toLowerCase index keywords excludePath
      (List.filter (outside notes) aiResults)
    = Some []
  ∧ (∀ n i, inRange n i = false ↔ (i < 0 ∨ inject_Z (Z.of_nat n) <= i)%Q)
  ∧ mapAiResults [c1; c2; c3]
      [{| ai_index := 7; ai_relevance := relevance;
          ai_reason := reason; ai_type := type |}] = Some [].
Proof.
  cbv zeta. repeat split.
  - unfold findRelatedZettels. repeat case_bool_decide; try done.
    apply mapAiResults_in_range.
  - unfold findRelatedZettels. repeat case_bool_decide; try done.
    apply mapAiResults_out_of_range.
  - unfold findRelated. repeat case_bool_decide; try done.
    apply mapAiResults_in_range.
  - unfold findRelated. repeat case_bool_decide; try done.
    apply mapAiResults_out_of_range.
  - apply inRange_false_iff.
  - apply inRange_false_iff.
Qed.

End MappingFacts.

(** ** The merge decision *)

Module DecisionFacts.

Import Engine.

Lemma highSimilarNote_Some_iff (settings : ZeroFrictionSettings)
    (similarNotes : list RelatedNote) :
  is_Some (highSimilarNote settings similarNotes)
  ↔ Exists (λ n, (zkMergeThreshold settings <= rn_relevance n)%Q) similarNotes.
Proof.
  unfold highSimilarNote. induction similarNotes as [|n ns IH]; simpl.
  - split; [by intros [? ?]|by inversion 1].
  - destruct (Qle_bool (zkMergeThreshold settings) (rn_relevance n)) eqn:E.
    + split; [|by eauto]. intros _. left. by apply Qle_bool_iff.
    + rewrite IH. split; [by right|].
      inversion 1 as [? ? Hn|]; [|done].
      apply Qle_bool_iff in Hn. congruence.
Qed.

(** C8: for a candidate of the loop, the confirmation to merge or create is
    shown exactly when some related Zettel found for it has a relevance of at
    least the configured threshold; with the default threshold 0.8, a result
    of relevance 0.85 brings it up and a result of relevance 0.79 does not. *)
Theorem merge_decision_iff_threshold (settings : ZeroFrictionSettings)
    (similarNotes : list RelatedNote) (answer : RelatedNote → bool)
    (note : NoteIndex) (matched : list string) (reason connection : string) :
  let found (relevance : Q) :=
    {| rn_note := note; rn_relevance := relevance; rn_matchedKeywords := matched;
       rn_reason := reason; rn_connectionType := connection |} in
  (asksUser (decide_merge settings similarNotes answer) = true
   ↔ Exists (λ n, (zkMergeThreshold settings <= rn_relevance n)%Q) similarNotes)
  ∧ (zkMergeThreshold DEFAULT_SETTINGS == 8 # 10)%Q
  ∧ asksUser (decide_merge DEFAULT_SETTINGS [found (85 # 100)] answer) = true
  ∧ asksUser (decide_merge DEFAULT_SETTINGS [found (79 # 100)] answer) = false.
Proof.
  cbv zeta. split; [|split; [done|split]].
  - rewrite <- highSimilarNote_Some_iff. unfold decide_merge.
    destruct (highSimilarNote settings similarNotes) as [n|].
    + split; [by eauto|]. intros _. by destruct (answer n).
    + split; [done|]. by intros [? ?].
  - unfold decide_merge. simpl. by destruct (answer _).
  - reflexivity.
Qed.

End DecisionFacts.

(** ** The keyword prefilter *)

Module PrefilterFacts.

Import Finder Statements.

Lemma elem_of_newSet (x : string) (xs : list string) : x ∈ newSet xs → x ∈ xs.
Proof.
  induction xs as [|y xs IH]; simpl; [done|].
  intros [->|[_ H]%list_elem_of_filter]%elem_of_cons; [by left|].
  right. by apply IH.
Qed.

Lemma keywordMatches_occurs (a b : string) :
  keywordMatches a b = true → occursEitherWay a b.
Proof.
  unfold keywordMatches. rewrite !orb_true_iff.
  intros [[H|H]|H].
  - apply bool_decide_eq_true in H as ->. left. exists "", "".
    by rewrite JsFacts.app_nil_r.
  - left. by apply JsFacts.includes_inv.
  - right. by apply JsFacts.includes_inv.
Qed.

Lemma matchesSome_occurs (toLowerCase : string → string)
    (keywords : list string) (k : string) :
  matchesSome toLowerCase (newSet (map toLowerCase keywords)) k = true →
  ∃ q, q ∈ keywords ∧ occursEitherWay (toLowerCase k) (toLowerCase q).
Proof.
  unfold matchesSome. intros (sk & Hin & Hm)%existsb_exists.
  apply list_elem_of_In, elem_of_newSet, list_elem_of_In, in_map_iff in Hin
    as (q & <- & Hq).
  exists q. split; [by apply list_elem_of_In|]. by apply keywordMatches_occurs.
Qed.

Lemma isExcluded_false (excludePath : option string) (path : string) :
  excludePath ≠ Some "" → isExcluded excludePath path = false →
  Some path ≠ excludePath.
Proof.
  intros Hne H E. subst excludePath. simpl in H.
  rewrite (bool_decide_eq_true_2 (path = path)) in H by done.
  rewrite andb_true_r in H. apply negb_false_iff, bool_decide_eq_true in H.
  by subst.
Qed.

Lemma collectCandidates_good (toLowerCase : string → string)
    (index : Index) (keywords : list string)
    (excludePath : option string) :
  excludePath ≠ Some "" →
  Forall (goodCandidate toLowerCase index keywords excludePath)
    (collectCandidates toLowerCase (newSet (map toLowerCase keywords))
       excludePath index).
Proof.
  intros Hne.
  assert (∀ done todo,
    Forall (goodCandidate toLowerCase (done ++ todo) keywords excludePath)
      (collectCandidates toLowerCase (newSet (map toLowerCase keywords))
         excludePath todo)) as H.
  { intros done todo. revert done.
    induction todo as [|[path note] todo IH]; intros done; simpl; [constructor|].
    specialize (IH (done ++ [(path, note)])). rewrite <- app_assoc in IH.
    destruct (isExcluded excludePath path) eqn:Ex; [done|].
    case_bool_decide as Hk; [done|].
    case_bool_decide as Hm; [done|].
    constructor; [|done]. repeat split; simpl; try done.
    - exists path. split; [set_solver|]. by apply isExcluded_false.
    - apply List.Forall_forall. intros k [Hin Hmatch]%filter_In. split.
      + by apply list_elem_of_In.
      + by apply matchesSome_occurs. }
  apply (H []).
Qed.

Lemma moreMatchesFirst_total (a b : Candidate) :
  moreMatchesFirst a b = false → moreMatchesFirst b a = true.
Proof. unfold moreMatchesFirst. intros H. apply Z.leb_gt in H. apply Z.leb_le. lia. Qed.

(** What both prefilters compute from the candidates they collect. *)
Lemma top_ten_good (toLowerCase : string → string)
    (index : Index) (keywords : list string)
    (excludePath : option string) (collected : list Candidate) :
  Forall (goodCandidate toLowerCase index keywords excludePath) collected →
  let out := take 10 (Js.sort moreMatchesFirst collected) in
  (length out ≤ 10)%nat
  ∧ Forall (goodCandidate toLowerCase index keywords excludePath) out
  ∧ Sorted (λ a b, (length (cand_matchedKeywords b)
                    ≤ length (cand_matchedKeywords a))%nat) out.
Proof.
  intros H. cbv zeta. repeat split.
  - rewrite length_take. lia.
  - apply Forall_take. by rewrite SortFacts.sort_Permutation.
  - apply SortFacts.Sorted_take.
    eapply SortFacts.Sorted_weaken;
      [|apply (SortFacts.sort_Sorted moreMatchesFirst), moreMatchesFirst_total].
    intros a b Hab. simpl in Hab. unfold moreMatchesFirst in Hab.
    apply Z.leb_le in Hab. lia.
Qed.

Lemma getZettelIndex_subset (index : Index) (e : string * NoteIndex) :
  e ∈ getZettelIndex index → e ∈ index ∧ ni_type e.2 = Some "zettel".
Proof. unfold getZettelIndex. rewrite list_elem_of_filter. tauto. Qed.

(** C3: for every query and every index, the keyword prefilter (over all
    notes, and over the Zettel notes) returns at most 10 candidates, sorted
    by non-increasing number of matched keywords; each candidate is a note
    of the index with a non-empty keyword list, stored under a path other
    than the excluded one, and at least one of its keywords matches a query
    keyword, one text occurring in the other once both are mapped by
    [toLowerCase], whatever that mapping is.  The excluded path is a note's
    path, so it is not empty. *)
Theorem prefilter_candidates (toLowerCase : string → string)
    (index : Index) (keywords : list string)
    (excludePath : option string) :
  excludePath ≠ Some "" →
  let sortedByMatches :=
    Sorted (λ a b, (length (cand_matchedKeywords b)
                    ≤ length (cand_matchedKeywords a))%nat) in
  let all := filterByKeywords toLowerCase index keywords excludePath in
  let zettels :=
    filterZettelsByKeywords toLowerCase keywords (getZettelIndex index)
      excludePath in
  ((length all ≤ 10)%nat
   ∧ Forall (goodCandidate toLowerCase index keywords excludePath) all
   ∧ sortedByMatches all)
  ∧ ((length zettels ≤ 10)%nat
     ∧ Forall (goodCandidate toLowerCase index keywords excludePath) zettels
     ∧ Forall (λ c, ni_type (cand_note c) = Some "zettel") zettels
     ∧ sortedByMatches zettels).
Proof.
  intros Hne. cbv zeta. split.
  - by apply top_ten_good, collectCandidates_good.
  - pose proof (collectCandidates_good toLowerCase (getZettelIndex index)
                  keywords excludePath Hne) as Hz.
    pose proof (top_ten_good _ _ _ _ _ Hz) as (Hlen & Hgood & Hsorted).
    repeat split; try done.
    + eapply Forall_impl; [exact Hgood|].
      intros c ((path & Hin & Hex) & ? & ? & ?). repeat split; try done.
      exists path. split; [|done]. by apply getZettelIndex_subset in Hin as [? _].
    + eapply Forall_impl; [exact Hgood|].
      intros c ((path & Hin & _) & _). by apply getZettelIndex_subset in Hin as [_ ?].
Qed.

Lemma prefilter_candidates_witness :
  Some "02 Library/Thermometer.md" ≠ Some ""
  ∧ (length (filterByKeywords Scenarios.toLowerCaseAscii Scenarios.sensorIndex ["sensor"]
               (Some "02 Library/Thermometer.md")) ≤ 10)%nat
  ∧ Forall (goodCandidate Scenarios.toLowerCaseAscii Scenarios.sensorIndex ["sensor"]
              (Some "02 Library/Thermometer.md"))
      (filterByKeywords Scenarios.toLowerCaseAscii Scenarios.sensorIndex ["sensor"]
         (Some "02 Library/Thermometer.md")).
Proof.
  assert (Some "02 Library/Thermometer.md" ≠ Some "") as Hne by discriminate.
  split; [exact Hne|].
  destruct (prefilter_candidates Scenarios.toLowerCaseAscii
              Scenarios.sensorIndex ["sensor"]
              (Some "02 Library/Thermometer.md") Hne) as [(Hlen & Hgood & _) _].
  split; [exact Hlen|exact Hgood].
Defined.

(** The scenario of the specification: of three notes, two share the
    keyword sensor; a query for sensor that excludes one of them has the
    other as its only candidate. *)
Example prefilter_sensor_scenario :
  map (λ c, ni_path (cand_note c))
    (filterByKeywords Scenarios.toLowerCaseAscii Scenarios.sensorIndex ["sensor"]
       (Some "02 Library/Thermometer.md"))
  = ["02 Library/Lidar.md"].
Proof. reflexivity. Qed.

End PrefilterFacts.

(** ** Decimal numerals: [toString], [padStart] and [parseInt] *)

Module NumeralFacts.

Import Js.

Lemma pretty_N_char_digit (d : N) :
  (d < 10)%N →
  isDigit (pretty_N_char d) = true ∧ digitValue (pretty_N_char d) = Z.of_N d.
Proof.
  intros H.
  assert (d = 0 ∨ d = 1 ∨ d = 2 ∨ d = 3 ∨ d = 4 ∨ d = 5 ∨ d = 6 ∨ d = 7
          ∨ d = 8 ∨ d = 9)%N as Hd by lia.
  destruct Hd as [->|[->|[->|[->|[->|[->|[->|[->|[->| ->]]]]]]]]]; by split.
Qed.

(** Digits in front of a numeral shift the value read so far. *)
Lemma parseDigits_acc (acc : Z) (s : string) :
  allDigits s = true →
  parseDigits acc s = acc * 10 ^ Z.of_nat (String.length s) + parseDigits 0 s.
Proof.
  revert acc. induction s as [|c s IH]; intros acc H; simpl in *.
  - lia.
  - apply andb_true_iff in H as [Hc Hs]. rewrite Hc.
    rewrite (IH (acc * 10 + digitValue c)), (IH (0 * 10 + digitValue c)) by done.
    rewrite Nat2Z.inj_succ, Z.pow_succ_r by lia. lia.
Qed.

Lemma pretty_N_go_digits (x : N) (s : string) :
  allDigits s = true →
  allDigits (pretty_N_go x s) = true
  ∧ parseDigits 0 (pretty_N_go x s)
    = Z.of_N x * 10 ^ Z.of_nat (String.length s) + parseDigits 0 s.
Proof.
  revert s. induction (N.lt_wf_0 x) as [x _ IH]; intros s Hs.
  destruct (decide (x = 0)%N) as [->|Hx].
  - rewrite pretty_N_go_0. split; [done|lia].
  - rewrite pretty_N_go_step by lia.
    destruct (pretty_N_char_digit (x `mod` 10)%N) as [Hd Hv].
    { by apply N.mod_lt. }
    destruct (IH (x `div` 10)%N) with (s := String (pretty_N_char (x `mod` 10)) s)
      as [Hall Hval].
    { apply N.div_lt; lia. }
    { simpl. by rewrite Hd, Hs. }
    split; [done|]. rewrite Hval. simpl. rewrite Hd.
    rewrite (parseDigits_acc (0 * 10 + _)) by done. rewrite Hv.
    rewrite Nat2Z.inj_succ, Z.pow_succ_r by lia.
    pose proof (N.div_mod x 10). rewrite N2Z.inj_div, N2Z.inj_mod.
    pose proof (Z.div_mod (Z.of_N x) 10). change (Z.of_N 10) with 10. lia.
Qed.

(** The numeral of a natural number is made of digits and reads back as
    the number. *)
Lemma toString_digits (n : Z) :
  0 ≤ n → allDigits (toString n) = true ∧ parseDigits 0 (toString n) = n.
Proof.
  intros H. unfold toString, pretty, pretty_Z. destruct n as [|p|p]; [done| |lia].
  unfold pretty, pretty_positive, pretty, pretty_N.
  case_decide; [done|].
  destruct (pretty_N_go_digits (N.pos p) "") as [Hall Hval]; [done|].
  split; [done|]. rewrite Hval. simpl. lia.
Qed.

Lemma replicate_zero_digits (k : nat) (s : string) :
  allDigits s = true →
  allDigits (replicate k "0" +:+ s) = true
  ∧ parseDigits 0 (replicate k "0" +:+ s) = parseDigits 0 s.
Proof. intros H. induction k as [|k [IH1 IH2]]; simpl; [done|]. by rewrite IH1. Qed.

(** A numeral padded with zeros still reads back as the number. *)
Lemma padStart_toString (width : nat) (n : Z) :
  0 ≤ n →
  allDigits (padStart width "0" (toString n)) = true
  ∧ parseDigits 0 (padStart width "0" (toString n)) = n.
Proof.
  intros H. destruct (toString_digits n H) as [Hall Hval].
  destruct (replicate_zero_digits (width - String.length (toString n)) _ Hall)
    as [H1 H2].
  unfold padStart. by rewrite H1, H2.
Qed.

Lemma padStart_toString_inj (width : nat) (n m : Z) :
  0 ≤ n → 0 ≤ m →
  padStart width "0" (toString n) = padStart width "0" (toString m) → n = m.
Proof.
  intros Hn Hm E.
  destruct (padStart_toString width n Hn) as [_ <-].
  destruct (padStart_toString width m Hm) as [_ <-]. by rewrite E.
Qed.

Lemma parseInt_digits (s : string) :
  s ≠ "" → allDigits s = true → parseInt s = Some (parseDigits 0 s).
Proof.
  intros Hne H. destruct s as [|c s]; [done|]. simpl in *.
  apply andb_true_iff in H as [-> _]. done.
Qed.

End NumeralFacts.

(** ** The identifier allocator *)

Module AllocatorFacts.

Import Js Allocator Statements.

Lemma removeDashes_dashFree (s : string) : dashFree (removeDashes s) = true.
Proof.
  induction s as [|c s IH]; simpl; [done|].
  case_bool_decide as Hc; simpl; [done|]. by rewrite bool_decide_eq_false_2.
Qed.

Lemma allDigits_dashFree (s : string) : allDigits s = true → dashFree s = true.
Proof.
  induction s as [|c s IH]; simpl; [done|].
  intros [Hc Hs]%andb_true_iff. rewrite IH by done.
  case_bool_decide as E; [|done]. by subst.
Qed.

(** Two texts cut at their first dash have the same part before it. *)
Lemma before_dash_inj (a b x y : string) :
  dashFree a = true → dashFree b = true →
  a +:+ "-" +:+ x = b +:+ "-" +:+ y → a = b ∧ x = y.
Proof.
  revert b. induction a as [|c a IH]; intros [|d b] Ha Hb E; simpl in *.
  - by injection E.
  - injection E as <- _. by rewrite bool_decide_eq_true_2 in Hb.
  - injection E as -> _. by rewrite bool_decide_eq_true_2 in Ha.
  - injection E as -> E.
    apply andb_true_iff in Ha as [_ Ha]. apply andb_true_iff in Hb as [_ Hb].
    destruct (IH b Ha Hb E) as [-> ->]. done.
Qed.

Lemma parseDigits_nonneg (acc : Z) (s : string) : 0 ≤ acc → 0 ≤ parseDigits acc s.
Proof.
  revert acc. induction s as [|c s IH]; intros acc H; simpl; [done|].
  destruct (isDigit c) eqn:E; [|done]. apply IH.
  unfold isDigit in E. apply andb_true_iff in E as [E _].
  apply Nat.leb_le in E. unfold digitValue. lia.
Qed.

Lemma dateSeqMatch_inv (fileName date digits : string) :
  dateSeqMatch fileName = Some (date, digits) →
  allDigits date = true ∧ allDigits digits = true ∧ digits ≠ "".
Proof.
  unfold dateSeqMatch.
  destruct (_ && allDigits (take 8 fileName)) eqn:E1; [|done].
  destruct (drop 8 fileName) as [|c rest]; [done|].
  destruct (Ascii.eqb_spec c "-"); [|by destruct c as [[] [] [] [] [] [] [] []]].
  subst c. destruct (_ && allDigits (take 3 rest)) eqn:E2; [|done].
  intros [= <- <-].
  apply andb_true_iff in E1 as [_ ?]. apply andb_true_iff in E2 as [Hlen ?].
  repeat split; try done. intros E. destruct rest; simpl in *; done.
Qed.

Lemma seedFromPath_mono (size : Z) (counters : Counters) (path date : string) :
  dailyCount counters date ≤ dailyCount (seedFromPath size counters path) date.
Proof.
  unfold seedFromPath, dailyCount. simpl.
  destruct (dateSeqMatch (fileNameOf path)) as [[d digits]|]; [|done].
  destruct (parseInt digits) as [seq|]; [|done].
  unfold dailyCount. destruct (Z.ltb_spec (default 0 (zkDailyCounter counters !! d)) seq);
    [|done].
  destruct (decide (d = date)) as [->|Hne].
  - rewrite lookup_insert_eq. simpl. lia.
  - by rewrite lookup_insert_ne.
Qed.

Lemma seedFromPath_reaches (size : Z) (counters : Counters)
    (path date digits : string) (seq : Z) :
  dateSeqMatch (fileNameOf path) = Some (date, digits) →
  parseInt digits = Some seq →
  seq ≤ dailyCount (seedFromPath size counters path) date.
Proof.
  intros Hm Hp. unfold seedFromPath, dailyCount. simpl. rewrite Hm, Hp.
  unfold dailyCount.
  destruct (Z.ltb_spec (default 0 (zkDailyCounter counters !! date)) seq); [|done].
  by rewrite lookup_insert_eq.
Qed.

Lemma seeding_mono (size : Z) (paths : list string) (counters : Counters)
    (date : string) :
  dailyCount counters date ≤ dailyCount (foldl (seedFromPath size) counters paths) date.
Proof.
  revert counters. induction paths as [|p ps IH]; intros counters; simpl; [done|].
  etrans; [apply (seedFromPath_mono size counters p)|apply IH].
Qed.

(** After seeding, the mark of a date is at least every sequence number
    read off a file name of that date. *)
Lemma seeding_high_water (size : Z) (paths : list string) (counters : Counters)
    (path date digits : string) (seq : Z) :
  path ∈ paths →
  dateSeqMatch (fileNameOf path) = Some (date, digits) →
  parseInt digits = Some seq →
  seq ≤ dailyCount (foldl (seedFromPath size) counters paths) date.
Proof.
  intros Hin Hm Hp. revert counters.
  induction paths as [|p ps IH]; intros counters; [by apply elem_of_nil in Hin|].
  apply elem_of_cons in Hin as [<-|Hin]; simpl.
  - etrans; [by eapply (seedFromPath_reaches size counters path)|apply seeding_mono].
  - by apply IH.
Qed.

Lemma seeding_luhmann (size : Z) (paths : list string) (counters : Counters) :
  paths ≠ [] →
  zkLuhmannCounter (foldl (seedFromPath size) counters paths)
  = Z.max (zkLuhmannCounter counters) size.
Proof.
  intros Hne. destruct paths as [|p ps]; [done|]. clear Hne. simpl.
  assert (∀ c, size ≤ zkLuhmannCounter c →
               zkLuhmannCounter (foldl (seedFromPath size) c ps) = zkLuhmannCounter c)
    as H.
  { induction ps as [|q qs IH]; intros c Hc; simpl; [done|].
    rewrite IH; simpl; lia. }
  rewrite H; simpl; lia.
Qed.

Lemma dashFree_app (a b : string) :
  dashFree (a +:+ b) = dashFree a && dashFree b.
Proof. induction a as [|c a IH]; simpl; [done|]. by rewrite IH, andb_assoc. Qed.

Lemma replicate_zero_dashFree (k : nat) : dashFree (replicate k "0") = true.
Proof. induction k as [|k IH]; simpl; done. Qed.

(** Padded numerals of different integers are different. *)
Lemma padStart_toString_inj_Z (width : nat) (n m : Z) :
  padStart width "0" (toString n) = padStart width "0" (toString m) → n = m.
Proof.
  assert (∀ (p : positive) (q : N),
    padStart width "0" (toString (Z.neg p)) ≠ padStart width "0" (toString (Z.of_N q)))
    as Hmixed.
  { intros p q E. apply (f_equal dashFree) in E. revert E.
    destruct (NumeralFacts.padStart_toString width (Z.of_N q)) as [Hd _]; [lia|].
    rewrite (allDigits_dashFree _ Hd).
    unfold padStart at 1. rewrite dashFree_app.
    change (toString (Z.neg p)) with ("-" +:+ pretty p).
    simpl. by rewrite andb_false_r. }
  intros E. destruct n as [|p|p], m as [|q|q];
    try (apply NumeralFacts.padStart_toString_inj in E; [done|lia..]).
  - by destruct (Hmixed q 0%N).
  - by destruct (Hmixed q (N.pos p)).
  - by destruct (Hmixed p 0%N).
  - by destruct (Hmixed p (N.pos q)).
  - unfold padStart in E.
    change (toString (Z.neg p)) with ("-" +:+ pretty p) in E.
    change (toString (Z.neg q)) with ("-" +:+ pretty q) in E.
    apply before_dash_inj in E as [_ E]; [|apply replicate_zero_dashFree..].
    apply (inj pretty) in E. by subst.
Qed.

Lemma generateZKId_date_sequence (settings : ZeroFrictionSettings) (clock : Clock)
    (counters : Counters) :
  zkIdType settings = "date-sequence" →
  generateZKId settings clock counters =
    (today clock +:+ "-" +:+
       padStart 3 "0" (toString (dailyCount counters (today clock) + 1)),
     {| zkDailyCounter :=
          <[today clock := dailyCount counters (today clock) + 1]>
            (zkDailyCounter counters);
        zkLuhmannCounter := zkLuhmannCounter counters |}).
Proof. intros H. unfold generateZKId. rewrite H. done. Qed.

(** C5: under the date-sequence scheme, two allocations in a row on the
    same date return the date followed by a dash and by k and then k + 1,
    padded with zeros to three digits, where k is one more than the mark of
    the date, and the two identifiers differ; and after seeding from an index
    that holds the Zettel identifiers 20260102-001 to 20260102-005, the next
    allocation on 2 January 2026 returns 20260102-006. *)
Theorem date_sequence_consecutive (settings : ZeroFrictionSettings)
    (clock1 clock2 : Clock) (counters : Counters) :
  zkIdType settings = "date-sequence" →
  today clock1 = today clock2 →
  let k := dailyCount counters (today clock1) + 1 in
  let first := generateZKId settings clock1 counters in
  let second := generateZKId settings clock2 first.2 in
  first.1 = today clock1 +:+ "-" +:+ padStart 3 "0" (toString k)
  ∧ second.1 = today clock1 +:+ "-" +:+ padStart 3 "0" (toString (k + 1))
  ∧ first.1 ≠ second.1
  ∧ (generateZKId DEFAULT_SETTINGS Scenarios.morning
       (initializeZKCounters Scenarios.reseedIndex initialCounters)).1
    = "20260102-006".
Proof.
  intros Hs Hd. cbv zeta.
  assert (dailyCount (generateZKId settings clock1 counters).2 (today clock1)
          = dailyCount counters (today clock1) + 1) as Hnext.
  { rewrite generateZKId_date_sequence by done.
    unfold dailyCount at 1. cbn [snd zkDailyCounter]. by rewrite lookup_insert_eq. }
  assert ((generateZKId settings clock2 (generateZKId settings clock1 counters).2).1
          = today clock1 +:+ "-" +:+
              padStart 3 "0" (toString (dailyCount counters (today clock1) + 1 + 1)))
    as Hsecond.
  { rewrite (generateZKId_date_sequence settings clock2) by done.
    cbn [fst]. by rewrite <- Hd, Hnext. }
  split; [|split; [|split]].
  - by rewrite generateZKId_date_sequence.
  - exact Hsecond.
  - rewrite Hsecond, generateZKId_date_sequence by done. cbn [fst]. intros E.
    apply (inj (String.append _)), (inj (String.append _)) in E.
    apply padStart_toString_inj_Z in E. lia.
  - vm_compute. reflexivity.
Qed.

Lemma date_sequence_consecutive_witness :
  (generateZKId DEFAULT_SETTINGS Scenarios.morning initialCounters).1 = "20260102-001"
  ∧ (generateZKId DEFAULT_SETTINGS Scenarios.morning
       (generateZKId DEFAULT_SETTINGS Scenarios.morning initialCounters).2).1
    = "20260102-002".
Proof.
  destruct (date_sequence_consecutive DEFAULT_SETTINGS Scenarios.morning
              Scenarios.morning initialCounters eq_refl eq_refl)
    as (H1 & H2 & _).
  split; [exact H1|exact H2].
Defined.

(** Under the Luhmann scheme the counter is seeded with the number of
    Zettel notes: when note 2 of three was deleted, two notes are counted
    and the next identifier is 3, which is the identifier of a note of the
    index. *)
Lemma luhmann_reissues_after_deletion :
  (generateZKId (Scenarios.withScheme "luhmann") Scenarios.morning
     (initializeZKCounters Scenarios.gapIndex initialCounters)).1 = "3"
  ∧ zettelIds Scenarios.gapIndex = ["1"; "3"]
  ∧ ¬ neverReissues.
Proof.
  split; [by vm_compute|]. split; [by vm_compute|].
  intros H.
  apply (H "luhmann" Scenarios.morning Scenarios.gapIndex); [set_solver|].
  vm_compute. set_solver.
Qed.

Lemma take_app_length (a b : string) : take (String.length a) (a +:+ b) = a.
Proof. induction a as [|c a IH]; cbn; [by destruct b|by rewrite IH]. Qed.

Lemma drop_app_length (a b : string) : drop (String.length a) (a +:+ b) = b.
Proof. induction a as [|c a IH]; cbn; [by destruct b|done]. Qed.

Lemma padded_length (k : Z) :
  0 ≤ k ≤ 999 → String.length (padStart 3 "0" (toString k)) = 3%nat.
Proof.
  intros Hk.
  assert (forallb (λ k, String.length (padStart 3 "0" (toString k)) =? 3)%nat
            (seqZ 0 1000) = true) as Hall by (vm_compute; reflexivity).
  rewrite forallb_forall in Hall.
  apply Nat.eqb_eq, Hall, list_elem_of_In, elem_of_seqZ. lia.
Qed.

Lemma dateSeqMatch_head (date digits rest : string) :
  String.length date = 8%nat → allDigits date = true →
  String.length digits = 3%nat → allDigits digits = true →
  dateSeqMatch (date +:+ "-" +:+ digits +:+ rest) = Some (date, digits).
Proof.
  intros Hlen Hdate Hlen3 Hdigits. unfold dateSeqMatch.
  pose proof (take_app_length date ("-" +:+ digits +:+ rest)) as Htake.
  pose proof (drop_app_length date ("-" +:+ digits +:+ rest)) as Hdrop.
  pose proof (take_app_length digits rest) as Htake3.
  rewrite Hlen in Htake, Hdrop. rewrite Hlen3 in Htake3.
  rewrite Htake, Hdrop, Hlen, Hdate. cbn [Nat.eqb andb String.append].
  by rewrite Htake3, Hlen3, Hdigits.
Qed.

(** The identifier of a file name is at its head. *)
Lemma beforeSpace_prefix (s : string) : ∃ rest, s = beforeSpace s +:+ rest.
Proof.
  induction s as [|c s [rest IH]]; [by exists ""|]. cbn [beforeSpace].
  case_bool_decide.
  - by eexists.
  - exists rest. cbn [String.append]. by rewrite <- IH.
Qed.

(** C4, amended: once the counters are seeded from the index, whatever they
    were before, the identifier returned by [generateZKId] differs, under
    the date-sequence scheme, from the identifier of every Zettel note of
    the index, when the date is a text of eight digits and the number
    issued is at most 999 (the counter seeded for the day is between 0 and
    998); under the Luhmann scheme, from the Luhmann identifier of every
    counter from 1 to the number of Zettel notes of the index; under the
    timestamp scheme, from the numeral of every other time. *)
Theorem generateZKId_fresh_after_seeding (index : Finder.Index)
    (before : Counters) (clock : Clock) :
  let counters := initializeZKCounters index before in
  let issued (scheme : string) :=
    (generateZKId (Scenarios.withScheme scheme) clock counters).1 in
  (String.length (today clock) = 8%nat → allDigits (today clock) = true →
   0 ≤ dailyCount counters (today clock) < 999 →
   issued "date-sequence" ∉ zettelIds index)
  ∧ Forall (λ k, issued "luhmann" ≠ toLuhmannId (Z.of_nat k))
      (seq 1 (length (Finder.getZettelIndex index)))
  ∧ (∀ t, t ≠ now clock → issued "timestamp" ≠ toString t).
Proof.
  cbv zeta. split; [|split].
  - intros Hlen Hdate Hcount. rewrite generateZKId_date_sequence by done.
    cbn [fst]. unfold zettelIds.
    intros ([path note] & Hid & Hin)%list_elem_of_fmap. cbn [fst] in Hid.
    set (count := dailyCount (initializeZKCounters index before) (today clock) + 1)
      in *.
    set (digits := padStart 3 "0" (toString count)) in *.
    destruct (NumeralFacts.padStart_toString 3 count ltac:(lia))
      as [Hdigits Hvalue].
    fold digits in Hdigits, Hvalue.
    assert (String.length digits = 3%nat) as Hlen3 by (apply padded_length; lia).
    destruct (beforeSpace_prefix (fileNameOf path)) as [rest Hname].
    rewrite <- Hid, !JsFacts.app_assoc in Hname.
    assert (dateSeqMatch (fileNameOf path) = Some (today clock, digits)) as Hm.
    { rewrite Hname. by apply dateSeqMatch_head. }
    assert (parseInt digits = Some count) as Hp.
    { rewrite NumeralFacts.parseInt_digits; [by rewrite Hvalue| |done].
      intros E. by rewrite E in Hlen3. }
    assert (path ∈ map fst (Finder.getZettelIndex index)) as Hpath.
    { apply list_elem_of_fmap. by exists (path, note). }
    pose proof (seeding_high_water
                  (Z.of_nat (length (Finder.getZettelIndex index)))
                  _ before path (today clock) digits count Hpath Hm Hp) as Hhigh.
    fold (initializeZKCounters index before) in Hhigh. unfold count in Hhigh.
    lia.
  - apply Forall_forall. intros k Hk%list_elem_of_In%in_seq.
    assert (Z.of_nat (length (Finder.getZettelIndex index))
            ≤ zkLuhmannCounter (initializeZKCounters index before)) as Hcount.
    { unfold initializeZKCounters. rewrite seeding_luhmann; [lia|].
      destruct (Finder.getZettelIndex index); [simpl in Hk; lia|done]. }
    unfold generateZKId. cbn [zkIdType Scenarios.withScheme].
    rewrite bool_decide_eq_false_2, bool_decide_eq_false_2, bool_decide_eq_true_2
      by done.
    cbn [fst]. intros E.
    apply LuhmannFacts.toLuhmannId_eq_inv in E; lia.
  - intros t Ht E. unfold generateZKId in E.
    cbn [zkIdType Scenarios.withScheme] in E.
    rewrite bool_decide_eq_true_2 in E by done. cbn [fst] in E.
    apply (inj pretty) in E. done.
Qed.

Lemma generateZKId_fresh_after_seeding_witness :
  (generateZKId (Scenarios.withScheme "date-sequence") Scenarios.morning
     (initializeZKCounters Scenarios.reseedIndex initialCounters)).1
  ∉ zettelIds Scenarios.reseedIndex.
Proof.
  apply (proj1 (generateZKId_fresh_after_seeding Scenarios.reseedIndex
                  initialCounters Scenarios.morning)).
  - reflexivity.
  - reflexivity.
  - vm_compute. split; [discriminate|reflexivity].
Defined.

End AllocatorFacts.

(** ** The link steps of the create path *)

Module LinkFacts.

Import Js Engine Scenarios Statements.

Lemma getSubstitution_literal (m : Match) (lit rest : string) :
  dollarFree lit = true →
  getSubstitution m (lit +:+ rest) = lit +:+ getSubstitution m rest.
Proof.
  induction lit as [|c lit IH]; intros H; [done|].
  simpl in H. apply andb_true_iff in H as [Hc Hl].
  apply negb_true_iff, bool_decide_eq_false in Hc.
  cbn [String.append getSubstitution]. rewrite bool_decide_eq_false_2 by done.
  by rewrite IH.
Qed.

Lemma getSubstitution_group1 (m : Match) (rest : string) :
  getSubstitution m ("$1" +:+ nl +:+ rest) = m_group1 m +:+ nl +:+ getSubstitution m rest.
Proof. reflexivity. Qed.

(** A pattern that starts before a dash ends before it. *)
Lemma getSubstitution_upto_dash (m : Match) (a rest : string) :
  ∃ a', getSubstitution m (a +:+ String "-" rest)
        = a' +:+ getSubstitution m (String "-" rest).
Proof.
  assert (getSubstitution m (String "-" rest) = String "-" (getSubstitution m rest))
    as Hdash by done.
  set (tail := getSubstitution m (String "-" rest)) in *.
  remember (String.length a) as n eqn:Hn.
  revert a Hn. induction (lt_wf n) as [n _ IH]. intros a ->.
  assert (∀ b, (String.length b < String.length a)%nat →
               ∃ a', getSubstitution m (b +:+ String "-" rest) = a' +:+ tail) as IH'.
  { intros b Hb. by apply (IH _ Hb). }
  clear IH.
  destruct a as [|c a1]; [by exists ""|].
  cbn [String.append getSubstitution].
  case_bool_decide as Hc.
  2:{ destruct (IH' a1) as [a' ->]; [simpl; lia|]. by exists (String c a'). }
  destruct a1 as [|d a2].
  { cbn [String.append].
    rewrite !bool_decide_eq_false_2 by done.
    change (isDigit "-") with false. cbv iota. by exists (String c ""). }
  cbn [String.append].
  repeat case_bool_decide.
  - destruct (IH' a2) as [a' ->]; [simpl; lia|]. by exists ("$" +:+ a').
  - destruct (IH' a2) as [a' ->]; [simpl; lia|].
    eexists. symmetry. apply JsFacts.app_assoc.
  - destruct (IH' a2) as [a' ->]; [simpl; lia|].
    eexists. symmetry. apply JsFacts.app_assoc.
  - destruct (IH' a2) as [a' ->]; [simpl; lia|].
    eexists. symmetry. apply JsFacts.app_assoc.
  - destruct (isDigit d) eqn:Hd.
    + assert (∃ a', (if (1 <=? digitValue d) && (digitValue d <=? captureCount)
                     then capture m (digitValue d)
                          +:+ getSubstitution m (a2 +:+ String "-" rest)
                     else String c (String d
                            (getSubstitution m (a2 +:+ String "-" rest))))
                    = a' +:+ tail) as Hone.
      { destruct (IH' a2) as [a' ->]; [simpl; lia|].
        destruct (_ && _); [eexists; symmetry; apply JsFacts.app_assoc|].
        by exists (String c (String d a')). }
      destruct a2 as [|e a3]; [exact Hone|].
      cbn [String.append] in *.
      destruct (isDigit e && _); [|exact Hone].
      destruct (IH' a3) as [a' ->]; [simpl; lia|].
      destruct (1 <=? 10 * digitValue d + digitValue e);
        [eexists; symmetry; apply JsFacts.app_assoc|].
      by exists (String c (String d (String e a'))).
    + destruct (IH' (String d a2)) as [a' Ha]; [simpl; lia|].
      cbn [String.append] in Ha. rewrite Ha. by exists (String c a').
Qed.

Lemma dollarFree_app (a b : string) :
  dollarFree (a +:+ b) = dollarFree a && dollarFree b.
Proof. induction a as [|c a IH]; simpl; [done|]. by rewrite IH, andb_assoc. Qed.

(** A list item that opens with a link, split at the end of the link. *)
Lemma link_item_split (name rest : string) :
  "- [[" +:+ name +:+ "]] (" +:+ rest = ("- " +:+ wikiLink name) +:+ " (" +:+ rest.
Proof.
  unfold wikiLink. cbn [String.append]. do 4 f_equal.
  rewrite JsFacts.app_assoc. done.
Qed.

Lemma includes_wikiLink (x name y : string) :
  includes (x +:+ ("- " +:+ wikiLink name) +:+ y) (wikiLink name) = true.
Proof.
  rewrite (JsFacts.app_assoc "- "), <- (JsFacts.app_assoc x "- ").
  apply JsFacts.includes_intro.
Qed.

Lemma dollarFree_item (name : string) :
  dollarFree name = true → dollarFree ("- " +:+ wikiLink name) = true.
Proof.
  intros H. unfold wikiLink. rewrite !dollarFree_app, H. done.
Qed.

(** Whatever precedes it in the replacement text, a list item whose link
    holds no dollar sign is copied as it is. *)
Lemma getSubstitution_keeps_item (m : Match) (a name rest : string) :
  dollarFree name = true →
  includes (getSubstitution m (a +:+ "- [[" +:+ name +:+ "]] (" +:+ rest))
    (wikiLink name) = true.
Proof.
  intros H. rewrite link_item_split.
  destruct (getSubstitution_upto_dash m a
              (String " " (wikiLink name) +:+ " (" +:+ rest)) as [a' Ha].
  change (String "-" (String " " (wikiLink name) +:+ " (" +:+ rest))
    with (("- " +:+ wikiLink name) +:+ " (" +:+ rest) in Ha.
  rewrite Ha, getSubstitution_literal by by apply dollarFree_item.
  apply includes_wikiLink.
Qed.

Lemma insertLinks_keeps_item (content a name rest : string) :
  dollarFree name = true →
  includes (insertLinks content (a +:+ "- [[" +:+ name +:+ "]] (" +:+ rest))
    (wikiLink name) = true.
Proof.
  intros H. unfold insertLinks, replaceLinkedSection.
  destruct (matchLinkedSection content) as [m|].
  - apply JsFacts.includes_app_l, JsFacts.includes_app_r.
    assert ("$1" +:+ nl +:+ (a +:+ "- [[" +:+ name +:+ "]] (" +:+ rest) +:+ "$2"
            = ("$1" +:+ nl +:+ a) +:+ "- [[" +:+ name +:+ "]] (" +:+ rest +:+ "$2")
      as -> by (by rewrite !JsFacts.app_assoc).
    by apply getSubstitution_keeps_item.
  - do 6 apply JsFacts.includes_app_l. apply JsFacts.includes_app_r.
    rewrite link_item_split. apply includes_wikiLink.
Qed.

Lemma join_relatedLink_split (rs : list RelatedNote) (r : RelatedNote) :
  r ∈ rs →
  ∃ a tail, join nl (map relatedLink rs) = a +:+ relatedLink r +:+ tail.
Proof.
  induction rs as [|x rs IH]; [by intros ?%elem_of_nil|].
  intros [->|Hin]%elem_of_cons.
  - destruct rs as [|y rs]; simpl.
    + exists "", "". by rewrite JsFacts.app_nil_r.
    + by exists "", (nl +:+ join nl (map relatedLink (y :: rs))).
  - destruct (IH Hin) as (a & tail & E).
    destruct rs as [|y rs]; [by apply elem_of_nil in Hin|].
    change (join nl (map relatedLink (x :: y :: rs)))
      with (relatedLink x +:+ nl +:+ join nl (map relatedLink (y :: rs))).
    rewrite E. exists (relatedLink x +:+ nl +:+ a), tail.
    by rewrite !JsFacts.app_assoc.
Qed.

Lemma insertLinks_related (content : string) (rs : list RelatedNote) (r : RelatedNote) :
  r ∈ rs → dollarFree (linkNameOf r) = true →
  includes (insertLinks content (join nl (map relatedLink rs)))
    (wikiLink (linkNameOf r)) = true.
Proof.
  intros Hin Hfree. destruct (join_relatedLink_split rs r Hin) as (a & tail & ->).
  unfold relatedLink. fold (linkNameOf r).
  rewrite !JsFacts.app_assoc. by apply insertLinks_keeps_item.
Qed.

Lemma insertLinks_backLink (content : string) (newNote : TFile) (r : RelatedNote) :
  dollarFree (basename newNote) = true →
  includes (insertLinks content (backLink newNote r)) (wikiLink (basename newNote)) = true.
Proof. intros H. by apply (insertLinks_keeps_item content ""). Qed.

(** One step of the loop makes the related note link back. *)
Lemma addBacklink_links (newNote : TFile) (vault : Vault) (r : RelatedNote) :
  dollarFree (basename newNote) = true →
  linksBack newNote (addBacklink newNote vault r) r.
Proof.
  intros H. unfold linksBack, addBacklink.
  destruct (vault !! ni_path (rn_note r)) as [content|] eqn:E; [|by rewrite E].
  fold (wikiLink (basename newNote)).
  destruct (includes content (wikiLink (basename newNote))) eqn:Ei.
  - by rewrite E.
  - rewrite lookup_insert_eq. simpl. by apply insertLinks_backLink.
Qed.

(** A step of the loop keeps the links that are there. *)
Lemma addBacklink_keeps (newNote : TFile) (vault : Vault) (r r' : RelatedNote) :
  dollarFree (basename newNote) = true →
  linksBack newNote vault r → linksBack newNote (addBacklink newNote vault r') r.
Proof.
  intros H Hr.
  destruct (decide (ni_path (rn_note r') = ni_path (rn_note r))) as [E|Hne].
  - unfold linksBack. rewrite <- E. by apply addBacklink_links.
  - unfold linksBack, addBacklink in *.
    destruct (vault !! ni_path (rn_note r')); [|done].
    destruct (includes _ _); [done|]. by rewrite lookup_insert_ne.
Qed.

Lemma addBacklinksToZettels_keeps (newNote : TFile) (vault : Vault)
    (rs : list RelatedNote) (r : RelatedNote) :
  dollarFree (basename newNote) = true →
  linksBack newNote vault r →
  linksBack newNote (addBacklinksToZettels vault newNote rs) r.
Proof.
  intros H. unfold addBacklinksToZettels. revert vault.
  induction rs as [|x rs IH]; intros vault Hr; simpl; [done|].
  by apply IH, addBacklink_keeps.
Qed.

Lemma addBacklinksToZettels_links (newNote : TFile) (vault : Vault)
    (rs : list RelatedNote) :
  dollarFree (basename newNote) = true →
  Forall (linksBack newNote (addBacklinksToZettels vault newNote rs)) rs.
Proof.
  intros H. unfold addBacklinksToZettels. revert vault.
  induction rs as [|x rs IH]; intros vault; simpl; constructor.
  - apply (addBacklinksToZettels_keeps newNote _ rs x H).
    by apply addBacklink_links.
  - apply IH.
Qed.

(** Where the related notes link back already, the loop changes nothing. *)
Lemma addBacklinksToZettels_same (newNote : TFile) (vault : Vault)
    (rs : list RelatedNote) :
  Forall (linksBack newNote vault) rs →
  addBacklinksToZettels vault newNote rs = vault.
Proof.
  unfold addBacklinksToZettels. induction 1 as [|x rs Hx Hrs IH]; simpl; [done|].
  assert (addBacklink newNote vault x = vault) as ->; [|done].
  unfold addBacklink, linksBack in *.
  destruct (vault !! ni_path (rn_note x)); [|done].
  simpl in Hx. fold (wikiLink (basename newNote)). by rewrite Hx.
Qed.

(** The paths of the store stay the same over the loop. *)
Lemma addBacklinksToZettels_lookup (newNote : TFile) (vault : Vault)
    (rs : list RelatedNote) (p : string) :
  (∀ r, r ∈ rs → ni_path (rn_note r) ≠ p) →
  addBacklinksToZettels vault newNote rs !! p = vault !! p.
Proof.
  unfold addBacklinksToZettels. revert vault.
  induction rs as [|x rs IH]; intros vault Hne; simpl; [done|].
  rewrite IH by (intros r Hr; apply Hne; by right).
  unfold addBacklink. destruct (vault !! ni_path (rn_note x)); [|done].
  destruct (includes _ _); [done|].
  rewrite lookup_insert_ne; [done|]. apply Hne. by left.
Qed.

Lemma addBacklinksToZettels_is_Some (newNote : TFile) (vault : Vault)
    (rs : list RelatedNote) (p : string) :
  is_Some (vault !! p) → is_Some (addBacklinksToZettels vault newNote rs !! p).
Proof.
  unfold addBacklinksToZettels. revert vault.
  induction rs as [|x rs IH]; intros vault Hp; simpl; [done|].
  apply IH. unfold addBacklink.
  destruct (vault !! ni_path (rn_note x)) eqn:E; [|done].
  destruct (includes _ _); [done|].
  destruct (decide (ni_path (rn_note x) = p)) as [->|Hne].
  - rewrite lookup_insert_eq. eauto.
  - by rewrite lookup_insert_ne.
Qed.

(** X1: when the name of the new note holds no dollar sign, a second run of
    [addBacklinksToZettels] on the same inputs changes nothing, and after
    the first run every related document that exists holds a link to the
    new note. *)
Theorem backlinks_idempotent_without_dollar (vault : Vault) (newNote : TFile)
    (relatedNotes : list RelatedNote) :
  dollarFree (basename newNote) = true →
  let once := addBacklinksToZettels vault newNote relatedNotes in
  addBacklinksToZettels once newNote relatedNotes = once
  ∧ Forall (linksBack newNote once) relatedNotes.
Proof.
  intros H. cbv zeta.
  pose proof (addBacklinksToZettels_links newNote vault relatedNotes H) as Hl.
  split; [by apply addBacklinksToZettels_same|done].
Qed.

Lemma backlinks_idempotent_without_dollar_witness :
  dollarFree (basename plainNote) = true
  ∧ addBacklinksToZettels
      (addBacklinksToZettels plainVault plainNote [foundOldIdea])
      plainNote [foundOldIdea]
    = addBacklinksToZettels plainVault plainNote [foundOldIdea].
Proof.
  split; [reflexivity|].
  exact (proj1 (backlinks_idempotent_without_dollar plainVault plainNote
                  [foundOldIdea] eq_refl)).
Defined.

(** In that scenario the related document holds one link to the new
    note after one run and after two. *)
Example backlink_single_entry_scenario :
  let once := addBacklinksToZettels plainVault plainNote [foundOldIdea] in
  let twice := addBacklinksToZettels once plainNote [foundOldIdea] in
  let links (vault : Vault) :=
    from_option (λ doc, occurrences doc (wikiLink (basename plainNote))) 0%nat
      (vault !! ni_path oldIdea) in
  (links plainVault, links once, links twice) = (0, 1, 1)%nat.
Proof. vm_compute. reflexivity. Qed.

(** X2: when the names of the new note and of the related notes hold no dollar
    sign, the new document exists, and the related notes have documents
    other than the new one, the two link steps succeed and leave, for every
    related note, a link to it in the new document and a link to the new
    note in its document. *)
Theorem links_bidirectional_without_dollar (vault : Vault) (newFile : TFile)
    (relatedZettels : list RelatedNote) :
  dollarFree (basename newFile) = true →
  is_Some (vault !! path newFile) →
  Forall (λ r, dollarFree (linkNameOf r) = true
               ∧ is_Some (vault !! ni_path (rn_note r))
               ∧ ni_path (rn_note r) ≠ path newFile) relatedZettels →
  ∃ vault',
    linkNewZettel vault newFile relatedZettels = Some vault'
    ∧ Forall (λ r,
        (∃ doc, vault' !! path newFile = Some doc
                ∧ includes doc (wikiLink (linkNameOf r)) = true)
        ∧ (∃ doc, vault' !! ni_path (rn_note r) = Some doc
                  ∧ includes doc (wikiLink (basename newFile)) = true))
        relatedZettels.
Proof.
  intros Hfree [content Hc] Hrs. unfold linkNewZettel.
  case_bool_decide as Hnil; [subst; by exists vault|].
  unfold addZKRelatedLinks. rewrite bool_decide_eq_false_2 by done. rewrite Hc.
  eexists. split; [done|].
  set (linked := <[path newFile := _]> vault).
  pose proof (addBacklinksToZettels_links newFile linked relatedZettels Hfree) as Hback.
  rewrite Forall_forall in Hrs, Hback. apply Forall_forall. intros r Hr.
  destruct (Hrs r Hr) as (Hname & Hsome & Hne). split.
  - rewrite addBacklinksToZettels_lookup.
    + subst linked. rewrite lookup_insert_eq. eexists. split; [done|].
      by apply insertLinks_related.
    + intros r' Hr'. by destruct (Hrs r' Hr') as (_ & _ & ?).
  - specialize (Hback r Hr). unfold linksBack in Hback.
    destruct (addBacklinksToZettels_is_Some newFile linked relatedZettels
                (ni_path (rn_note r))) as [doc Hdoc].
    { subst linked. by rewrite lookup_insert_ne. }
    rewrite Hdoc in Hback. by exists doc.
Qed.

Lemma links_bidirectional_without_dollar_witness :
  ∃ vault',
    linkNewZettel plainVault plainNote [foundOldIdea] = Some vault'
    ∧ Forall (λ r,
        (∃ doc, vault' !! path plainNote = Some doc
                ∧ includes doc (wikiLink (linkNameOf r)) = true)
        ∧ (∃ doc, vault' !! ni_path (rn_note r) = Some doc
                  ∧ includes doc (wikiLink (basename plainNote)) = true))
        [foundOldIdea].
Proof.
  apply (links_bidirectional_without_dollar plainVault plainNote [foundOldIdea]).
  - reflexivity.
  - eexists. vm_compute. reflexivity.
  - constructor; [|constructor]. split; [reflexivity|]. split.
    + eexists. vm_compute. reflexivity.
    + discriminate.
Defined.

(** C1, on a title that holds [$1]: the link to the related note is put in
    the new document, but what is put in the related note's document is not
    a link to the new note: the new note's name is part of the replacement
    text of [String.prototype.replace], where [$1] stands for the first
    group of the match. *)
Theorem backlink_mangled_by_dollar_title :
  (λ vault,
     (from_option (λ doc, includes doc "[[20260101-007 Old idea]]") false
        (vault !! path dollarNote),
      from_option (λ doc, includes doc ("[[" +:+ basename dollarNote +:+ "]]")) false
        (vault !! ni_path oldIdea)))
  <$> linkNewZettel dollarVault dollarNote [foundOldIdea]
  = Some (true, false).
Proof. vm_compute. reflexivity. Qed.

(** C6, on the same title: each run of [addBacklinksToZettels] writes to
    the related document again, since what the run before wrote holds no
    link to the new note for the guard to find.  The entries counted are the
    places where a list item opens a link on the head of the new note's
    name: none before, one after the first run, three after the second (the
    second run's entry repeats the section, with the first run's entry); a
    whole link to the new note is found at no moment. *)
Theorem backlink_repeated_by_dollar_title :
  let once := addBacklinksToZettels dollarVault dollarNote [foundOldIdea] in
  let twice := addBacklinksToZettels once dollarNote [foundOldIdea] in
  let entries (vault : Vault) :=
    from_option (λ doc, occurrences doc "- [[20260102-001 The ") 0%nat
      (vault !! ni_path oldIdea) in
  let links (vault : Vault) :=
    from_option (λ doc, occurrences doc ("[[" +:+ basename dollarNote +:+ "]]")) 0%nat
      (vault !! ni_path oldIdea) in
  (entries dollarVault, entries once, entries twice) = (0, 1, 3)%nat
  ∧ (links dollarVault, links once, links twice) = (0, 0, 0)%nat.
Proof. vm_compute. split; reflexivity. Qed.

End LinkFacts.

Module InsertFacts.

Import Js Engine Statements InsertStatements.

Lemma app_nil_inv (a b : string) : "" = a +:+ b → b = "".
Proof. by destruct a, b. Qed.

(** What the lazy part takes: the shortest text followed by the close of a
    section. *)
Lemma lazyBody_shortest (rest : string) :
  rest = (lazyBody rest).1.1 +:+ (lazyBody rest).1.2 +:+ (lazyBody rest).2
  ∧ closesSection ((lazyBody rest).1.2 +:+ (lazyBody rest).2)
  ∧ (∀ b1 b2, (lazyBody rest).1.1 = b1 +:+ b2 → b2 ≠ "" →
              ¬ closesSection (b2 +:+ (lazyBody rest).1.2 +:+ (lazyBody rest).2)).
Proof.
  induction rest as [|c rest IH].
  - cbn. split; [done|]. split; [by right|].
    intros b1 b2 E%app_nil_inv. done.
  - cbn [lazyBody].
    destruct (startsWith (String c rest) sectionEnd) eqn:Hend.
    { cbn [fst snd]. split; [by apply JsFacts.startsWith_drop|]. split.
      - left. by rewrite <- JsFacts.startsWith_drop.
      - intros b1 b2 E%app_nil_inv. done. }
    destruct (allNewlines (String c rest)) eqn:Hnl.
    { cbn [fst snd]. split; [by rewrite JsFacts.app_nil_r|]. split.
      - right. by rewrite JsFacts.app_nil_r.
      - intros b1 b2 E%app_nil_inv. done. }
    destruct (lazyBody rest) as [[taken group2] after]. cbn [fst snd] in *.
    destruct IH as (IH1 & IH2 & IH3). split; [|split; [done|]].
    + cbn [String.append]. by rewrite <- IH1.
    + intros b1 b2 E Hb2. destruct b1 as [|c' b1].
      * cbn [String.append] in E. subst b2. cbn [String.append].
        rewrite <- IH1. intros [H|H]; congruence.
      * cbn [String.append] in E. injection E as _ E. by apply (IH3 b1 b2).
Qed.

Lemma matchLinkedSection_first (content : string) (m : Match) :
  matchLinkedSection content = Some m →
  ∃ body,
    m_group1 m = sectionHeader +:+ body
    ∧ content = m_before m +:+ sectionHeader +:+ body
                  +:+ m_group2 m +:+ m_after m
    ∧ (∀ x y, content = x +:+ sectionHeader +:+ y →
              (String.length (m_before m) ≤ String.length x)%nat)
    ∧ closesSection (m_group2 m +:+ m_after m)
    ∧ (∀ b1 b2, body = b1 +:+ b2 → b2 ≠ "" →
                ¬ closesSection (b2 +:+ m_group2 m +:+ m_after m)).
Proof.
  revert m. induction content as [|c content IH]; intros m.
  - cbn [matchLinkedSection].
    destruct (startsWith "" sectionHeader) eqn:E; [by vm_compute in E|done].
  - cbn [matchLinkedSection].
    destruct (startsWith (String c content) sectionHeader) eqn:Hhead.
    + pose proof (lazyBody_shortest (drop (String.length sectionHeader)
                                       (String c content))) as (Hs & Hend & Hmin).
      destruct (lazyBody _) as [[taken group2] after]. cbn [fst snd] in *.
      intros [= <-]. cbn [m_before m_group1 m_group2 m_after].
      exists taken. split; [done|]. split; [|split; [|done]].
      * change (String c content
                = sectionHeader +:+ taken +:+ group2 +:+ after).
        rewrite <- Hs. by apply JsFacts.startsWith_drop.
      * intros x y _. cbn. lia.
    + destruct (matchLinkedSection content) as [m'|]; [|done].
      intros [= <-]. cbn [m_before m_group1 m_group2 m_after].
      destruct (IH m' eq_refl) as (body & H1 & H2 & H3 & H4 & H5).
      exists body. split; [done|]. split; [|split; [|done]].
      * cbn [String.append]. by rewrite <- H2.
      * intros x y E. destruct x as [|c' x].
        { cbn [String.append] in E. rewrite E, JsFacts.startsWith_app in Hhead.
          done. }
        cbn [String.append] in E. injection E as _ E.
        cbn [String.length]. specialize (H3 x y E). lia.
Qed.

Lemma matchLinkedSection_None (content : string) :
  matchLinkedSection content = None ↔ includes content sectionHeader = false.
Proof.
  induction content as [|c content IH].
  - by vm_compute.
  - cbn [matchLinkedSection includes].
    destruct (startsWith (String c content) sectionHeader).
    + destruct (lazyBody _) as [[? ?] ?]. by split.
    + rewrite orb_false_l, <- IH.
      destruct (matchLinkedSection content); by split.
Qed.

Lemma getSubstitution_group2 (m : Match) : getSubstitution m "$2" = m_group2 m.
Proof. cbn. apply JsFacts.app_nil_r. Qed.

(** X3: a text without a dollar sign is put, after a line feed, at the
    end of the first linked-notes section of a note that has one: the
    section that starts at the first header of the note and ends at the
    first place after it where a line feed and three dashes come next or
    only line feeds are left.  In a note without a header it is put in a
    new section at the end.  The rest of the note is unchanged. *)
Theorem insertLinks_only_inserts (content links : string) :
  dollarFree links = true →
  if includes content sectionHeader then
    insertedInFirstSection content (nl +:+ links) (insertLinks content links)
  else
    insertLinks content links = content +:+ nl +:+ sectionHeader +:+ links +:+ nl.
Proof.
  intros Hfree. unfold insertLinks, replaceLinkedSection.
  destruct (includes content sectionHeader) eqn:Hinc.
  - destruct (matchLinkedSection content) as [m|] eqn:Hm.
    2:{ apply matchLinkedSection_None in Hm. congruence. }
    destruct (matchLinkedSection_first content m Hm)
      as (body & Hg1 & Hsplit & Hfirst & Hend & Hmin).
    exists (m_before m), body, (m_group2 m +:+ m_after m).
    split; [done|]. split; [|done].
    rewrite LinkFacts.getSubstitution_group1,
      LinkFacts.getSubstitution_literal, getSubstitution_group2 by done.
    rewrite Hg1. by rewrite !JsFacts.app_assoc.
  - apply matchLinkedSection_None in Hinc. rewrite Hinc.
    unfold sectionHeader. by rewrite !JsFacts.app_assoc.
Qed.

Lemma insertLinks_only_inserts_witness :
  insertedInFirstSection
    ("# Old idea" +:+ nl +:+ nl +:+ sectionHeader +:+ "- [[Inbox]] (원본)" +:+ nl
       +:+ nl +:+ sectionHeader +:+ "- [[Other]]" +:+ nl)
    (nl +:+ "- [[20260102-001 Plain note]] (80%)")
    (insertLinks
       ("# Old idea" +:+ nl +:+ nl +:+ sectionHeader +:+ "- [[Inbox]] (원본)" +:+ nl
          +:+ nl +:+ sectionHeader +:+ "- [[Other]]" +:+ nl)
       "- [[20260102-001 Plain note]] (80%)").
Proof.
  apply (insertLinks_only_inserts
           ("# Old idea" +:+ nl +:+ nl +:+ sectionHeader +:+ "- [[Inbox]] (원본)"
              +:+ nl +:+ nl +:+ sectionHeader +:+ "- [[Other]]" +:+ nl)
           "- [[20260102-001 Plain note]] (80%)").
  reflexivity.
Defined.

End InsertFacts.

Module FrameFacts.
Import Js Engine Statements.

(** X22: the two link steps never remove a document and write to no
    document other than the new note's and the related notes'. *)
Theorem link_steps_frame (vault vault' : Vault) (newFile : TFile)
    (relatedZettels : list RelatedNote) :
  linkNewZettel vault newFile relatedZettels = Some vault' →
  (∀ p, is_Some (vault !! p) → is_Some (vault' !! p))
  ∧ (∀ p, p ≠ path newFile →
          (∀ r, r ∈ relatedZettels → ni_path (rn_note r) ≠ p) →
          vault' !! p = vault !! p).
Proof.
  unfold linkNewZettel, addZKRelatedLinks.
  case_bool_decide as Hnil; [by intros [= <-]|].
  destruct (vault !! path newFile) as [content|] eqn:Hnew; [|done].
  intros [= <-]. split.
  - intros p Hp. apply LinkFacts.addBacklinksToZettels_is_Some.
    destruct (decide (p = path newFile)) as [->|Hne].
    + rewrite lookup_insert_eq. by eexists.
    + by rewrite lookup_insert_ne.
  - intros p Hne Hothers.
    rewrite LinkFacts.addBacklinksToZettels_lookup by done.
    by rewrite lookup_insert_ne.
Qed.

Lemma link_steps_frame_witness :
  ∃ vault',
    linkNewZettel Scenarios.plainVault Scenarios.plainNote [Scenarios.foundOldIdea]
    = Some vault'
    ∧ (∀ p, is_Some (Scenarios.plainVault !! p) → is_Some (vault' !! p)).
Proof.
  destruct (linkNewZettel Scenarios.plainVault Scenarios.plainNote
              [Scenarios.foundOldIdea]) as [vault'|] eqn:E;
    [|vm_compute in E; discriminate].
  exists vault'. split; [reflexivity|].
  exact (proj1 (link_steps_frame _ _ _ _ E)).
Defined.

End FrameFacts.

Module MappingResultFacts.
Import Finder MoreStatements.

Lemma whole_value (i : Q) : isWhole i = true → (i == inject_Z (Qnum (Qred i)))%Q.
Proof.
  unfold isWhole. intros H%Pos.eqb_eq.
  rewrite <- (Qred_correct i) at 1.
  destruct (Qred i) as [n d]. simpl in *. subst. reflexivity.
Qed.

Lemma arrayGet_whole {A} (l : list A) (i : Q) :
  inRange (length l) i = true → isWhole i = true →
  ∃ x, arrayGet l i = Some x ∧ l !! placeOf i = Some x.
Proof.
  intros Hr Hw. pose proof (whole_value i Hw) as Hv.
  unfold inRange in Hr. apply andb_true_iff in Hr as [H0 Hn].
  apply Qle_bool_iff in H0. apply negb_true_iff in Hn.
  assert (¬ (inject_Z (Z.of_nat (length l)) <= i)%Q) as Hlt.
  { intros Hle%Qle_bool_iff. congruence. }
  rewrite Hv in H0, Hlt. change 0%Q with (inject_Z 0) in H0.
  rewrite <- Zle_Qle in H0, Hlt.
  destruct (lookup_lt_is_Some_2 l (placeOf i)) as [x Hx].
  { unfold placeOf. lia. }
  exists x. split; [|done]. unfold arrayGet. fold (isWhole i). rewrite Hw.
  simpl. destruct (Z.leb_spec 0 (Qnum (Qred i))); [done|lia].
Qed.

Lemma arrayGet_fraction {A} (l : list A) (i : Q) :
  isWhole i = false → arrayGet l i = None.
Proof. unfold arrayGet. fold (isWhole i). by intros ->. Qed.

(** What the mapping returns, when it returns: one record for each entry
    in range, in the order of the entries, made of the candidate at the
    entry's index. *)
Lemma mapAiResults_Some_inv (candidates : list Candidate) (aiResults : list AiResult)
    (results : list RelatedNote) :
  mapAiResults candidates aiResults = Some results →
  Forall2 (λ r res, ∃ c, candidates !! placeOf (ai_index r) = Some c
                         ∧ res = relatedOf c r)
    (List.filter (λ r, inRange (length candidates) (ai_index r)) aiResults) results.
Proof.
  revert results. induction aiResults as [|r rs IH]; intros results H; simpl in *.
  - injection H as <-. constructor.
  - destruct (inRange (length candidates) (ai_index r)) eqn:Hr; [|by apply IH].
    destruct (arrayGet candidates (ai_index r)) as [c|] eqn:Hc; [|done].
    destruct (mapAiResults candidates rs) as [more|]; [|done].
    injection H as <-. constructor; [|by apply IH].
    exists c. split; [|done]. unfold arrayGet in Hc.
    destruct (_ && _); [done|discriminate].
Qed.

(** X4: when every index in range is an integer, the mapping returns, and
    gives one record for each entry in range, in the order of the entries,
    made of the candidate at the entry's index and of the entry's relevance,
    reason and type. *)
Theorem mapAiResults_whole_indices (candidates : list Candidate)
    (aiResults : list AiResult) :
  Forall (λ r, inRange (length candidates) (ai_index r) = true
               → isWhole (ai_index r) = true) aiResults →
  ∃ results,
    mapAiResults candidates aiResults = Some results
    ∧ Forall2 (λ r res, ∃ c, candidates !! placeOf (ai_index r) = Some c
                             ∧ res = relatedOf c r)
        (List.filter (λ r, inRange (length candidates) (ai_index r)) aiResults)
        results.
Proof.
  intros H.
  assert (is_Some (mapAiResults candidates aiResults)) as [results Hres].
  { induction H as [|r rs Hr Hrs IH]; simpl; [by eexists|].
    destruct (inRange (length candidates) (ai_index r)) eqn:Hin; [|done].
    destruct (arrayGet_whole candidates (ai_index r) Hin (Hr eq_refl))
      as (c & -> & _).
    destruct IH as [more ->]. by eexists. }
  exists results. split; [done|]. by apply mapAiResults_Some_inv.
Qed.

Lemma mapAiResults_whole_indices_witness :
  ∃ results,
    mapAiResults
      (filterByKeywords Scenarios.toLowerCaseAscii Scenarios.sensorIndex ["sensor"] None)
      [Build_AiResult 1 (9 # 10) (Some "both on sensors") None;
       Build_AiResult 7 (7 # 10) None None] = Some results
    ∧ Forall2 (λ r res,
        ∃ c, filterByKeywords Scenarios.toLowerCaseAscii Scenarios.sensorIndex ["sensor"] None
               !! placeOf (ai_index r) = Some c
             ∧ res = relatedOf c r)
        (List.filter
           (λ r, inRange (length (filterByKeywords Scenarios.toLowerCaseAscii Scenarios.sensorIndex
                                    ["sensor"] None)) (ai_index r))
           [Build_AiResult 1 (9 # 10) (Some "both on sensors") None;
            Build_AiResult 7 (7 # 10) None None])
        results.
Proof.
  apply mapAiResults_whole_indices.
  repeat constructor; intros _; reflexivity.
Defined.

(** X5: when some index in range is not an integer, the mapping raises,
    whatever the other entries are. *)
Theorem mapAiResults_fraction_raises (candidates : list Candidate)
    (aiResults : list AiResult) :
  Exists (λ r, inRange (length candidates) (ai_index r) = true
               ∧ isWhole (ai_index r) = false) aiResults →
  mapAiResults candidates aiResults = None.
Proof.
  induction 1 as [r rs [Hin Hw]|r rs _ IH]; simpl.
  - by rewrite Hin, (arrayGet_fraction _ _ Hw).
  - rewrite IH. destruct (inRange _ _); [|done]. by destruct (arrayGet _ _).
Qed.

Lemma mapAiResults_fraction_raises_witness :
  mapAiResults
    (filterByKeywords Scenarios.toLowerCaseAscii Scenarios.sensorIndex ["sensor"] None)
    [Build_AiResult 7 (7 # 10) None None;
     Build_AiResult (1 # 2) (9 # 10) None None] = None.
Proof.
  apply mapAiResults_fraction_raises.
  apply Exists_cons_tl, Exists_cons_hd. split; reflexivity.
Defined.

Lemma Forall2_sources {A B} (R : A → B → Prop) (l : list A) (k : list B) :
  Forall2 R l k → Forall (λ y, ∃ x, x ∈ l ∧ R x y) k.
Proof.
  induction 1 as [|x y l k Hxy _ IH]; constructor.
  - exists x. split; [by left|done].
  - eapply Forall_impl; [exact IH|]. intros z (w & ? & ?). exists w.
    split; [by right|done].
Qed.

Lemma zettel_candidates_good (toLowerCase : string → string)
    (index : Index) (keywords : list string)
    (excludePath : option string) :
  excludePath ≠ Some "" →
  Forall (λ c, Statements.goodCandidate toLowerCase index keywords excludePath c
               ∧ ni_type (cand_note c) = Some "zettel")
    (filterZettelsByKeywords toLowerCase keywords (getZettelIndex index) excludePath).
Proof.
  intros Hne.
  pose proof (PrefilterFacts.collectCandidates_good toLowerCase
                (getZettelIndex index)
                keywords excludePath Hne) as Hz.
  destruct (PrefilterFacts.top_ten_good _ _ _ _ _ Hz) as (_ & Hgood & _).
  eapply Forall_impl; [exact Hgood|].
  intros c ((path & Hin & Hex) & Hk & Hm & Hall).
  apply PrefilterFacts.getZettelIndex_subset in Hin as [Hin Hty].
  split; [|done]. split; [by exists path|done].
Qed.

Lemma findRelatedZettels_sources (toLowerCase : string → string)
    (index : Index) (keywords : list string)
    (excludePath : option string) (aiResults : list AiResult)
    (results : list RelatedNote) :
  excludePath ≠ Some "" →
  findRelatedZettels toLowerCase index keywords excludePath aiResults = Some results →
  (length results ≤ length aiResults)%nat
  ∧ Forall (λ res,
      ni_type (rn_note res) = Some "zettel"
      ∧ (∃ path, (path, rn_note res) ∈ index ∧ Some path ≠ excludePath)
      ∧ ∃ r, r ∈ aiResults ∧ rn_relevance res = ai_relevance r) results.
Proof.
  intros Hne H. unfold findRelatedZettels in H.
  assert ((0 ≤ length aiResults)%nat ∧ Forall (λ res : RelatedNote,
      ni_type (rn_note res) = Some "zettel"
      ∧ (∃ path, (path, rn_note res) ∈ index ∧ Some path ≠ excludePath)
      ∧ ∃ r, r ∈ aiResults ∧ rn_relevance res = ai_relevance r) []) as Hnil.
  { split; [lia|constructor]. }
  case_bool_decide; [by injection H as <-|].
  case_bool_decide; [by injection H as <-|].
  case_bool_decide; [by injection H as <-|].
  apply mapAiResults_Some_inv in H.
  pose proof (zettel_candidates_good toLowerCase index keywords excludePath Hne)
    as Hgood.
  set (candidates := filterZettelsByKeywords toLowerCase _ _ _) in *.
  split.
  - rewrite <- (Forall2_length _ _ _ H). apply List.filter_length_le.
  - rewrite Forall_forall in Hgood.
    eapply Forall_impl; [exact (Forall2_sources _ _ _ H)|].
    intros res (r & Hr & c & Hc & ->).
    apply list_elem_of_In, filter_In in Hr as [Hr _].
    destruct (Hgood c) as (((path & Hin & Hex) & _) & Hty).
    { by eapply list_elem_of_lookup_2. }
    repeat split; simpl; [done|by exists path|].
    exists r. split; [by apply list_elem_of_In|done].
Qed.

(** X6: what [findRelatedZettels] returns, when it returns: at most one
    record per entry of the classifier, each for a Zettel note of the index
    stored under a path other than the excluded one, with the relevance of
    an entry of the classifier. *)
Theorem findRelatedZettels_results (toLowerCase : string → string)
    (index : Index) (keywords : list string)
    (excludePath : option string) (aiResults : list AiResult)
    (results : list RelatedNote) :
  excludePath ≠ Some "" →
  findRelatedZettels toLowerCase index keywords excludePath aiResults = Some results →
  (length results ≤ length aiResults)%nat
  ∧ Forall (λ res,
      ni_type (rn_note res) = Some "zettel"
      ∧ (∃ path, (path, rn_note res) ∈ index ∧ Some path ≠ excludePath)
      ∧ ∃ r, r ∈ aiResults ∧ rn_relevance res = ai_relevance r) results.
Proof. apply findRelatedZettels_sources. Qed.

Lemma findRelatedZettels_results_witness :
  ∃ results,
    findRelatedZettels Scenarios.toLowerCaseAscii Scenarios.reseedIndex ["sensor"]
      (Some "10 Zettelkasten/20260102-001 Sensor drift.md")
      [Build_AiResult 0 (9 # 10) (Some "both on sensors") None;
       Build_AiResult 4 (7 # 10) None None] = Some results
    ∧ (length results ≤ 2)%nat.
Proof.
  assert (Some "10 Zettelkasten/20260102-001 Sensor drift.md" ≠ Some "") as Hne
    by discriminate.
  destruct (findRelatedZettels Scenarios.toLowerCaseAscii Scenarios.reseedIndex ["sensor"]
              (Some "10 Zettelkasten/20260102-001 Sensor drift.md")
              [Build_AiResult 0 (9 # 10) (Some "both on sensors") None;
               Build_AiResult 4 (7 # 10) None None]) as [results|] eqn:E;
    [|vm_compute in E; discriminate].
  exists results. split; [reflexivity|].
  exact (proj1 (findRelatedZettels_results _ _ _ _ _ _ Hne E)).
Defined.

End MappingResultFacts.

Module PrefilterCompleteFacts.
Import Finder Statements.

Lemma newSet_elem_of (x : string) (xs : list string) : x ∈ newSet xs ↔ x ∈ xs.
Proof.
  split; [apply PrefilterFacts.elem_of_newSet|].
  induction xs as [|y xs IH]; [done|]. simpl.
  intros [->|Hin]%elem_of_cons; [by left|].
  destruct (decide (x = y)) as [->|Hne]; [by left|].
  right. apply list_elem_of_filter. auto.
Qed.

Lemma newSet_NoDup (xs : list string) : NoDup (newSet xs).
Proof.
  induction xs as [|y xs IH]; simpl; constructor.
  - rewrite list_elem_of_filter. tauto.
  - by apply NoDup_filter.
Qed.

Lemma occurs_keywordMatches (a b : string) :
  occursEitherWay a b → keywordMatches a b = true.
Proof.
  unfold keywordMatches. intros [(x & y & ->)|(x & y & ->)].
  - rewrite JsFacts.includes_intro. by rewrite orb_true_r.
  - rewrite JsFacts.includes_intro. by rewrite orb_true_r.
Qed.

Lemma matchesSome_intro (toLowerCase : string → string)
    (keywords : list string) (k q : string) :
  q ∈ keywords → occursEitherWay (toLowerCase k) (toLowerCase q) →
  matchesSome toLowerCase (newSet (map toLowerCase keywords)) k = true.
Proof.
  intros Hq Hm. unfold matchesSome. apply existsb_exists.
  exists (toLowerCase q). split; [|by apply occurs_keywordMatches].
  apply list_elem_of_In, newSet_elem_of, list_elem_of_In, in_map.
  by apply list_elem_of_In.
Qed.

Lemma isExcluded_other (excludePath : option string) (path : string) :
  Some path ≠ excludePath → isExcluded excludePath path = false.
Proof.
  intros H. destruct excludePath as [p|]; [|done]. simpl.
  rewrite (bool_decide_eq_false_2 (path = p)) by congruence.
  by rewrite andb_false_r.
Qed.

Lemma collectCandidates_complete (toLowerCase : string → string)
    (index : Index) (keywords : list string)
    (excludePath : option string) (path : string) (note : NoteIndex) (k q : string) :
  (path, note) ∈ index → Some path ≠ excludePath →
  k ∈ ni_keywords note → q ∈ keywords →
  occursEitherWay (toLowerCase k) (toLowerCase q) →
  ∃ c, c ∈ collectCandidates toLowerCase (newSet (map toLowerCase keywords)) excludePath index
       ∧ cand_note c = note.
Proof.
  intros Hin Hex Hk Hq Hm.
  induction index as [|[p n] index IH]; [by apply elem_of_nil in Hin|].
  apply elem_of_cons in Hin as [[= <- <-]|Hin]; simpl.
  - rewrite isExcluded_other by done.
    assert (k ∈ List.filter (matchesSome toLowerCase (newSet (map toLowerCase keywords)))
                  (ni_keywords note)) as Hkm.
    { apply list_elem_of_In, filter_In. split; [by apply list_elem_of_In|].
      by eapply matchesSome_intro. }
    case_bool_decide as Hnil; [rewrite Hnil in Hk; by apply elem_of_nil in Hk|].
    case_bool_decide as Hnil'; [rewrite Hnil' in Hkm; by apply elem_of_nil in Hkm|].
    eexists. split; [by left|done].
  - destruct (IH Hin) as (c & Hc & <-).
    exists c. split; [|done].
    destruct (isExcluded excludePath p); [done|].
    repeat case_bool_decide; try done. by right.
Qed.

(** X7: when the prefilter returns fewer than 10 candidates it has left none
    out: every note of the index stored under a path other than the excluded
    one, one of whose keywords matches a query keyword (one text occurring
    in the other once both are mapped by [toLowerCase], whatever that
    mapping is), is among them. *)
Theorem prefilter_complete_below_ten (toLowerCase : string → string)
    (index : Index) (keywords : list string)
    (excludePath : option string) (path : string) (note : NoteIndex) (k q : string) :
  (length (filterByKeywords toLowerCase index keywords excludePath) < 10)%nat →
  (path, note) ∈ index → Some path ≠ excludePath →
  k ∈ ni_keywords note → q ∈ keywords →
  occursEitherWay (toLowerCase k) (toLowerCase q) →
  ∃ c, c ∈ filterByKeywords toLowerCase index keywords excludePath ∧ cand_note c = note.
Proof.
  intros Hlen Hin Hex Hk Hq Hm. unfold filterByKeywords in *.
  destruct (collectCandidates_complete toLowerCase index keywords excludePath
              path note k q)
    as (c & Hc & Hnote); try done.
  exists c. split; [|done].
  rewrite length_take in Hlen. rewrite take_ge by lia.
  by rewrite SortFacts.sort_Permutation.
Qed.

Lemma prefilter_complete_below_ten_witness :
  ∃ c, c ∈ filterByKeywords Scenarios.toLowerCaseAscii Scenarios.sensorIndex ["sensor"]
             (Some "02 Library/Thermometer.md")
       ∧ cand_note c = (Scenarios.plainAt "02 Library/Lidar.md" "Lidar" ["Sensor"]).2.
Proof.
  apply (prefilter_complete_below_ten Scenarios.toLowerCaseAscii
           Scenarios.sensorIndex ["sensor"]
           (Some "02 Library/Thermometer.md") "02 Library/Lidar.md" _
           "Sensor" "sensor").
  - vm_compute. lia.
  - unfold Scenarios.sensorIndex. set_solver.
  - discriminate.
  - simpl. set_solver.
  - set_solver.
  - left. by exists "", "".
Defined.

End PrefilterCompleteFacts.

Module IndexFacts.
Import Finder Engine IndexStore IndexStatements MoreStatements.

Lemma mapSet_keys (key : string) (value : NoteIndex) (index : Index) (k : string) :
  k ∈ map fst (mapSet key value index) ↔ k = key ∨ k ∈ map fst index.
Proof.
  induction index as [|[k' v'] rest IH]; cbn [mapSet map fst].
  - rewrite elem_of_cons, elem_of_nil. tauto.
  - destruct (decide (k' = key)) as [->|Hne]; cbn [map fst].
    + rewrite !elem_of_cons. tauto.
    + rewrite !elem_of_cons, IH. tauto.
Qed.

Lemma mapSet_NoDup (key : string) (value : NoteIndex) (index : Index) :
  NoDup (map fst index) → NoDup (map fst (mapSet key value index)).
Proof.
  induction index as [|[k v] rest IH]; cbn [mapSet map fst]; intros Hnodup.
  { constructor; [apply not_elem_of_nil|constructor]. }
  apply NoDup_cons in Hnodup as [Hk Hrest].
  destruct (decide (k = key)) as [->|Hne]; cbn [map fst].
  - by constructor.
  - constructor; [|by apply IH]. rewrite mapSet_keys. by intros [?|?].
Qed.

Lemma mapSet_keyed (key : string) (value : NoteIndex) (index : Index) :
  ni_path value = key → keyedByPath index → keyedByPath (mapSet key value index).
Proof.
  intros Hkey [Hnodup Hall]. split; [by apply mapSet_NoDup|].
  clear Hnodup. induction Hall as [|[k v] rest Hkv Hrest IH]; cbn [mapSet].
  { by repeat constructor. }
  destruct (decide (k = key)); by constructor.
Qed.

Lemma mapSet_elem_of (key : string) (value : NoteIndex) (index : Index) :
  (key, value) ∈ mapSet key value index.
Proof.
  induction index as [|[k v] rest IH]; cbn [mapSet]; [by left|].
  destruct (decide (k = key)); [by left|by right].
Qed.

Lemma mapDelete_keys (key : string) (index : Index) (k : string) :
  k ∈ map fst (mapDelete key index) ↔ k ≠ key ∧ k ∈ map fst index.
Proof.
  unfold mapDelete. rewrite !list_elem_of_fmap. split.
  - intros (e & -> & [He Hin]%list_elem_of_filter). split; [done|by exists e].
  - intros (Hne & e & -> & Hin). exists e. split; [done|].
    by apply list_elem_of_filter.
Qed.

Lemma mapDelete_keyed (key : string) (index : Index) :
  keyedByPath index → keyedByPath (mapDelete key index).
Proof.
  intros [Hnodup Hall]. split.
  2:{ apply Forall_forall. intros e [_ He]%list_elem_of_filter.
      rewrite Forall_forall in Hall. by apply Hall. }
  clear Hall. induction index as [|[k v] rest IH]; [constructor|].
  cbn [map fst] in Hnodup. apply NoDup_cons in Hnodup as [Hk Hrest].
  unfold mapDelete in *. rewrite filter_cons. cbn [fst].
  destruct (decide (k ≠ key)); [|by apply IH].
  cbn [map fst]. constructor; [|by apply IH].
  intros Hin. apply Hk. by apply (mapDelete_keys key rest k) in Hin as [_ ?].
Qed.

(** X8: the index built from the files of the vault holds each path once,
    each entry under the path it records; an update and a removal keep it
    so; after an update the file's record is in the index, and after a
    removal the path is not. *)
Theorem index_keyed_by_path (files : list (TFile * option Frontmatter)) :
  keyedByPath (buildIndex files)
  ∧ ∀ index file frontmatter path,
      keyedByPath index →
      keyedByPath (updateIndex file frontmatter index)
      ∧ keyedByPath (removeFromIndex path index)
      ∧ (Engine.path file, indexNote file frontmatter)
        ∈ updateIndex file frontmatter index
      ∧ path ∉ map fst (removeFromIndex path index).
Proof.
  split.
  - unfold buildIndex.
    assert (keyedByPath []) as Hnil by (split; constructor).
    revert Hnil. generalize ([] : Index).
    induction files as [|[file fm] files IH]; intros index Hk; [done|].
    cbn [foldl]. apply IH. by apply mapSet_keyed.
  - intros index file fm p Hk. split; [by apply mapSet_keyed|].
    split; [by apply mapDelete_keyed|]. split; [apply mapSet_elem_of|].
    unfold removeFromIndex. rewrite mapDelete_keys. by intros [? _].
Qed.

(** X9: in the create path, the search made after the new note was put in
    the index, with the note's path excluded, never returns the new note
    itself. *)
Theorem new_note_not_its_own_relative (toLowerCase : string → string)
    (index : Index) (newFile : TFile)
    (frontmatter : option Frontmatter) (keywords : list string)
    (aiResults : list AiResult) (results : list RelatedNote) :
  keyedByPath index → path newFile ≠ "" →
  findRelatedZettels toLowerCase (updateIndex newFile frontmatter index) keywords
    (Some (path newFile)) aiResults = Some results →
  Forall (λ r, ni_path (rn_note r) ≠ path newFile) results.
Proof.
  intros Hk Hne H.
  assert (keyedByPath (updateIndex newFile frontmatter index)) as [_ Hall]
    by by apply mapSet_keyed.
  apply MappingResultFacts.findRelatedZettels_sources in H as [_ H];
    [|congruence].
  eapply Forall_impl; [exact H|].
  intros r (_ & (p & Hin & Hex) & _) E.
  rewrite Forall_forall in Hall. specialize (Hall _ Hin). cbn in Hall.
  congruence.
Qed.

Lemma new_note_not_its_own_relative_witness :
  ∃ results,
    findRelatedZettels Scenarios.toLowerCaseAscii
      (updateIndex
         {| path := "10 Zettelkasten/20260102-006 Sensor noise.md";
            basename := "20260102-006 Sensor noise" |}
         (Some {| fm_keywords := Some (KeywordList ["sensor"]);
                  fm_title := None; fm_project := None;
                  fm_type := Some "zettel" |})
         Scenarios.reseedIndex)
      ["sensor"]
      (Some "10 Zettelkasten/20260102-006 Sensor noise.md")
      [Build_AiResult 0 (9 # 10) None None; Build_AiResult 1 (7 # 10) None None]
    = Some results
    ∧ Forall (λ r, ni_path (rn_note r)
                   ≠ "10 Zettelkasten/20260102-006 Sensor noise.md") results.
Proof.
  eexists. split; [vm_compute; reflexivity|].
  apply (new_note_not_its_own_relative Scenarios.toLowerCaseAscii
           Scenarios.reseedIndex
           {| path := "10 Zettelkasten/20260102-006 Sensor noise.md";
              basename := "20260102-006 Sensor noise" |}
           (Some {| fm_keywords := Some (KeywordList ["sensor"]);
                    fm_title := None; fm_project := None;
                    fm_type := Some "zettel" |})
           ["sensor"]
           [Build_AiResult 0 (9 # 10) None None;
            Build_AiResult 1 (7 # 10) None None]).
  - split; [apply (bool_decide_unpack _); vm_compute; exact I|].
    repeat constructor.
  - discriminate.
  - vm_compute. reflexivity.
Defined.

End IndexFacts.

Module ParserEdgeFacts.
Import Gateway Statements MoreGatewayStatements.

Lemma getProp_not_null (item : json) (name : string) :
  isNull item = false → is_Some (getProp item name).
Proof. destruct item; simpl; try done; eauto. Qed.

Lemma keepScored_null (items : list json) :
  existsb isNull items = true → keepScored items = None.
Proof.
  induction items as [|item items IH]; [done|]. simpl.
  intros [H|H]%orb_true_iff.
  - by destruct item.
  - rewrite (IH H). destruct (isObject item); [|done].
    by repeat (destruct (getProp item _); [|done]).
Qed.

Lemma keepScored_total (items : list json) :
  existsb isNull items = false → is_Some (keepScored items).
Proof.
  induction items as [|item items IH]; [by eexists|]. simpl.
  intros [Hi Hr]%orb_false_iff. destruct (IH Hr) as [kept ->].
  destruct (isObject item); [|by eexists].
  destruct (getProp_not_null item "index" Hi) as [i ->].
  destruct (getProp_not_null item "relevance" Hi) as [r ->].
  destruct (getProp_not_null item "reason" Hi) as [reason ->].
  destruct (getProp_not_null item "type" Hi) as [ty ->].
  destruct i as [[]|]; try by eexists.
  destruct r as [[]|]; by eexists.
Qed.

Lemma keepScored_complete (items : list json) (scored : list Scored)
    (item : json) (i r : Q) :
  keepScored items = Some scored → item ∈ items →
  getProp item "index" = Some (Some (JNum i)) →
  getProp item "relevance" = Some (Some (JNum r)) →
  ∃ e, e ∈ scored ∧ sc_index e = i ∧ sc_relevance e = r.
Proof.
  intros H Hin Hi Hr. revert scored H.
  induction items as [|x items IH]; intros scored H; [by apply elem_of_nil in Hin|].
  simpl in H.
  assert (∀ kept, keepScored items = Some kept → item ∈ items →
                  ∃ e, e ∈ kept ∧ sc_index e = i ∧ sc_relevance e = r) as IH'.
  { intros kept Hk Hitem. by apply IH. }
  apply elem_of_cons in Hin as [E|Hin]; [subst x|].
  - assert (isObject item = true) as Hobj.
    { destruct item; simpl in *; try done; congruence. }
    rewrite Hobj, Hi, Hr in H.
    destruct (getProp item "reason"); [|done].
    destruct (getProp item "type"); [|done].
    destruct (keepScored items); [|done]. injection H as <-.
    eexists. split; [by left|done].
  - destruct (isObject x).
    + repeat (destruct (getProp x _) as [?|]; [|done]).
      destruct (keepScored items) as [kept|]; [|done].
      destruct (IH' kept eq_refl Hin) as (e & He & ?).
      exists e. split; [|done].
      repeat case_match; simplify_eq; try done; by right.
    + by apply IH'.
Qed.

#[local] Instance higherFirst_transitive :
  Transitive (λ a b : Scored, higherFirst a b = true).
Proof.
  intros a b c Hab Hbc. unfold higherFirst in *.
  apply Qle_bool_iff in Hab, Hbc. apply Qle_bool_iff. lra.
Qed.

(** X10: a null item in the classifier's array makes the type guard raise,
    and the whole answer is lost, the well-formed entries with it. *)
Theorem null_item_discards_related (items : list json) :
  existsb isNull items = true →
  parseRelatedNotesResponse (Json (JArr items)) = [].
Proof. intros H. simpl. by rewrite keepScored_null. Qed.

Lemma null_item_discards_related_witness :
  parseRelatedNotesResponse
    (Json (JArr [JObj [("index", JNum 0); ("relevance", JNum (9 # 10))]; JNull]))
  = [].
Proof. apply null_item_discards_related. reflexivity. Defined.

(** X11: without a null item, the truncation to five keeps the best: an item
    with a numeric index and a relevance of at least 0.5 is in the result, or
    the result has five entries, none less relevant than the item. *)
Theorem best_five_kept (items : list json) (item : json) (i r : Q) :
  existsb isNull items = false →
  item ∈ items →
  getProp item "index" = Some (Some (JNum i)) →
  getProp item "relevance" = Some (Some (JNum r)) →
  (1 # 2 <= r)%Q →
  let out := parseRelatedNotesResponse (Json (JArr items)) in
  (∃ o, o ∈ out ∧ sc_index o = i ∧ sc_relevance o = r)
  ∨ (length out = 5%nat ∧ Forall (λ o, (r <= sc_relevance o)%Q) out).
Proof.
  intros Hnull Hin Hi Hr Hhalf. cbv zeta. simpl.
  destruct (keepScored_total items Hnull) as [scored Hs]. rewrite Hs.
  destruct (keepScored_complete items scored item i r Hs Hin Hi Hr)
    as (e & He & <- & <-).
  set (eligible := List.filter _ scored).
  assert (e ∈ Js.sort higherFirst eligible) as Hsorted.
  { rewrite SortFacts.sort_Permutation. apply list_elem_of_In, filter_In.
    split; [by apply list_elem_of_In|]. by apply Qle_bool_iff. }
  pose proof (SortFacts.sort_Sorted higherFirst GatewayFacts.higherFirst_total
                eligible) as Hord.
  apply Sorted_StronglySorted in Hord; [|apply _].
  rewrite <- (take_drop 5 (Js.sort higherFirst eligible)) in Hsorted, Hord.
  apply elem_of_app in Hsorted as [Htake|Hdrop].
  - left. exists (withDefaults e). split; [|done].
    apply list_elem_of_In, in_map. by apply list_elem_of_In.
  - right. split.
    + rewrite length_map, length_take.
      assert (length (drop 5 (Js.sort higherFirst eligible)) ≠ 0)%nat as Hd.
      { intros E%nil_length_inv. rewrite E in Hdrop. by apply elem_of_nil in Hdrop. }
      rewrite length_drop in Hd. lia.
    + apply List.Forall_map, Forall_forall. intros o Ho. simpl.
      pose proof (StronglySorted_app_1_elem_of _ _ _ o e Hord Ho Hdrop) as Hoe.
      simpl in Hoe. unfold higherFirst in Hoe. apply Qle_bool_iff in Hoe. lra.
Qed.

Lemma best_five_kept_witness :
  (∃ o, o ∈ parseRelatedNotesResponse
              (Json (JArr [JNum 3;
                           JObj [("index", JNum 1); ("relevance", JNum (6 # 10))];
                           JObj [("index", JNum 0); ("relevance", JNum (9 # 10))]]))
        ∧ sc_index o = 1%Q ∧ sc_relevance o = (6 # 10)%Q)
  ∨ (length (parseRelatedNotesResponse
               (Json (JArr [JNum 3;
                            JObj [("index", JNum 1); ("relevance", JNum (6 # 10))];
                            JObj [("index", JNum 0); ("relevance", JNum (9 # 10))]])))
     = 5%nat
     ∧ Forall (λ o, (6 # 10 <= sc_relevance o)%Q)
         (parseRelatedNotesResponse
            (Json (JArr [JNum 3;
                         JObj [("index", JNum 1); ("relevance", JNum (6 # 10))];
                         JObj [("index", JNum 0); ("relevance", JNum (9 # 10))]])))).
Proof.
  apply (best_five_kept _ (JObj [("index", JNum 1); ("relevance", JNum (6 # 10))])).
  - reflexivity.
  - set_solver.
  - reflexivity.
  - reflexivity.
  - discriminate.
Defined.

(** X12: the sections of [splitContent] are all or nothing: one per item of
    the array when no item is null, none at all when one is. *)
Theorem splitContent_all_or_nothing (items : list json) :
  length (splitContent (Json (JArr items)))
  = if existsb isNull items then 0%nat else length items.
Proof.
  unfold splitContent, parseSplitResponse.
  assert (mapSplit items = None ∧ existsb isNull items = true
          ∨ (∃ sections, mapSplit items = Some sections
                         ∧ length sections = length items)
            ∧ existsb isNull items = false) as [[-> ->]|[(sections & -> & Hlen) ->]];
    [|done..].
  induction items as [|item items IH]; [right; split; [by eexists|done]|].
  simpl. destruct (isNull item) eqn:Hi.
  - left. split; [|done]. destruct item; try discriminate. reflexivity.
  - assert (is_Some (toSplitSection item)) as [section ->].
    { unfold toSplitSection.
      destruct (getProp_not_null item "title" Hi) as [? ->].
      destruct (getProp_not_null item "content" Hi) as [? ->].
      destruct (getProp_not_null item "targetType" Hi) as [? ->].
      destruct (getProp_not_null item "projectName" Hi) as [? ->].
      destruct (getProp_not_null item "isNewProject" Hi) as [? ->].
      destruct (getProp_not_null item "keywords" Hi) as [? ->].
      destruct (getProp_not_null item "isAtomic" Hi) as [? ->].
      by eexists. }
    destruct IH as [[-> ->]|[(sections & -> & Hlen) ->]]; [by left|].
    right. split; [|done]. eexists. split; [done|]. simpl. by rewrite Hlen.
Qed.

End ParserEdgeFacts.

Module MergeFacts.
Import Finder Merge PrefilterCompleteFacts.

Lemma filter_all {A} (P : A → Prop) `{!∀ x, Decision (P x)} (l : list A) :
  Forall P l → filter P l = l.
Proof.
  induction 1 as [|x l Hx _ IH]; [done|]. by rewrite filter_cons_True, IH.
Qed.

Lemma newSet_app (a b : list string) :
  newSet (a ++ b) = newSet a ++ filter (λ x, x ∉ a) (newSet b).
Proof.
  induction a as [|y a IH]; simpl.
  - symmetry. apply filter_all, Forall_forall. intros x _. apply not_elem_of_nil.
  - f_equal. rewrite IH, filter_app. f_equal.
    rewrite list_filter_filter. apply list_filter_iff.
    intros x. rewrite not_elem_of_cons. tauto.
Qed.

Lemma newSet_NoDup_id (xs : list string) : NoDup xs → newSet xs = xs.
Proof.
  induction 1 as [|x xs Hx Hxs IH]; simpl; [done|]. f_equal. rewrite IH.
  apply filter_all, Forall_forall. intros y Hy ->. done.
Qed.

(** X13: the keywords written back by a merge have no repetition and are
    those of the note and of the candidate; when the note's own keywords have
    no repetition they come first, in their order, followed by keywords of
    the candidate that the note did not have. *)
Theorem mergedKeywords_order (existingKeywords candidateKeywords : list string) :
  NoDup (mergedKeywords existingKeywords candidateKeywords)
  ∧ (∀ k, k ∈ mergedKeywords existingKeywords candidateKeywords
          ↔ k ∈ existingKeywords ∨ k ∈ candidateKeywords)
  ∧ (NoDup existingKeywords →
     ∃ added,
       mergedKeywords existingKeywords candidateKeywords = existingKeywords ++ added
       ∧ Forall (λ k, k ∈ candidateKeywords ∧ k ∉ existingKeywords) added).
Proof.
  unfold mergedKeywords. split; [apply newSet_NoDup|]. split.
  - intros k. by rewrite newSet_elem_of, elem_of_app.
  - intros Hnodup. eexists. split.
    + by rewrite newSet_app, (newSet_NoDup_id existingKeywords).
    + apply Forall_forall. intros k [Hk Hin]%list_elem_of_filter.
      split; [by apply newSet_elem_of|done].
Qed.

End MergeFacts.

Module SeedingFacts.
Import Js Allocator Statements AllocatorFacts.

Lemma seedFromPath_luhmann_mono (size : Z) (counters : Counters) (path : string) :
  zkLuhmannCounter counters ≤ zkLuhmannCounter (seedFromPath size counters path).
Proof. unfold seedFromPath. simpl. lia. Qed.

Lemma seeding_luhmann_mono (size : Z) (paths : list string) (counters : Counters) :
  zkLuhmannCounter counters
  ≤ zkLuhmannCounter (foldl (seedFromPath size) counters paths).
Proof.
  revert counters. induction paths as [|p ps IH]; intros counters; simpl; [done|].
  etrans; [apply (seedFromPath_luhmann_mono size counters p)|apply IH].
Qed.

Lemma foldl_fixed {A B} (f : A → B → A) (a : A) (l : list B) :
  Forall (λ b, f a b = a) l → foldl f a l = a.
Proof. induction 1 as [|b l Hb _ IH]; simpl; [done|]. by rewrite Hb. Qed.

(** A path changes nothing once the marks are at least what it holds. *)
Lemma seedFromPath_fixed (size : Z) (counters : Counters) (path : string) :
  size ≤ zkLuhmannCounter counters →
  (∀ date digits seq,
     dateSeqMatch (fileNameOf path) = Some (date, digits) →
     parseInt digits = Some seq → seq ≤ dailyCount counters date) →
  seedFromPath size counters path = counters.
Proof.
  intros Hsize Hhigh. unfold seedFromPath. destruct counters as [daily luhmann].
  simpl in *. f_equal; [|lia].
  destruct (dateSeqMatch (fileNameOf path)) as [[date digits]|]; [|done].
  destruct (parseInt digits) as [seq|] eqn:Hp; [|done].
  specialize (Hhigh date digits seq eq_refl Hp).
  by destruct (Z.ltb_spec (dailyCount {| zkDailyCounter := daily;
                                         zkLuhmannCounter := luhmann |} date) seq);
    [lia|].
Qed.

(** X14: seeding never lowers a counter, whatever the counters were, and
    seeding again from the same index changes nothing. *)
Theorem seeding_monotone_idempotent (index : Finder.Index) (counters : Counters)
    (date : string) :
  dailyCount counters date ≤ dailyCount (initializeZKCounters index counters) date
  ∧ zkLuhmannCounter counters
    ≤ zkLuhmannCounter (initializeZKCounters index counters)
  ∧ initializeZKCounters index (initializeZKCounters index counters)
    = initializeZKCounters index counters.
Proof.
  unfold initializeZKCounters.
  set (size := Z.of_nat (length (Finder.getZettelIndex index))).
  set (paths := map fst (Finder.getZettelIndex index)).
  split; [apply seeding_mono|]. split; [apply seeding_luhmann_mono|].
  apply foldl_fixed, Forall_forall. intros path Hpath.
  apply seedFromPath_fixed.
  - rewrite seeding_luhmann; [lia|]. intros E. rewrite E in Hpath.
    by apply elem_of_nil in Hpath.
  - intros d digits seq Hm Hp. by eapply seeding_high_water.
Qed.

End SeedingFacts.

Module SessionFacts.

Import Js Allocator Statements AllocatorFacts Session SessionStatements.

(** Every identifier of a run under the date-sequence scheme is a date
    without dashes, a dash, and the padded numeral of a number above the
    mark the date had at the start. *)
Lemma generateMany_date_sequence (settings : ZeroFrictionSettings)
    (clocks : list Clock) (counters : Counters) (id : string) :
  zkIdType settings = "date-sequence" →
  id ∈ (generateMany settings clocks counters).1 →
  ∃ date k, id = date +:+ "-" +:+ padStart 3 "0" (toString k)
            ∧ dashFree date = true ∧ dailyCount counters date < k.
Proof.
  intros Hs. revert counters.
  induction clocks as [|clock later IH]; intros counters Hin; simpl in Hin.
  { by apply elem_of_nil in Hin. }
  rewrite generateZKId_date_sequence in Hin by done.
  destruct (generateMany settings later _) as [ids final] eqn:E. simpl in Hin.
  apply elem_of_cons in Hin as [->|Hin].
  - exists (today clock), (dailyCount counters (today clock) + 1).
    split; [done|]. split; [apply removeDashes_dashFree|lia].
  - specialize (IH _ ltac:(by rewrite E)) as (date & k & -> & Hfree & Hk).
    exists date, k. split; [done|]. split; [done|].
    unfold dailyCount in Hk at 1. simpl in Hk.
    destruct (decide (today clock = date)) as [<-|Hne].
    + rewrite lookup_insert_eq in Hk. simpl in Hk. lia.
    + by rewrite lookup_insert_ne in Hk.
Qed.

Lemma generateMany_luhmann (settings : ZeroFrictionSettings)
    (clocks : list Clock) (counters : Counters) (id : string) :
  zkIdType settings = "luhmann" →
  id ∈ (generateMany settings clocks counters).1 →
  ∃ k, id = toLuhmannId k ∧ zkLuhmannCounter counters < k.
Proof.
  intros Hs. revert counters.
  induction clocks as [|clock later IH]; intros counters Hin; simpl in Hin.
  { by apply elem_of_nil in Hin. }
  unfold generateZKId in Hin. rewrite Hs in Hin.
  rewrite bool_decide_eq_false_2, bool_decide_eq_false_2, bool_decide_eq_true_2
    in Hin by done.
  destruct (generateMany settings later _) as [ids final] eqn:E. simpl in Hin.
  apply elem_of_cons in Hin as [->|Hin].
  - exists (zkLuhmannCounter counters + 1). split; [done|lia].
  - specialize (IH _ ltac:(by rewrite E)) as (k & -> & Hk). simpl in Hk.
    exists k. split; [done|lia].
Qed.

(** X15: in a run of allocations whose counters stay within the integers
    that a double holds exactly, no identifier is returned twice: under the
    date-sequence scheme whatever the dates are, and under the Luhmann
    scheme. *)
Theorem generateMany_no_repeat (settings : ZeroFrictionSettings)
    (clocks : list Clock) (counters : Counters) :
  (zkIdType settings = "date-sequence"
   ∧ Forall (λ clock, exactCounter (dailyCount counters (today clock))
                        (length clocks)) clocks)
  ∨ (zkIdType settings = "luhmann"
     ∧ exactCounter (zkLuhmannCounter counters) (length clocks)) →
  NoDup (generateMany settings clocks counters).1.
Proof.
  intros [[Hs _]|[Hs [Hpos _]]].
  - revert counters.
    induction clocks as [|clock later IH]; intros counters; simpl; [constructor|].
    rewrite generateZKId_date_sequence by done.
    match goal with
    | |- context [generateMany settings later ?c] =>
        pose proof (IH c) as Hrest;
        destruct (generateMany settings later c) as [ids final] eqn:E
    end. simpl in *.
    constructor; [|done].
    intros Hin.
    destruct (generateMany_date_sequence settings later _ _ Hs
                ltac:(by rewrite E)) as (date & k & Hid & Hfree & Hk).
    apply before_dash_inj in Hid as [<- Hid];
      [|apply removeDashes_dashFree|done].
    apply padStart_toString_inj_Z in Hid.
    unfold dailyCount in Hk at 1. simpl in Hk.
    rewrite lookup_insert_eq in Hk. simpl in Hk. lia.
  - revert counters Hpos.
    induction clocks as [|clock later IH]; intros counters Hpos; simpl;
      [constructor|].
    unfold generateZKId. rewrite Hs.
    rewrite bool_decide_eq_false_2, bool_decide_eq_false_2, bool_decide_eq_true_2
      by done.
    match goal with
    | |- context [generateMany settings later ?c] =>
        pose proof (IH c ltac:(simpl; lia)) as Hrest;
        destruct (generateMany settings later c) as [ids final] eqn:E
    end. simpl in *.
    constructor; [|done].
    intros Hin.
    destruct (generateMany_luhmann settings later _ _ Hs ltac:(by rewrite E))
      as (k & Hid & Hk). simpl in Hk.
    apply LuhmannFacts.toLuhmannId_eq_inv in Hid; lia.
Qed.

Lemma generateMany_no_repeat_witness :
  NoDup (generateMany DEFAULT_SETTINGS
           [Scenarios.morning; Scenarios.morning; Scenarios.morning]
           (initializeZKCounters Scenarios.reseedIndex initialCounters)).1
  ∧ NoDup (generateMany (Scenarios.withScheme "luhmann")
             [Scenarios.morning; Scenarios.morning]
             (initializeZKCounters Scenarios.gapIndex initialCounters)).1.
Proof.
  split; apply generateMany_no_repeat.
  - left. split; [reflexivity|].
    repeat constructor; vm_compute; discriminate.
  - right. split; [reflexivity|]. split; vm_compute; discriminate.
Defined.

End SessionFacts.

Module TimestampFacts.
Import Js Allocator Session.

(** X23: under the timestamp scheme, and under any scheme name that is
    neither date-sequence nor luhmann, the identifiers of a run are the
    numerals of the times read and the counters are left as they were; no
    identifier comes twice exactly when no time is read twice. *)
Theorem generateMany_timestamp (settings : ZeroFrictionSettings)
    (clocks : list Clock) (counters : Counters) :
  zkIdType settings ≠ "date-sequence" → zkIdType settings ≠ "luhmann" →
  generateMany settings clocks counters
  = (map (λ clock, toString (now clock)) clocks, counters)
  ∧ (NoDup (generateMany settings clocks counters).1 ↔ NoDup (map now clocks)).
Proof.
  intros Hd Hl.
  assert (generateMany settings clocks counters
          = (map (λ clock, toString (now clock)) clocks, counters)) as Hrun.
  { induction clocks as [|clock later IH]; [done|]. cbn [generateMany map].
    unfold generateZKId. repeat case_bool_decide; try done; by rewrite IH. }
  split; [done|]. rewrite Hrun. cbn [fst].
  replace (map (λ clock, toString (now clock)) clocks)
    with (toString <$> (now <$> clocks)) by (by rewrite <- list_fmap_compose).
  split.
  - apply NoDup_fmap_1.
  - apply NoDup_fmap_2. unfold toString. apply _.
Qed.

Lemma generateMany_timestamp_witness :
  generateMany (Scenarios.withScheme "timestamp")
    [Scenarios.morning; Scenarios.morning] initialCounters
  = (map (λ clock, toString (now clock)) [Scenarios.morning; Scenarios.morning],
     initialCounters).
Proof.
  apply (generateMany_timestamp (Scenarios.withScheme "timestamp")
           [Scenarios.morning; Scenarios.morning] initialCounters);
    discriminate.
Defined.

End TimestampFacts.

Module RestartFacts.

Import Js Allocator Statements AllocatorFacts.

Lemma hasSlash_app (a b : string) : hasSlash (a +:+ b) = hasSlash a || hasSlash b.
Proof. induction a as [|c a IH]; cbn; [done|]. by rewrite IH, orb_assoc. Qed.

Lemma allDigits_no_slash (s : string) : allDigits s = true → hasSlash s = false.
Proof.
  induction s as [|c s IH]; [done|]. cbn [allDigits hasSlash].
  intros [Hc Hs]%andb_true_iff. rewrite (IH Hs), orb_false_r.
  apply bool_decide_eq_false_2. intros ->. by vm_compute in Hc.
Qed.

Lemma fileNameOf_no_slash (name : string) : hasSlash name = false → fileNameOf name = name.
Proof. destruct name as [|c name]; [done|]. cbn [fileNameOf]. by intros ->. Qed.

Lemma fileNameOf_under (folder name : string) :
  hasSlash name = false → fileNameOf (folder +:+ "/" +:+ name) = name.
Proof.
  intros Hname. induction folder as [|c folder IH].
  - cbn. by apply fileNameOf_no_slash.
  - change (String c folder +:+ "/" +:+ name)
      with (String c (folder +:+ "/" +:+ name)).
    cbn [fileNameOf].
    replace (hasSlash (String c (folder +:+ "/" +:+ name))) with true; [done|].
    symmetry. cbn [hasSlash]. rewrite hasSlash_app. cbn.
    by rewrite !orb_true_r.
Qed.

(** X16: an identifier issued under the date-sequence scheme is read back
    when the counters are seeded again: with a date of eight digits and a
    number below 1000, once the new note, named by the identifier, a space
    and a title without a slash, is in the index as a Zettel, seeding gives
    the day a counter that is at least the one the allocator had after the
    issue, whatever the counters were before. *)
Theorem issued_number_read_back (settings : ZeroFrictionSettings)
    (clock : Clock) (counters before : Counters) (index : Finder.Index)
    (title : string) (note : NoteIndex) :
  zkIdType settings = "date-sequence" →
  String.length (today clock) = 8%nat → allDigits (today clock) = true →
  0 ≤ dailyCount counters (today clock) < 999 →
  hasSlash title = false →
  let issued := generateZKId settings clock counters in
  let fileName :=
    zettelFolder settings +:+ "/" +:+ issued.1 +:+ " " +:+ title +:+ ".md" in
  (fileName, note) ∈ index → ni_type note = Some "zettel" →
  dailyCount issued.2 (today clock)
  ≤ dailyCount (initializeZKCounters index before) (today clock).
Proof.
  intros Hs Hlen Hdate Hcount Htitle. cbv zeta.
  rewrite generateZKId_date_sequence by done. cbn [fst snd].
  set (count := dailyCount counters (today clock) + 1).
  set (digits := padStart 3 "0" (toString count)).
  intros Hin Hty.
  destruct (NumeralFacts.padStart_toString 3 count ltac:(lia)) as [Hdigits Hvalue].
  fold digits in Hdigits, Hvalue.
  assert (String.length digits = 3%nat) as Hlen3 by (apply padded_length; lia).
  assert (dailyCount {| zkDailyCounter := <[today clock:=count]> (zkDailyCounter counters);
                        zkLuhmannCounter := zkLuhmannCounter counters |}
            (today clock) = count) as ->.
  { unfold dailyCount. cbn. by rewrite lookup_insert_eq. }
  unfold initializeZKCounters.
  set (fileName := zettelFolder settings +:+ "/" +:+ _) in Hin.
  apply (seeding_high_water _ _ before fileName (today clock) digits count).
  - apply list_elem_of_fmap. exists (fileName, note). split; [done|].
    apply list_elem_of_filter. split; [done|exact Hin].
  - unfold fileName. rewrite fileNameOf_under.
    + rewrite JsFacts.app_assoc, JsFacts.app_assoc.
      by apply dateSeqMatch_head.
    + rewrite !hasSlash_app, Htitle, (allDigits_no_slash _ Hdate),
        (allDigits_no_slash _ Hdigits). done.
  - rewrite NumeralFacts.parseInt_digits; [by rewrite Hvalue| |done].
    intros E. by rewrite E in Hlen3.
Qed.

Lemma issued_number_read_back_witness :
  dailyCount (generateZKId DEFAULT_SETTINGS Scenarios.morning initialCounters).2
    (today Scenarios.morning)
  ≤ dailyCount
      (initializeZKCounters
         [Scenarios.zettelAt "10 Zettelkasten/20260102-001 First note.md"
            "First note" ["note"]]
         initialCounters)
      (today Scenarios.morning).
Proof.
  apply (issued_number_read_back DEFAULT_SETTINGS Scenarios.morning
           initialCounters initialCounters
           [Scenarios.zettelAt "10 Zettelkasten/20260102-001 First note.md"
              "First note" ["note"]]
           "First note"
           (Scenarios.zettelAt "10 Zettelkasten/20260102-001 First note.md"
              "First note" ["note"]).2).
  - reflexivity.
  - reflexivity.
  - reflexivity.
  - vm_compute. split; [discriminate|reflexivity].
  - reflexivity.
  - vm_compute. left.
  - reflexivity.
Defined.

End RestartFacts.

Module OverflowFacts.

Import Js Allocator Statements AllocatorFacts.

Lemma digitValue_bound (c : ascii) : isDigit c = true → 0 ≤ digitValue c ≤ 9.
Proof.
  unfold isDigit, digitValue. intros [H1 H2]%andb_true_iff.
  apply Nat.leb_le in H1, H2. lia.
Qed.

Lemma parseDigits_bound (acc : Z) (s : string) :
  allDigits s = true → 0 ≤ acc →
  parseDigits acc s < (acc + 1) * 10 ^ Z.of_nat (String.length s).
Proof.
  revert acc. induction s as [|c s IH]; intros acc Hs Hacc.
  - cbn. lia.
  - cbn [allDigits] in Hs. apply andb_true_iff in Hs as [Hc Hs].
    cbn [parseDigits String.length]. rewrite Hc.
    pose proof (digitValue_bound c Hc) as Hd.
    specialize (IH (acc * 10 + digitValue c) Hs ltac:(lia)).
    rewrite Nat2Z.inj_succ, Z.pow_succ_r by lia.
    assert (0 < 10 ^ Z.of_nat (String.length s)) by (apply Z.pow_pos_nonneg; lia).
    nia.
Qed.

Lemma dateSeqMatch_three (fileName date digits : string) :
  dateSeqMatch fileName = Some (date, digits) →
  String.length digits = 3%nat ∧ allDigits digits = true.
Proof.
  unfold dateSeqMatch.
  destruct (_ && allDigits (take 8 fileName)); [|done].
  destruct (drop 8 fileName) as [|c rest]; [done|].
  destruct (Ascii.eqb_spec c "-"); [|by destruct c as [[] [] [] [] [] [] [] []]].
  subst c. cbv zeta. generalize (take 3 rest). intros seq.
  destruct ((String.length seq =? 3)%nat && allDigits seq) eqn:E; [|done].
  intros [= _ <-]. apply andb_true_iff in E as [Hlen Hall].
  by apply Nat.eqb_eq in Hlen.
Qed.

(** Seeding reads three digits: no mark it sets is above 999. *)
Lemma seedFromPath_at_most_999 (size : Z) (counters : Counters) (path date : string) :
  dailyCount (seedFromPath size counters path) date
  ≤ Z.max (dailyCount counters date) 999.
Proof.
  unfold seedFromPath.
  destruct (dateSeqMatch (fileNameOf path)) as [[d digits]|] eqn:Hm;
    [|unfold dailyCount; cbn; lia].
  destruct (parseInt digits) as [seq|] eqn:Hp; [|unfold dailyCount; cbn; lia].
  destruct (dailyCount counters d <? seq) eqn:Hlt; [|unfold dailyCount; cbn; lia].
  unfold dailyCount at 1. cbn [zkDailyCounter].
  destruct (decide (d = date)) as [->|Hne].
  - rewrite lookup_insert_eq. cbn.
    assert (seq ≤ 999); [|lia].
    destruct (dateSeqMatch_three _ _ _ Hm) as [Hlen Hall].
    rewrite NumeralFacts.parseInt_digits in Hp;
      [|intros E; by rewrite E in Hlen|done].
    injection Hp as <-.
    pose proof (parseDigits_bound 0 digits Hall ltac:(lia)) as Hb.
    rewrite Hlen in Hb. change ((0 + 1) * 10 ^ Z.of_nat 3) with 1000 in Hb. lia.
  - rewrite lookup_insert_ne by done. fold (dailyCount counters date). lia.
Qed.

Lemma seeding_at_most_999 (size : Z) (paths : list string) (counters : Counters)
    (date : string) :
  dailyCount (foldl (seedFromPath size) counters paths) date
  ≤ Z.max (dailyCount counters date) 999.
Proof.
  revert counters. induction paths as [|p ps IH]; intros counters; cbn [foldl]; [lia|].
  etrans; [apply IH|]. pose proof (seedFromPath_at_most_999 size counters p date).
  lia.
Qed.

(** X24: past 999 notes of one day the seeding loses count.  With a date
    of eight digits, when the Zettel notes of the index include
    identifiers 999 and 1000 of the day and the counter of the day was at
    most 999 before, seeding gives the day the counter 999, and the next
    identifier issued is number 1000 of the day: an identifier of the
    index. *)
Theorem date_sequence_reissue_past_999 (index : Finder.Index)
    (before : Counters) (clock : Clock) (path999 path1000 : string) :
  String.length (today clock) = 8%nat → allDigits (today clock) = true →
  dailyCount before (today clock) ≤ 999 →
  path999 ∈ map fst (Finder.getZettelIndex index) →
  beforeSpace (fileNameOf path999) = today clock +:+ "-999" →
  path1000 ∈ map fst (Finder.getZettelIndex index) →
  beforeSpace (fileNameOf path1000) = today clock +:+ "-1000" →
  let counters := initializeZKCounters index before in
  let issued :=
    (generateZKId (Scenarios.withScheme "date-sequence") clock counters).1 in
  dailyCount counters (today clock) = 999
  ∧ issued = today clock +:+ "-1000"
  ∧ issued ∈ zettelIds index.
Proof.
  intros Hlen Hdate Hbefore H999 Hid999 H1000 Hid1000. cbv zeta.
  assert (dailyCount (initializeZKCounters index before) (today clock) = 999)
    as Hmark.
  { apply Z.le_antisymm.
    - unfold initializeZKCounters.
      etrans; [apply seeding_at_most_999|]. lia.
    - destruct (beforeSpace_prefix (fileNameOf path999)) as [rest Hname].
      rewrite Hid999 in Hname.
      apply (seeding_high_water _ _ before path999 (today clock) "999" 999 H999);
        [|done].
      rewrite Hname.
      change ((today clock +:+ "-999") +:+ rest)
        with ((today clock +:+ "-" +:+ "999") +:+ rest).
      rewrite !JsFacts.app_assoc. by apply dateSeqMatch_head. }
  split; [done|].
  rewrite generateZKId_date_sequence by done. cbn [fst]. rewrite Hmark.
  split; [done|].
  unfold zettelIds. apply list_elem_of_fmap.
  apply list_elem_of_fmap in H1000 as ([p n] & -> & Hin).
  exists (p, n). split; [|done]. cbn [fst] in *. by rewrite Hid1000.
Qed.

Lemma date_sequence_reissue_past_999_witness :
  (generateZKId (Scenarios.withScheme "date-sequence") Scenarios.morning
     (initializeZKCounters
        [Scenarios.zettelAt "10 Zettelkasten/20260102-999 Late.md" "Late" ["a"];
         Scenarios.zettelAt "10 Zettelkasten/20260102-1000 Later.md" "Later" ["b"]]
        initialCounters)).1
  ∈ zettelIds
      [Scenarios.zettelAt "10 Zettelkasten/20260102-999 Late.md" "Late" ["a"];
       Scenarios.zettelAt "10 Zettelkasten/20260102-1000 Later.md" "Later" ["b"]].
Proof.
  apply (date_sequence_reissue_past_999
           [Scenarios.zettelAt "10 Zettelkasten/20260102-999 Late.md" "Late" ["a"];
            Scenarios.zettelAt "10 Zettelkasten/20260102-1000 Later.md" "Later"
              ["b"]]
           initialCounters Scenarios.morning
           "10 Zettelkasten/20260102-999 Late.md"
           "10 Zettelkasten/20260102-1000 Later.md").
  - reflexivity.
  - reflexivity.
  - vm_compute. discriminate.
  - vm_compute. left.
  - reflexivity.
  - vm_compute. right. left.
  - reflexivity.
Defined.

End OverflowFacts.

Module ClientFacts.
Import Js Client ClientStatements.

Lemma attemptLoop_rounds {T} (apiCall : Z → Outcome T) (retries : Z)
    (rounds : nat) (first : Z) (minDelay : Q) :
  first + Z.of_nat rounds = retries →
  ∃ last,
    first ≤ last ≤ retries
    ∧ (∀ j, first ≤ j < last → rateLimited (apiCall j) = true)
    ∧ (last < retries → rateLimited (apiCall last) = false)
    ∧ attemptLoop apiCall retries (seqZ first (Z.of_nat (S rounds))) minDelay
      = (apiCall last,
         Nat.iter (Z.to_nat (last - first)) raisedDelay minDelay,
         roundsUpTo first last).
Proof.
  revert first minDelay.
  induction rounds as [|rounds IH]; intros first minDelay Hsum.
  - exists first. split; [lia|]. split; [lia|]. split; [lia|].
    change (seqZ first (Z.of_nat 1)) with [first]. cbn [attemptLoop].
    unfold roundsUpTo. rewrite Z.sub_diag. cbn.
    destruct (apiCall first) as [value|error]; [done|].
    replace (first <? retries) with false by lia. by rewrite andb_false_r.
  - rewrite seqZ_cons by lia. cbn [attemptLoop].
    replace (Z.pred (Z.of_nat (S (S rounds)))) with (Z.of_nat (S rounds)) by lia.
    destruct (apiCall first) as [value|error] eqn:Hcall.
    { exists first. split; [lia|]. split; [lia|].
      split; [by rewrite Hcall|].
      unfold roundsUpTo. by rewrite Hcall, Z.sub_diag. }
    destruct (isRateLimitError error) eqn:Hrate; cbn [andb].
    2:{ exists first. split; [lia|]. split; [lia|].
        split; [by rewrite Hcall|].
        unfold roundsUpTo. by rewrite Hcall, Z.sub_diag. }
    replace (first <? retries) with true by lia.
    destruct (IH (Z.succ first) (raisedDelay minDelay) ltac:(lia))
      as (last & Hlast & Hbefore & Hstop & ->).
    exists last. split; [lia|]. split; [|split; [done|]].
    + intros j Hj. destruct (decide (j = first)) as [->|Hne].
      * by rewrite Hcall; cbn; rewrite Hrate.
      * apply Hbefore. lia.
    + f_equal; [f_equal|].
      * replace (Z.to_nat (last - first)) with (S (Z.to_nat (last - Z.succ first)))
          by lia.
        by rewrite Nat.iter_succ_r.
      * unfold roundsUpTo.
        rewrite (seqZ_cons first (last - first)) by lia.
        by replace (Z.pred (last - first)) with (last - Z.succ first) by lia.
Qed.

Lemma callWithRetry_loop {T} (now later : Z) (apiCall : Z → Outcome T)
    (retries : Z) (client : GeminiClient) :
  callWithRetry now later apiCall retries client
  = let '(outcome, minDelay, events) :=
      attemptLoop apiCall retries (seqZ 0 (retries + 1)) (minDelayMs client) in
    (outcome, {| lastRequestTime := later; minDelayMs := minDelay |},
     (waitForRateLimit now later client).1 ++ events).
Proof. done. Qed.

(** X17: with a number of retries that is not negative, the API is called
    in rounds 0, 1, ... up to a last round that is at most [retries];
    every round before the last was rejected with a rate limit error and
    was followed by a timer of 2000 ms doubled for each round; the last
    round is the first that was not so rejected, or round [retries]; what
    it came to is what the caller gets, so that the final [throw] is never
    reached; and the delay between requests was raised once for every
    retry. *)
Theorem callWithRetry_rounds {T} (now later : Z) (apiCall : Z → Outcome T)
    (retries : Z) (client : GeminiClient) :
  0 ≤ retries →
  ∃ last,
    0 ≤ last ≤ retries
    ∧ (∀ j, 0 ≤ j < last → rateLimited (apiCall j) = true)
    ∧ (last < retries → rateLimited (apiCall last) = false)
    ∧ callWithRetry now later apiCall retries client
      = (apiCall last,
         {| lastRequestTime := later;
            minDelayMs := Nat.iter (Z.to_nat last) raisedDelay (minDelayMs client) |},
         (waitForRateLimit now later client).1 ++ roundsUpTo 0 last).
Proof.
  intros Hretries.
  destruct (attemptLoop_rounds apiCall retries (Z.to_nat retries) 0
              (minDelayMs client) ltac:(lia))
    as (last & Hlast & Hbefore & Hstop & Hloop).
  exists last. split; [done|]. split; [done|]. split; [done|].
  rewrite callWithRetry_loop.
  replace (retries + 1) with (Z.of_nat (S (Z.to_nat retries))) by lia.
  rewrite Hloop. by rewrite Z.sub_0_r.
Qed.

Lemma callWithRetry_rounds_witness :
  ∃ last,
    0 ≤ last ≤ MAX_RETRIES
    ∧ (∀ j, 0 ≤ j < last →
         rateLimited ((λ attempt, if attempt <? 2
                                  then Rejected (ErrorObject "429 Too Many Requests")
                                  else Resolved attempt) j) = true)
    ∧ (last < MAX_RETRIES →
         rateLimited ((λ attempt, if attempt <? 2
                                  then Rejected (ErrorObject "429 Too Many Requests")
                                  else Resolved attempt) last) = false)
    ∧ callWithRetry 5000 5000
        (λ attempt, if attempt <? 2
                    then Rejected (ErrorObject "429 Too Many Requests")
                    else Resolved attempt)
        MAX_RETRIES
        {| lastRequestTime := 0; minDelayMs := DEFAULT_DELAY_MS |}
      = ((λ attempt, if attempt <? 2
                     then Rejected (ErrorObject "429 Too Many Requests")
                     else Resolved attempt) last,
         {| lastRequestTime := 5000;
            minDelayMs := Nat.iter (Z.to_nat last) raisedDelay
                            (minDelayMs {| lastRequestTime := 0;
                                           minDelayMs := DEFAULT_DELAY_MS |}) |},
         (waitForRateLimit 5000 5000
            {| lastRequestTime := 0; minDelayMs := DEFAULT_DELAY_MS |}).1
         ++ roundsUpTo 0 last).
Proof. apply callWithRetry_rounds. unfold MAX_RETRIES. lia. Defined.

(** X18: with a negative number of retries the API is not called at all
    and the caller gets the error of the last statement. *)
Theorem callWithRetry_negative_retries {T} (now later : Z)
    (apiCall : Z → Outcome T) (retries : Z) (client : GeminiClient) :
  retries < 0 →
  callWithRetry now later apiCall retries client
  = (Rejected (ErrorObject "Max retries exceeded"),
     {| lastRequestTime := later; minDelayMs := minDelayMs client |},
     (waitForRateLimit now later client).1).
Proof.
  intros Hneg. rewrite callWithRetry_loop.
  unfold seqZ. replace (Z.to_nat (retries + 1)) with 0%nat by lia.
  cbn. by rewrite app_nil_r.
Qed.

Lemma callWithRetry_negative_retries_witness :
  callWithRetry 0 0 (λ _, Resolved tt) (-1)
    {| lastRequestTime := 0; minDelayMs := DEFAULT_DELAY_MS |}
  = (Rejected (ErrorObject "Max retries exceeded"),
     {| lastRequestTime := 0; minDelayMs := DEFAULT_DELAY_MS |},
     (waitForRateLimit 0 0
        {| lastRequestTime := 0; minDelayMs := DEFAULT_DELAY_MS |}).1).
Proof. apply (callWithRetry_negative_retries (T := unit)). lia. Defined.

Lemma raisedDelay_bounds (d : Q) :
  (0 <= d)%Q → (d <= 5000)%Q → (d <= raisedDelay d)%Q ∧ (raisedDelay d <= 5000)%Q.
Proof.
  intros H0 H1. unfold raisedDelay, mathMin.
  destruct (Qle_bool (d * (3 # 2)) 5000) eqn:E.
  - apply Qle_bool_iff in E. split; [lra|done].
  - split; [done|lra].
Qed.

Lemma raisedDelay_iter_bounds (n : nat) (d : Q) :
  (0 <= d)%Q → (d <= 5000)%Q →
  (d <= Nat.iter n raisedDelay d)%Q ∧ (Nat.iter n raisedDelay d <= 5000)%Q.
Proof.
  intros H0 H1. induction n as [|n [IH1 IH2]]; simpl; [split; lra|].
  destruct (raisedDelay_bounds (Nat.iter n raisedDelay d)); [lra|done|].
  split; lra.
Qed.

(** X19: a delay between requests that is between 0 and 5000 ms is never
    lowered by a call, whatever its outcome, and never raised above
    5000 ms. *)
Theorem callWithRetry_delay_never_lowered {T} (now later : Z)
    (apiCall : Z → Outcome T) (retries : Z) (client : GeminiClient) :
  (0 <= minDelayMs client)%Q → (minDelayMs client <= 5000)%Q →
  let client' := (callWithRetry now later apiCall retries client).1.2 in
  (minDelayMs client <= minDelayMs client')%Q ∧ (minDelayMs client' <= 5000)%Q.
Proof.
  intros H0 H1. rewrite callWithRetry_loop.
  destruct (Z.lt_ge_cases retries 0) as [Hneg|Hpos].
  - unfold seqZ. replace (Z.to_nat (retries + 1)) with 0%nat by lia.
    cbn. lra.
  - destruct (attemptLoop_rounds apiCall retries (Z.to_nat retries) 0
                (minDelayMs client) ltac:(lia))
      as (last & _ & _ & _ & Hloop).
    replace (retries + 1) with (Z.of_nat (S (Z.to_nat retries))) by lia.
    rewrite Hloop. cbn [fst snd minDelayMs].
    by apply raisedDelay_iter_bounds.
Qed.

Lemma callWithRetry_delay_never_lowered_witness :
  (DEFAULT_DELAY_MS
   <= minDelayMs
        (callWithRetry 5000 5000
           (λ attempt, if attempt <? 2
                       then Rejected (ErrorObject "429 Too Many Requests")
                       else Resolved attempt)
           MAX_RETRIES
           {| lastRequestTime := 0; minDelayMs := DEFAULT_DELAY_MS |}).1.2)%Q.
Proof.
  apply (callWithRetry_delay_never_lowered 5000 5000
           (λ attempt, if attempt <? 2
                       then Rejected (ErrorObject "429 Too Many Requests")
                       else Resolved attempt)
           MAX_RETRIES
           {| lastRequestTime := 0; minDelayMs := DEFAULT_DELAY_MS |});
    vm_compute; discriminate.
Defined.

End ClientFacts.

Module NameFacts.
Import Names NameStatements.

Lemma replaceForbidden_safe (name : Units) :
  Forall (λ u, isForbidden u = false) (replaceForbidden name).
Proof.
  induction name as [|v rest IH]; [constructor|].
  unfold replaceForbidden in *. cbn [map]. constructor; [|done].
  by destruct (isForbidden v) eqn:E.
Qed.

Lemma collapse_plain (name : Units) :
  Forall (λ u, isForbidden u = false) name →
  Forall plainUnit (collapseWhiteSpace name).
Proof.
  induction 1 as [|u rest Hu Hrest IH]; [constructor|].
  cbn [collapseWhiteSpace]. destruct (isWhiteSpace u) eqn:Hw.
  - destruct rest as [|v rest'].
    + constructor; [|constructor]. by split.
    + destruct (isWhiteSpace v); [done|].
      constructor; [|done]. by split.
  - constructor; [|done]. split; [done|]. congruence.
Qed.

Lemma collapse_singleSpaced (name : Units) :
  singleSpaced (collapseWhiteSpace name) = true.
Proof.
  induction name as [|u rest IH]; [done|].
  cbn [collapseWhiteSpace]. destruct (isWhiteSpace u) eqn:Hu.
  - destruct rest as [|v rest']; [done|].
    destruct (isWhiteSpace v) eqn:Hv; [done|].
    cbn [collapseWhiteSpace] in *. rewrite Hv in *.
    change (singleSpaced (space :: v :: collapseWhiteSpace rest'))
      with (negb (isWhiteSpace space && isWhiteSpace v)
            && singleSpaced (v :: collapseWhiteSpace rest')).
    by rewrite Hv, andb_false_r, IH.
  - cbn [singleSpaced]. rewrite Hu, IH.
    by destruct (collapseWhiteSpace rest).
Qed.

Lemma singleSpaced_tail (u : Z) (rest : Units) :
  singleSpaced (u :: rest) = true → singleSpaced rest = true.
Proof. cbn [singleSpaced]. by intros [_ ?]%andb_true_iff. Qed.

Lemma singleSpaced_take (n : nat) (name : Units) :
  singleSpaced name = true → singleSpaced (take n name) = true.
Proof.
  revert n. induction name as [|u rest IH]; intros n H; [by destruct n|].
  destruct n as [|n]; [done|]. cbn [take].
  pose proof (IH n (singleSpaced_tail _ _ H)) as IHn.
  cbn [singleSpaced] in H |- *. rewrite IHn, andb_true_r.
  apply andb_true_iff in H as [H _].
  destruct rest as [|v rest']; [by destruct n|].
  by destruct n.
Qed.

Lemma head_take (n : nat) (name : Units) (u : Z) :
  head (take n name) = Some u → head name = Some u.
Proof. destruct n, name; naive_solver. Qed.

Lemma trimStart_suffix (name : Units) : ∃ n, trimStart name = drop n name.
Proof.
  induction name as [|u rest [n IH]]; [by exists 0%nat|].
  cbn [trimStart]. destruct (isWhiteSpace u).
  - by exists (S n).
  - by exists 0%nat.
Qed.

Lemma singleSpaced_drop (n : nat) (name : Units) :
  singleSpaced name = true → singleSpaced (drop n name) = true.
Proof.
  revert name. induction n as [|n IH]; intros [|u rest] H; try done.
  cbn [drop]. by eapply IH, singleSpaced_tail.
Qed.

Lemma trimStart_head (name : Units) (u : Z) :
  head (trimStart name) = Some u → isWhiteSpace u = false.
Proof.
  induction name as [|v rest IH]; [done|].
  cbn [trimStart]. destruct (isWhiteSpace v) eqn:Hv; [done|].
  by intros [= <-].
Qed.

Lemma trimEnd_prefix (name : Units) : ∃ n, trimEnd name = take n name.
Proof.
  induction name as [|u rest [n IH]]; [by exists 0%nat|].
  cbn [trimEnd]. rewrite IH. destruct (take n rest) as [|v kept] eqn:E.
  - destruct (isWhiteSpace u); [by exists 0%nat|by exists 1%nat].
  - exists (S n). cbn [take]. by rewrite E.
Qed.

(** What [trim] and [slice] leave is a part of the text, cut at both
    ends. *)
Lemma sanitized_part (name : Units) (maxLength : Z) :
  ∃ n k, sliceFromStart maxLength (trim name) = take k (take n (trimStart name)).
Proof.
  unfold trim. destruct (trimEnd_prefix (trimStart name)) as [n ->].
  exists n. unfold sliceFromStart. destruct (0 <=? maxLength); by eexists.
Qed.

(** X20: whatever the name, the file name made of it has none of the
    characters of the class, no white space other than single spaces, none
    at its start, and with a bound that is not negative at most that many
    code units. *)
Theorem sanitizeFileName_safe (name : Units) (maxLength : Z) :
  let fileName := sanitizeFileName name maxLength in
  Forall plainUnit fileName
  ∧ singleSpaced fileName = true
  ∧ (∀ u, head fileName = Some u → isWhiteSpace u = false)
  ∧ (0 ≤ maxLength → Z.of_nat (length fileName) ≤ maxLength).
Proof.
  cbn zeta. unfold sanitizeFileName.
  set (tidy := collapseWhiteSpace (replaceForbidden name)).
  assert (Forall plainUnit tidy) as Hplain
    by apply collapse_plain, replaceForbidden_safe.
  pose proof (collapse_singleSpaced (replaceForbidden name)) as Hsingle.
  fold tidy in Hsingle.
  destruct (sanitized_part tidy maxLength) as (n & k & Hpart).
  destruct (trimStart_suffix tidy) as [d Hd].
  split; [|split; [|split]].
  - rewrite Hpart, Hd. by apply Forall_take, Forall_take, Forall_drop.
  - rewrite Hpart, Hd.
    by apply singleSpaced_take, singleSpaced_take, singleSpaced_drop.
  - rewrite Hpart. intros u Hu.
    by eapply trimStart_head, head_take, head_take.
  - intros Hmax. unfold sliceFromStart.
    replace (0 <=? maxLength) with true by lia.
    rewrite length_take. lia.
Qed.

Lemma replaceForbidden_id (name : Units) :
  Forall plainUnit name → replaceForbidden name = name.
Proof.
  induction 1 as [|u rest [Hu _] _ IH]; [done|].
  unfold replaceForbidden in *. cbn [map]. by rewrite Hu, IH.
Qed.

Lemma collapse_id (name : Units) :
  Forall plainUnit name → singleSpaced name = true →
  collapseWhiteSpace name = name.
Proof.
  induction 1 as [|u rest [_ Hu] _ IH]; [done|]. intros Hsingle.
  pose proof (IH (singleSpaced_tail _ _ Hsingle)) as IHrest.
  cbn [collapseWhiteSpace]. destruct (isWhiteSpace u) eqn:Hw.
  - rewrite (Hu eq_refl) in *. destruct rest as [|v rest']; [done|].
    cbn [singleSpaced] in Hsingle. rewrite Hw in Hsingle.
    destruct (isWhiteSpace v); [done|]. by rewrite IHrest.
  - by rewrite IHrest.
Qed.

Lemma trimStart_id (name : Units) :
  (∀ u, head name = Some u → isWhiteSpace u = false) → trimStart name = name.
Proof.
  destruct name as [|u rest]; [done|]. intros H. cbn [trimStart].
  by rewrite (H u eq_refl).
Qed.

Lemma trimEnd_id (name : Units) :
  (∀ u, last name = Some u → isWhiteSpace u = false) → trimEnd name = name.
Proof.
  induction name as [|u rest IH]; [done|]. intros H. cbn [trimEnd].
  destruct rest as [|v rest'].
  - cbn. by rewrite (H u eq_refl).
  - rewrite IH; [done|]. intros w Hw. apply H. by rewrite last_cons, Hw.
Qed.

(** X21: a name that has none of the characters of the class, no white
    space other than single spaces between other characters, and no more
    code units than the bound, is its own file name; a dollar sign, for
    one, is kept. *)
Theorem sanitizeFileName_tidy_unchanged (name : Units) (maxLength : Z) :
  Forall plainUnit name → singleSpaced name = true → trimmed name →
  Z.of_nat (length name) ≤ maxLength →
  sanitizeFileName name maxLength = name.
Proof.
  intros Hplain Hsingle [Hhead Hlast] Hlen. unfold sanitizeFileName, trim.
  rewrite replaceForbidden_id, collapse_id, trimStart_id, trimEnd_id by done.
  unfold sliceFromStart. replace (0 <=? maxLength) with true by lia.
  apply take_ge. lia.
Qed.

(** The name [A $1 b]. *)
Lemma sanitizeFileName_tidy_unchanged_witness :
  sanitizeFileName [65; 32; 36; 49; 32; 98] 100 = [65; 32; 36; 49; 32; 98].
Proof.
  apply sanitizeFileName_tidy_unchanged.
  - repeat constructor; intros H; vm_compute in H; discriminate.
  - reflexivity.
  - split; intros u [= <-]; reflexivity.
  - vm_compute. discriminate.
Defined.

End NameFacts.
